(** * G1 remembered-set engine (g1RemSet.cpp): a shallow embedding

    The embedding follows hotspot/src/share/vm/gc_implementation/g1/g1RemSet.cpp.
    Heap addresses are [HeapWord*] values counted in words, card pointers are
    indices into the card table's byte map, region pointers are indices into
    the region table.  Every function threads the collector state explicitly
    and appends to a chronological trace of the memory operations and
    collaborator calls it performs, so that ordering properties can be read
    off the trace.

    One call runs without interleaving, with two exceptions that the code
    itself provides for: the stores of mutators that become visible while a
    card's objects are iterated, and what a safepoint does to the marking
    cycle at a yield point of the rebuild.  Assertions are compiled out of
    product builds and are left out; a failing [guarantee] is [None]. *)

From stdpp Require Import base numbers list.
From Stdlib Require Import ZArith Lia.

Local Open Scope Z_scope.

(** ** Machine integers *)

(** [size_t] on LP64: arithmetic wraps modulo 2^64. *)
Definition size_t_max : Z := 2 ^ 64.
Definition size_t_wrap (n : Z) : Z := n mod size_t_max.
Definition size_t_add (a b : Z) : Z := size_t_wrap (a + b).
Definition size_t_mul (a b : Z) : Z := size_t_wrap (a * b).

(** [int]: 32 bits, two's complement; a conversion to [int] keeps the low
    32 bits. *)
Definition int_wrap (n : Z) : Z := (n + 2 ^ 31) mod 2 ^ 32 - 2 ^ 31.

(** [HeapWordSize]: bytes per heap word (LP64). *)
Definition HeapWordSize : Z := 8.

Definition MIN2 (a b : Z) : Z := if a <? b then a else b.
Definition MAX2 (a b : Z) : Z := if a <? b then b else a.

(** ** MemRegion *)

(** Modelled from the spec: memRegion.hpp is not among the sources.  A
    [MemRegion] is a start address and a size in words; the intersection of
    two regions is the overlap, or the empty region when they do not meet. *)
Record MemRegion := mkMemRegion { mr_start : Z; mr_word_size : Z }.

Definition MemRegion_of (start end_ : Z) : MemRegion :=
  mkMemRegion start (end_ - start).
Definition mr_end (mr : MemRegion) : Z := mr_start mr + mr_word_size mr.
Definition mr_empty : MemRegion := mkMemRegion 0 0.
Definition mr_is_empty (mr : MemRegion) : bool := mr_word_size mr =? 0.
Definition mr_byte_size (mr : MemRegion) : Z :=
  size_t_mul (mr_word_size mr) HeapWordSize.
Definition mr_intersection (a b : MemRegion) : MemRegion :=
  let res_start := MAX2 (mr_start a) (mr_start b) in
  let res_end := MIN2 (mr_end a) (mr_end b) in
  if res_start <? res_end then MemRegion_of res_start res_end else mr_empty.
Definition mr_contains (a b : MemRegion) : bool :=
  (mr_start a <=? mr_start b) && (mr_end b <=? mr_end a).

(** ** Card table *)

(** Modelled from the spec: cardTableModRefBS.hpp and
    g1SATBCardTableModRefBS.hpp are not among the sources.  Section 3 of the
    specification gives the card states: CLEAN, DIRTY, YOUNG and the
    transient scan-side mark CLAIMED. *)
Inductive CardValue := clean_card | dirty_card | g1_young_card | claimed_card.

#[global] Instance CardValue_eq_dec : EqDecision CardValue.
Proof. solve_decision. Defined.

Definition clean_card_val : CardValue := clean_card.
Definition dirty_card_val : CardValue := dirty_card.
Definition claimed_card_val : CardValue := claimed_card.

(** The byte map, one entry per card.  A card pointer [jbyte*] is the index
    of its entry. *)
Abbreviation ByteMap := (list CardValue).

(** [*card_ptr != v]; a pointer outside the byte map never compares equal. *)
Definition card_differs (bm : ByteMap) (card_ptr : nat) (v : CardValue) : bool :=
  match bm !! card_ptr with
  | Some b => negb (bool_decide (b = v))
  | None => true
  end.

(** Modelled from the spec: [is_card_dirty], [is_card_claimed] and
    [set_card_claimed] of the G1 card table (section 6: [is_dirty(idx)],
    [atomic_set_claimed(idx)]). *)
Definition is_card_dirty (bm : ByteMap) (index : nat) : bool :=
  negb (card_differs bm index dirty_card_val).
Definition is_card_claimed (bm : ByteMap) (index : nat) : bool :=
  negb (card_differs bm index claimed_card_val).
Definition set_card_claimed (bm : ByteMap) (index : nat) : ByteMap :=
  <[index := claimed_card_val]> bm.

(** ** Heap regions *)

(** Modelled from the spec: heapRegion.hpp and heapRegionRemSet.hpp are not
    among the sources.  Section 3 gives the region types and the frontiers
    [bottom], [top] and [scan_top]; the remembered set of a region is a
    collection of card indices with a parallel iterator whose state is
    unclaimed, claimed or complete, and a claim counter for card blocks. *)
Inductive HeapRegionType := FreeTag | YoungTag | OldTag | HumongousTag | HumongousContTag.

Inductive ParIterState := Unclaimed | Claimed | Complete.

#[global] Instance ParIterState_eq_dec : EqDecision ParIterState.
Proof. solve_decision. Defined.

(** Modelled from the spec: oop.hpp is not among the sources.  What the
    rebuild code reads of an object is its size in words and whether it is an
    object array. *)
Record oopDesc := mkOop { oop_size : Z; oop_is_objArray : bool }.

Record HeapRegionRemSet := mkHRRS {
  rs_cards : list nat;          (* the cards the iterator yields, in order *)
  iter_state : ParIterState;
  iter_claimed : nat
}.

Record HeapRegion := mkHeapRegion {
  hr_bottom : Z;
  hr_end : Z;
  hr_top : Z;
  hr_scan_top : Z;
  hr_type : HeapRegionType;
  hr_in_collection_set : bool;
  hr_rem_set : HeapRegionRemSet;
  hr_on_dirty_cards_region_list : bool;
  hr_humongous_start_region : nat;
  hr_next_top_at_mark_start : Z;
  hr_next_marked_bytes : Z;
  hr_objects : list oopDesc     (* the objects laid out from hr_bottom upwards *)
}.

Definition is_old_or_humongous (r : HeapRegion) : bool :=
  match hr_type r with
  | OldTag | HumongousTag | HumongousContTag => true
  | FreeTag | YoungTag => false
  end.

Definition isHumongous (r : HeapRegion) : bool :=
  match hr_type r with
  | HumongousTag | HumongousContTag => true
  | _ => false
  end.

Definition empty_rem_set : HeapRegionRemSet := mkHRRS [] Unclaimed 0.

(** The region read through a pointer that names no committed region: free
    and empty, so that every filter of the refinement code rejects it. *)
Definition no_region : HeapRegion :=
  mkHeapRegion 0 0 0 0 FreeTag false empty_rem_set false 0 0 0 [].

(** ** Hot card cache *)

Record G1HotCardCache := mkHCC {
  use_cache : bool;
  hcc_capacity : nat;
  hcc_cards : list nat
}.

(** ** Closures *)

(** A [G1ParPushHeapRSClosure*] is identified by a number; [None] is NULL. *)
Abbreviation PushClosure := (option nat).

Inductive OopClosure :=
| G1ConcurrentRefineOopClosure (worker_i : nat)
| G1UpdateRSOrPushRefOopClosure (push_ref_cl : PushClosure)
    (record_refs_into_cset : bool) (worker_i : nat) (from : nat).

(** ** Trace events *)

Inductive Event :=
| EvCardStore (card_ptr : nat) (v : CardValue)   (* store to a card byte *)
| EvFence                                        (* OrderAccess::fence() *)
| EvOopsOnCard (filter_young : bool) (r : nat) (mr : MemRegion) (cl : OopClosure)
| EvLock                                         (* Shared_DirtyCardQ_lock taken *)
| EvSharedEnqueue (card_ptr : nat)
| EvUnlock
| EvSetCardClaimed (index : nat)
| EvScanMemRegion (r : nat) (mr : MemRegion) (oc : PushClosure)
| EvStrongCodeRoots (r : nat)
| EvSetIterComplete (r : nat)                    (* hrrs->set_iter_complete() *)
| EvTrimQueuePartially
| EvIntoCSetEnqueue (card_ptr : nat).

(** ** Collector state *)

Record G1State := mkG1State {
  byte_map : ByteMap;
  regions : list HeapRegion;
  dirty_cards_region_list : list nat;
  hot_card_cache : G1HotCardCache;
  conc_refine_cards : Z;                       (* size_t _conc_refine_cards *)
  cset_rs_update_cl : list PushClosure;        (* one slot per worker *)
  cards_scanned : option (list Z);             (* NULL outside a pause *)
  total_cards_scanned : Z;
  refine_cte_cl_concurrency : bool;
  mutator_logs : list (list nat);              (* per-thread dirty card logs *)
  completed_buffers : list (list nat);         (* JavaThread::dirty_card_queue_set() *)
  shared_dirty_card_queue : list nat;
  into_cset_completed_buffers : list (list nat);
  (* _g1->dirty_card_queue_set(): the queue set that holds the deferred
     remembered-set updates *)
  deferred_rs_update_buffers : list (list nat);
  evacuation_failed : bool;
  trace : list Event
}.

Definition with_byte_map (bm : ByteMap) (st : G1State) : G1State :=
  mkG1State bm (regions st) (dirty_cards_region_list st) (hot_card_cache st)
    (conc_refine_cards st) (cset_rs_update_cl st) (cards_scanned st)
    (total_cards_scanned st) (refine_cte_cl_concurrency st) (mutator_logs st)
    (completed_buffers st) (shared_dirty_card_queue st)
    (into_cset_completed_buffers st) (deferred_rs_update_buffers st)
    (evacuation_failed st) (trace st).

Definition with_regions (rs : list HeapRegion) (st : G1State) : G1State :=
  mkG1State (byte_map st) rs (dirty_cards_region_list st) (hot_card_cache st)
    (conc_refine_cards st) (cset_rs_update_cl st) (cards_scanned st)
    (total_cards_scanned st) (refine_cte_cl_concurrency st) (mutator_logs st)
    (completed_buffers st) (shared_dirty_card_queue st)
    (into_cset_completed_buffers st) (deferred_rs_update_buffers st)
    (evacuation_failed st) (trace st).

Definition with_dirty_cards_region_list (l : list nat) (st : G1State) : G1State :=
  mkG1State (byte_map st) (regions st) l (hot_card_cache st)
    (conc_refine_cards st) (cset_rs_update_cl st) (cards_scanned st)
    (total_cards_scanned st) (refine_cte_cl_concurrency st) (mutator_logs st)
    (completed_buffers st) (shared_dirty_card_queue st)
    (into_cset_completed_buffers st) (deferred_rs_update_buffers st)
    (evacuation_failed st) (trace st).

Definition with_hot_card_cache (h : G1HotCardCache) (st : G1State) : G1State :=
  mkG1State (byte_map st) (regions st) (dirty_cards_region_list st) h
    (conc_refine_cards st) (cset_rs_update_cl st) (cards_scanned st)
    (total_cards_scanned st) (refine_cte_cl_concurrency st) (mutator_logs st)
    (completed_buffers st) (shared_dirty_card_queue st)
    (into_cset_completed_buffers st) (deferred_rs_update_buffers st)
    (evacuation_failed st) (trace st).

Definition with_conc_refine_cards (n : Z) (st : G1State) : G1State :=
  mkG1State (byte_map st) (regions st) (dirty_cards_region_list st)
    (hot_card_cache st) n (cset_rs_update_cl st) (cards_scanned st)
    (total_cards_scanned st) (refine_cte_cl_concurrency st) (mutator_logs st)
    (completed_buffers st) (shared_dirty_card_queue st)
    (into_cset_completed_buffers st) (deferred_rs_update_buffers st)
    (evacuation_failed st) (trace st).

Definition with_cset_rs_update_cl (l : list PushClosure) (st : G1State) : G1State :=
  mkG1State (byte_map st) (regions st) (dirty_cards_region_list st)
    (hot_card_cache st) (conc_refine_cards st) l (cards_scanned st)
    (total_cards_scanned st) (refine_cte_cl_concurrency st) (mutator_logs st)
    (completed_buffers st) (shared_dirty_card_queue st)
    (into_cset_completed_buffers st) (deferred_rs_update_buffers st)
    (evacuation_failed st) (trace st).

Definition with_cards_scanned (c : option (list Z)) (total : Z) (st : G1State) : G1State :=
  mkG1State (byte_map st) (regions st) (dirty_cards_region_list st)
    (hot_card_cache st) (conc_refine_cards st) (cset_rs_update_cl st) c
    total (refine_cte_cl_concurrency st) (mutator_logs st)
    (completed_buffers st) (shared_dirty_card_queue st)
    (into_cset_completed_buffers st) (deferred_rs_update_buffers st)
    (evacuation_failed st) (trace st).

Definition with_refine_cte_cl_concurrency (b : bool) (st : G1State) : G1State :=
  mkG1State (byte_map st) (regions st) (dirty_cards_region_list st)
    (hot_card_cache st) (conc_refine_cards st) (cset_rs_update_cl st)
    (cards_scanned st) (total_cards_scanned st) b (mutator_logs st)
    (completed_buffers st) (shared_dirty_card_queue st)
    (into_cset_completed_buffers st) (deferred_rs_update_buffers st)
    (evacuation_failed st) (trace st).

Definition with_dirty_card_queues (logs bufs : list (list nat)) (st : G1State) : G1State :=
  mkG1State (byte_map st) (regions st) (dirty_cards_region_list st)
    (hot_card_cache st) (conc_refine_cards st) (cset_rs_update_cl st)
    (cards_scanned st) (total_cards_scanned st) (refine_cte_cl_concurrency st)
    logs bufs (shared_dirty_card_queue st)
    (into_cset_completed_buffers st) (deferred_rs_update_buffers st)
    (evacuation_failed st) (trace st).

Definition with_shared_dirty_card_queue (q : list nat) (st : G1State) : G1State :=
  mkG1State (byte_map st) (regions st) (dirty_cards_region_list st)
    (hot_card_cache st) (conc_refine_cards st) (cset_rs_update_cl st)
    (cards_scanned st) (total_cards_scanned st) (refine_cte_cl_concurrency st)
    (mutator_logs st) (completed_buffers st) q
    (into_cset_completed_buffers st) (deferred_rs_update_buffers st)
    (evacuation_failed st) (trace st).

Definition with_into_cset_completed_buffers (b : list (list nat)) (st : G1State) : G1State :=
  mkG1State (byte_map st) (regions st) (dirty_cards_region_list st)
    (hot_card_cache st) (conc_refine_cards st) (cset_rs_update_cl st)
    (cards_scanned st) (total_cards_scanned st) (refine_cte_cl_concurrency st)
    (mutator_logs st) (completed_buffers st) (shared_dirty_card_queue st)
    b (deferred_rs_update_buffers st) (evacuation_failed st) (trace st).

Definition with_deferred_rs_update_buffers (b : list (list nat)) (st : G1State) : G1State :=
  mkG1State (byte_map st) (regions st) (dirty_cards_region_list st)
    (hot_card_cache st) (conc_refine_cards st) (cset_rs_update_cl st)
    (cards_scanned st) (total_cards_scanned st) (refine_cte_cl_concurrency st)
    (mutator_logs st) (completed_buffers st) (shared_dirty_card_queue st)
    (into_cset_completed_buffers st) b (evacuation_failed st) (trace st).

Definition emit (e : Event) (st : G1State) : G1State :=
  mkG1State (byte_map st) (regions st) (dirty_cards_region_list st)
    (hot_card_cache st) (conc_refine_cards st) (cset_rs_update_cl st)
    (cards_scanned st) (total_cards_scanned st) (refine_cte_cl_concurrency st)
    (mutator_logs st) (completed_buffers st) (shared_dirty_card_queue st)
    (into_cset_completed_buffers st) (deferred_rs_update_buffers st)
    (evacuation_failed st) (trace st ++ [e]).

(** [_g1->region_at(i)]. *)
Definition region (st : G1State) (r : nat) : HeapRegion :=
  default no_region (regions st !! r).

(** [*card_ptr = v]: a single byte store. *)
Definition store_card (card_ptr : nat) (v : CardValue) (st : G1State) : G1State :=
  emit (EvCardStore card_ptr v) (with_byte_map (<[card_ptr := v]> (byte_map st)) st).

(** ** Collaborators *)

(** What one call of [HeapRegion::oops_on_card_seq_iterate_careful] does, as
    far as this file can observe it: whether the card could be parsed, the
    closure's [has_refs_into_cset] flag afterwards, the remembered-set
    insertions the closure performed (target region, source card), and the
    cards that mutator post-barriers dirtied while the iteration ran. *)
Record IterateResult := mkIterateResult {
  card_processed : bool;
  has_refs_into_cset : bool;
  rs_insertions : list (nat * nat);
  mutator_dirtied : list nat
}.

(** The functions of other compilation units that g1RemSet.cpp calls and
    whose bodies are not among the sources are parameters of the embedding. *)
Record Collaborators := mkCollaborators {
  (* CardTableModRefBS::addr_for and G1BlockOffsetSharedArray::address_for_index *)
  addr_for : nat -> Z;
  (* CardTableModRefBS::card_size_in_words, G1BlockOffsetSharedArray::N_words *)
  card_size_in_words : Z;
  (* G1CollectedHeap::heap_region_containing *)
  heap_region_containing : Z -> nat;
  (* G1HotCardCache::insert: NULL, the card itself or an evicted card *)
  hcc_insert : G1HotCardCache -> nat -> option nat * G1HotCardCache;
  (* HeapRegion::oops_on_card_seq_iterate_careful<filter_young> *)
  oops_on_card_seq_iterate_careful :
    bool -> nat -> MemRegion -> OopClosure -> G1State -> IterateResult;
  (* G1CollectedHeap::collection_set_iterate_from: the order in which the
     given worker visits the regions of the collection set *)
  collection_set_from : G1State -> nat -> list nat;
  (* G1RSetScanBlockSize *)
  G1RSetScanBlockSize : Z;
  (* n_workers() *)
  n_workers : nat
}.

(** [HeapRegionRemSet::add_reference]: idempotent insertion of a card. *)
Definition hrrs_add (card : nat) (rs : HeapRegionRemSet) : HeapRegionRemSet :=
  if bool_decide (card ∈ rs_cards rs) then rs
  else mkHRRS (rs_cards rs ++ [card]) (iter_state rs) (iter_claimed rs).

Definition set_rem_set (rs : HeapRegionRemSet) (r : HeapRegion) : HeapRegion :=
  mkHeapRegion (hr_bottom r) (hr_end r) (hr_top r) (hr_scan_top r) (hr_type r)
    (hr_in_collection_set r) rs (hr_on_dirty_cards_region_list r)
    (hr_humongous_start_region r) (hr_next_top_at_mark_start r)
    (hr_next_marked_bytes r) (hr_objects r).

Definition update_rem_set (f : HeapRegionRemSet -> HeapRegionRemSet) (r : nat)
    (st : G1State) : G1State :=
  match regions st !! r with
  | Some hr => with_regions (<[r := set_rem_set (f (hr_rem_set hr)) hr]> (regions st)) st
  | None => st
  end.

Definition add_references (ins : list (nat * nat)) (st : G1State) : G1State :=
  foldl (fun s '(to, card) => update_rem_set (hrrs_add card) to s) st ins.

Definition mutators_dirty (cards : list nat) (st : G1State) : G1State :=
  with_byte_map (foldl (fun bm c => <[c := dirty_card_val]> bm) (byte_map st) cards) st.

Section RemSet.

Context (env : Collaborators).

(** The call [r->oops_on_card_seq_iterate_careful<filter_young>(mr, cl)]:
    the call is recorded, the closure's insertions reach the remembered
    sets, and the stores of concurrently running mutators become visible. *)
Definition iterate_card (filter_young : bool) (r : nat) (mr : MemRegion)
    (cl : OopClosure) (st : G1State) : IterateResult * G1State :=
  let res := oops_on_card_seq_iterate_careful env filter_young r mr cl st in
  let st := emit (EvOopsOnCard filter_young r mr cl) st in
  let st := add_references (rs_insertions res) st in
  let st := mutators_dirty (mutator_dirtied res) st in
  (res, st).

(** ** Concurrent refinement *)

(** g1RemSet.cpp lines 520-581: the part of [refine_card_concurrently] after
    the hot card cache, with the card, its start address and its region as
    they stand at that point. *)
Definition refine_card_concurrently_trimmed (card_ptr : nat) (start : Z) (r : nat)
    (worker_i : nat) (st : G1State) : G1State :=
  let scan_limit := hr_top (region st r) in
  if scan_limit <=? start then
    (* If the trimmed region is empty, the card must be stale. *)
    st
  else
    let st := store_card card_ptr clean_card_val st in
    let st := emit EvFence st in
    let end_ := start + card_size_in_words env in
    let dirty_region := MemRegion_of start (MIN2 scan_limit end_) in
    let conc_refine_cl := G1ConcurrentRefineOopClosure worker_i in
    let '(res, st) := iterate_card false r dirty_region conc_refine_cl st in
    if negb (card_processed res) then
      if card_differs (byte_map st) card_ptr dirty_card_val then
        let st := store_card card_ptr dirty_card_val st in
        let st := emit EvLock st in
        let st := emit (EvSharedEnqueue card_ptr)
                    (with_shared_dirty_card_queue
                       (shared_dirty_card_queue st ++ [card_ptr]) st) in
        emit EvUnlock st
      else st
    else
      with_conc_refine_cards (size_t_add (conc_refine_cards st) 1) st.

(** g1RemSet.cpp lines 455-518: the filters of [refine_card_concurrently]
    ahead of the trimming.  The result is the card that remains to be
    refined, with its start address and its region, or [None] when the
    function returns here; only the hot card cache changes. *)
Definition refine_card_concurrently_filter (card_ptr : nat) (st : G1State)
    : option (nat * Z * nat) * G1State :=
  (* If the card is no longer dirty, nothing to do. *)
  if card_differs (byte_map st) card_ptr dirty_card_val then (None, st)
  else
    let start := addr_for env card_ptr in
    let r := heap_region_containing env start in
    if negb (is_old_or_humongous (region st r)) then (None, st)
    else
      let hcc := hot_card_cache st in
      if use_cache hcc then
        let '(res, hcc') := hcc_insert env hcc card_ptr in
        let st := with_hot_card_cache hcc' st in
        match res with
        | None =>
            (* There was no eviction. Nothing to do. *)
            (None, st)
        | Some card_ptr' =>
            if bool_decide (card_ptr' ≠ card_ptr) then
              (* Original card was inserted and an old card was evicted. *)
              let start := addr_for env card_ptr' in
              let r := heap_region_containing env start in
              if negb (is_old_or_humongous (region st r)) then (None, st)
              else (Some (card_ptr', start, r), st)
            else
              (* Else we still have the original card. *)
              (Some (card_ptr', start, r), st)
        end
      else (Some (card_ptr, start, r), st).

Definition refine_card_concurrently (card_ptr : nat) (worker_i : nat)
    (st : G1State) : G1State :=
  match refine_card_concurrently_filter card_ptr st with
  | (None, st) => st
  | (Some (card_ptr, start, r), st) =>
      refine_card_concurrently_trimmed card_ptr start r worker_i st
  end.

(** ** Refinement during a pause *)

Definition refine_card_during_gc (card_ptr : nat) (worker_i : nat)
    (st : G1State) : bool * G1State :=
  if card_differs (byte_map st) card_ptr dirty_card_val then (false, st)
  else
    let start := addr_for env card_ptr in
    let r := heap_region_containing env start in
    if negb (is_old_or_humongous (region st r)) then (false, st)
    else if hr_in_collection_set (region st r) then (false, st)
    else
      let scan_limit := hr_scan_top (region st r) in
      if scan_limit <=? start then (false, st)
      else
        let st := store_card card_ptr clean_card_val st in
        let end_ := start + card_size_in_words env in
        let dirty_region := MemRegion_of start (MIN2 scan_limit end_) in
        let oops_in_heap_closure := default None (cset_rs_update_cl st !! worker_i) in
        let update_rs_oop_cl :=
          G1UpdateRSOrPushRefOopClosure oops_in_heap_closure true worker_i r in
        let '(res, st) := iterate_card true r dirty_region update_rs_oop_cl st in
        (* assert(card_processed, "must be") is compiled out of product builds *)
        let st := with_conc_refine_cards (size_t_add (conc_refine_cards st) 1) st in
        (has_refs_into_cset res, st).


(** ** Scanning the remembered sets of the collection set *)

(** Modelled from the spec: the parallel iterator of [HeapRegionRemSet]
    (heapRegionRemSet.hpp is not among the sources).  [claim_iter] is a
    single compare-and-swap from unclaimed to claimed, [iter_claimed_next]
    hands out increasing claim offsets, and an iterator that was marked
    complete stays so for the rest of the pause. *)
Definition iter_is_complete (rs : HeapRegionRemSet) : bool :=
  bool_decide (iter_state rs = Complete).

Definition claim_iter (rs : HeapRegionRemSet) : bool * HeapRegionRemSet :=
  if bool_decide (iter_state rs = Unclaimed)
  then (true, mkHRRS (rs_cards rs) Claimed (iter_claimed rs))
  else (false, rs).

Definition set_iter_complete (rs : HeapRegionRemSet) : HeapRegionRemSet :=
  mkHRRS (rs_cards rs) Complete (iter_claimed rs).

Definition iter_claimed_next (step : nat) (rs : HeapRegionRemSet) : nat * HeapRegionRemSet :=
  (iter_claimed rs, mkHRRS (rs_cards rs) (iter_state rs) (iter_claimed rs + step)%nat).

Definition rem_set (st : G1State) (r : nat) : HeapRegionRemSet :=
  hr_rem_set (region st r).

Definition set_on_dirty_cards_region_list (r : HeapRegion) : HeapRegion :=
  mkHeapRegion (hr_bottom r) (hr_end r) (hr_top r) (hr_scan_top r) (hr_type r)
    (hr_in_collection_set r) (hr_rem_set r) true
    (hr_humongous_start_region r) (hr_next_top_at_mark_start r)
    (hr_next_marked_bytes r) (hr_objects r).

(** Modelled from the spec: [G1CollectedHeap::push_dirty_cards_region]
    (g1CollectedHeap.cpp is not among the sources) puts a region on the list
    of regions whose cards the pause may have marked; a region that is on
    the list already is left alone. *)
Definition push_dirty_cards_region (r : nat) (st : G1State) : G1State :=
  match regions st !! r with
  | Some hr =>
      if hr_on_dirty_cards_region_list hr then st
      else with_dirty_cards_region_list (r :: dirty_cards_region_list st)
             (with_regions (<[r := set_on_dirty_cards_region_list hr]> (regions st)) st)
  | None => st
  end.

Record ScanRSClosure := mkScanRSClosure {
  _cards_done : Z;
  _cards : Z;
  _oc : PushClosure;
  _worker_i : nat;
  _block_size : nat;
  _try_claimed : bool
}.

Definition new_ScanRSClosure (oc : PushClosure) (worker_i : nat) : ScanRSClosure :=
  (* _block_size = MAX2<int>(G1RSetScanBlockSize, 1): the flag is converted
     to int first *)
  mkScanRSClosure 0 0 oc worker_i
    (Z.to_nat (MAX2 (int_wrap (G1RSetScanBlockSize env)) 1)) false.

Definition set_try_claimed (cl : ScanRSClosure) : ScanRSClosure :=
  mkScanRSClosure (_cards_done cl) (_cards cl) (_oc cl) (_worker_i cl) (_block_size cl) true.

Definition inc_cards_done (cl : ScanRSClosure) : ScanRSClosure :=
  mkScanRSClosure (size_t_add (_cards_done cl) 1) (_cards cl) (_oc cl) (_worker_i cl)
    (_block_size cl) (_try_claimed cl).

Definition inc_cards (cl : ScanRSClosure) : ScanRSClosure :=
  mkScanRSClosure (_cards_done cl) (size_t_add (_cards cl) 1) (_oc cl) (_worker_i cl)
    (_block_size cl) (_try_claimed cl).

Definition scanCard (index : nat) (r : nat) (cl : ScanRSClosure) (st : G1State)
    : ScanRSClosure * G1State :=
  let card_region := mkMemRegion (addr_for env index) (card_size_in_words env) in
  let pre_gc_allocated :=
    MemRegion_of (hr_bottom (region st r)) (hr_scan_top (region st r)) in
  let mr := mr_intersection pre_gc_allocated card_region in
  if negb (mr_is_empty mr) && negb (is_card_claimed (byte_map st) index) then
    let st := emit (EvSetCardClaimed index)
                (with_byte_map (set_card_claimed (byte_map st) index) st) in
    let cl := inc_cards_done cl in
    (cl, emit (EvScanMemRegion r mr (_oc cl)) st)
  else (cl, st).

Definition scan_strong_code_roots (r : nat) (st : G1State) : G1State :=
  emit EvTrimQueuePartially (emit (EvStrongCodeRoots r) st).

(** [hrrs->set_iter_complete()] on the remembered set of region [r]. *)
Definition iter_set_complete (r : nat) (st : G1State) : G1State :=
  emit (EvSetIterComplete r) (update_rem_set set_iter_complete r st).

(** g1RemSet.cpp lines 208-225: what [doHeapRegion] does with one card that
    falls into a block this worker claimed. *)
Definition doHeapRegion_card (card_index : nat) (cl : ScanRSClosure) (st : G1State)
    : ScanRSClosure * G1State :=
  let card_start := addr_for env card_index in
  let card_region := heap_region_containing env card_start in
  let cl := inc_cards cl in
  let st :=
    if negb (hr_on_dirty_cards_region_list (region st card_region))
    then push_dirty_cards_region card_region st else st in
  (* If the card is dirty, then we will scan it during updateRS. *)
  if negb (hr_in_collection_set (region st card_region))
     && negb (is_card_dirty (byte_map st) card_index)
  then scanCard card_index card_region cl st
  else (cl, st).

(** The loop of [doHeapRegion] over the cards the iterator yields. *)
Fixpoint doHeapRegion_loop (r : nat) (cards : list nat) (current_card jump_to_card : nat)
    (cl : ScanRSClosure) (st : G1State) : ScanRSClosure * G1State :=
  match cards with
  | [] => (cl, st)
  | card_index :: rest =>
      let '(jump_to_card, st) :=
        if (jump_to_card + _block_size cl <=? current_card)%nat then
          let '(j, rs) := iter_claimed_next (_block_size cl) (rem_set st r) in
          (j, update_rem_set (fun _ => rs) r st)
        else (jump_to_card, st) in
      if (current_card <? jump_to_card)%nat then
        doHeapRegion_loop r rest (S current_card) jump_to_card cl st
      else
        let '(cl, st) := doHeapRegion_card card_index cl st in
        doHeapRegion_loop r rest (S current_card) jump_to_card cl st
  end.

Definition doHeapRegion (r : nat) (cl : ScanRSClosure) (st : G1State)
    : bool * ScanRSClosure * G1State :=
  let hrrs := rem_set st r in
  if iter_is_complete hrrs then (false, cl, st) (* All done. *)
  else
    let '(claimed, hrrs') :=
      if negb (_try_claimed cl) then claim_iter hrrs else (true, hrrs) in
    if negb (_try_claimed cl) && negb claimed then (false, cl, st)
    else
      let st := update_rem_set (fun _ => hrrs') r st in
      let st := push_dirty_cards_region r st in
      let cards := rs_cards (rem_set st r) in
      let '(jump_to_card, rs) := iter_claimed_next (_block_size cl) (rem_set st r) in
      let st := update_rem_set (fun _ => rs) r st in
      let '(cl, st) := doHeapRegion_loop r cards 0 jump_to_card cl st in
      let st :=
        if negb (_try_claimed cl) then
          (* Scan the strong code root list attached to the current region *)
          let st := scan_strong_code_roots r st in
          iter_set_complete r st
        else st in
      (false, cl, st).

(** [collection_set_iterate_from]: apply the closure to the regions in the
    worker's order, stopping when it returns true. *)
Fixpoint heap_region_iterate (order : list nat) (cl : ScanRSClosure) (st : G1State)
    : ScanRSClosure * G1State :=
  match order with
  | [] => (cl, st)
  | r :: rest =>
      let '(stop, cl, st) := doHeapRegion r cl st in
      if stop then (cl, st) else heap_region_iterate rest cl st
  end.

Definition collection_set_iterate_from (cl : ScanRSClosure) (worker_i : nat)
    (st : G1State) : ScanRSClosure * G1State :=
  heap_region_iterate (collection_set_from env st worker_i) cl st.

Definition scanRS (oc : PushClosure) (worker_i : nat) (st : G1State) : G1State :=
  let scanRScl := new_ScanRSClosure oc worker_i in
  let '(scanRScl, st) := collection_set_iterate_from scanRScl worker_i st in
  let scanRScl := set_try_claimed scanRScl in
  let '(scanRScl, st) := collection_set_iterate_from scanRScl worker_i st in
  with_cards_scanned
    (option_map (fun l => <[worker_i := _cards_done scanRScl]> l) (cards_scanned st))
    (total_cards_scanned st) st.

(** ** Pause life cycle *)

(** [RefineRecordRefsIntoCSCardTableEntryClosure::do_card_ptr]; the second
    component of the state is the worker's into-cset dirty card queue. *)
Definition do_card_ptr (card_ptr : nat) (worker_i : nat) (into_cset_dcq : list nat)
    (st : G1State) : list nat * G1State :=
  let '(into_cset, st) := refine_card_during_gc card_ptr worker_i st in
  if into_cset then
    let st := emit EvTrimQueuePartially st in
    (into_cset_dcq ++ [card_ptr], emit (EvIntoCSetEnqueue card_ptr) st)
  else (into_cset_dcq, st).

(** Modelled from the spec: [G1CollectedHeap::iterate_dirty_card_closure]
    (g1CollectedHeap.cpp is not among the sources) drains the completed
    buffers of the dirty card queue set, applying the closure to each card. *)
Definition iterate_dirty_card_closure (worker_i : nat) (into_cset_dcq : list nat)
    (st : G1State) : list nat * G1State :=
  let cards := concat (completed_buffers st) in
  let st := with_dirty_card_queues (mutator_logs st) [] st in
  foldl (fun '(q, s) c => do_card_ptr c worker_i q s) (into_cset_dcq, st) cards.

Definition updateRS (into_cset_dcq : list nat) (worker_i : nat) (st : G1State)
    : list nat * G1State :=
  iterate_dirty_card_closure worker_i into_cset_dcq st.

(** The state the constructor [G1RemSet::G1RemSet] leaves behind; its
    [guarantee] asks for at least one worker. *)
Definition G1RemSet_new (st : G1State) : option G1State :=
  if (0 <? n_workers env)%nat then
    Some (with_cards_scanned None 0
            (with_cset_rs_update_cl (replicate (n_workers env) None)
               (with_conc_refine_cards 0 st)))
  else None.

Definition oops_into_collection_set_do (oc : PushClosure) (worker_i : nat)
    (st : G1State) : G1State :=
  (* We cache the value of 'oc' closure into the appropriate slot *)
  let st := with_cset_rs_update_cl (<[worker_i := oc]> (cset_rs_update_cl st)) st in
  let into_cset_dcq : list nat := [] in
  let '(into_cset_dcq, st) := updateRS into_cset_dcq worker_i st in
  let st := scanRS oc worker_i st in
  (* We now clear the cached values of _cset_rs_update_cl for this worker *)
  let st := with_cset_rs_update_cl (<[worker_i := None]> (cset_rs_update_cl st)) st in
  (* the destructor of into_cset_dcq hands its buffer to its queue set *)
  match into_cset_dcq with
  | [] => st
  | _ => with_into_cset_completed_buffers
           (into_cset_completed_buffers st ++ [into_cset_dcq]) st
  end.

(** [guarantee] stops the VM when its condition fails: [None]. *)
Definition prepare_for_oops_into_collection_set_do (st : G1State) : option G1State :=
  let st := with_refine_cte_cl_concurrency false st in
  (* dcqs.concatenate_logs() *)
  let st := with_dirty_card_queues []
              (completed_buffers st ++ filter (fun l => l ≠ []) (mutator_logs st)) st in
  match cards_scanned st with
  | Some _ => None
  | None => Some (with_cards_scanned (Some (replicate (n_workers env) 0)) 0 st)
  end.

(** Modelled from the spec: [G1CollectedHeap::cleanUpCardTable]
    (g1CollectedHeap.cpp is not among the sources) resets the card table to
    CLEAN (section 4.4). *)
Definition cleanUpCardTable (st : G1State) : G1State :=
  with_byte_map (replicate (length (byte_map st)) clean_card_val) st.

Definition sum_cards_scanned (l : list Z) : Z :=
  foldl size_t_add 0 (take (n_workers env) l).

Definition cleanup_after_oops_into_collection_set_do (st : G1State) : option G1State :=
  match cards_scanned st with
  | None => None
  | Some scanned =>
      let st := with_cards_scanned None (sum_cards_scanned scanned) st in
      (* Cleanup after copy *)
      let st := with_refine_cte_cl_concurrency true st in
      (* Set all cards back to clean. *)
      let st := cleanUpCardTable st in
      let st :=
        if evacuation_failed st then
          (* _g1->dirty_card_queue_set().merge_bufferlists(&into_cset_dcqs) *)
          with_into_cset_completed_buffers []
            (with_deferred_rs_update_buffers
               (deferred_rs_update_buffers st ++ into_cset_completed_buffers st) st)
        else st in
      (* Free any completed buffers in the into-cset queue set *)
      Some (with_into_cset_completed_buffers [] st)
  end.

End RemSet.

(** ** Rebuilding remembered sets after marking *)

(** Modelled from the spec: the mark bitmap (concurrentMark.hpp is not among
    the sources) is the set of marked addresses; [getNextMarkedWordAddress]
    returns the first marked address in [[addr, limit)], or [limit]. *)
Abbreviation CMBitMap := (list Z).

Definition isMarked (bitmap : CMBitMap) (addr : Z) : bool :=
  bool_decide (addr ∈ bitmap).

Fixpoint next_marked_from (bitmap : CMBitMap) (n : nat) (addr limit : Z) : Z :=
  match n with
  | O => limit
  | S k =>
      if limit <=? addr then limit
      else if isMarked bitmap addr then addr
      else next_marked_from bitmap k (addr + 1) limit
  end.

Definition getNextMarkedWordAddress (bitmap : CMBitMap) (addr limit : Z) : Z :=
  next_marked_from bitmap (Z.to_nat (limit - addr)) addr limit.

(** Modelled from the spec: the block containing an address of a region
    ([HeapRegion::block_start], through the block offset table) and the
    object header found at an address.  No object starts at an address that
    is not a block start; reading a header there yields size 0. *)
Fixpoint block_containing (objs : list oopDesc) (base addr : Z) : option (Z * oopDesc) :=
  match objs with
  | [] => None
  | o :: rest =>
      if addr <? base + oop_size o then Some (base, o)
      else block_containing rest (base + oop_size o) addr
  end.

Definition block_start (hr : HeapRegion) (addr : Z) : Z :=
  match block_containing (hr_objects hr) (hr_bottom hr) addr with
  | Some (s, _) => s
  | None => addr
  end.

Definition oop (hr : HeapRegion) (addr : Z) : oopDesc :=
  match block_containing (hr_objects hr) (hr_bottom hr) addr with
  | Some (s, o) => if s =? addr then o else mkOop 0 false
  | None => mkOop 0 false
  end.

(** The state of the marking cycle the rebuild consults. *)
Record ConcurrentMark := mkCM {
  has_aborted : bool;
  top_at_rebuild_start : nat -> option Z;     (* NULL is None *)
  nextMarkBitMap : CMBitMap
}.

(** What a rebuild step hands to [G1RebuildRemSetClosure]: the object, and
    the [MemRegion] the iteration is limited to, if any. *)
Inductive RebuildEvent := EvOopIterate (obj : Z) (mr : option MemRegion).

Module G1RebuildRemSetHeapRegionClosure.

Section Closure.

(* G1RebuildRemSetChunkSize, in bytes *)
Context (G1RebuildRemSetChunkSize : Z).
(* ConcurrentMark::do_yield_check: what a safepoint taken at the yield
   point does to the state of the marking cycle *)
Context (do_yield_check : ConcurrentMark -> ConcurrentMark).

Definition scan_for_references (hr : HeapRegion) (obj : Z) (mr : MemRegion)
    : Z * list RebuildEvent :=
  let obj_size := oop_size (oop hr obj) in
  if negb (oop_is_objArray (oop hr obj)) || mr_contains mr (mkMemRegion obj obj_size)
  then (obj_size, [EvOopIterate obj None])
  else (mr_word_size (mr_intersection mr (mkMemRegion obj obj_size)),
        [EvOopIterate obj (Some mr)]).

Definition is_humongous_live (humongous_obj : Z) (bitmap : CMBitMap) (tams tars : Z) : bool :=
  isMarked bitmap humongous_obj || (tams <? tars).

Record LiveObjIterator := mkLiveObjIterator {
  _bitmap : CMBitMap;
  _tams : Z;
  _mr : MemRegion;
  _current : Z
}.

Definition set_current (it : LiveObjIterator) (c : Z) : LiveObjIterator :=
  mkLiveObjIterator (_bitmap it) (_tams it) (_mr it) c.

Definition is_below_tams (it : LiveObjIterator) : bool := _current it <? _tams it.

Definition is_live (it : LiveObjIterator) (obj : Z) : bool :=
  negb (is_below_tams it) || isMarked (_bitmap it) obj.

Definition bitmap_limit (it : LiveObjIterator) : Z := MIN2 (_tams it) (mr_end (_mr it)).

Definition has_next (it : LiveObjIterator) : bool := _current it <? mr_end (_mr it).

Definition move_if_below_tams (it : LiveObjIterator) : LiveObjIterator :=
  if is_below_tams it && has_next it
  then set_current it (getNextMarkedWordAddress (_bitmap it) (_current it) (bitmap_limit it))
  else it.

Definition new_LiveObjIterator (hr : HeapRegion) (bitmap : CMBitMap) (tams : Z)
    (mr : MemRegion) (first_oop_into_mr : Z) : LiveObjIterator :=
  let it := mkLiveObjIterator bitmap tams mr first_oop_into_mr in
  (* Step to the next live object within the MemRegion if needed. *)
  if is_live it (_current it) then
    (* Non-objArrays were scanned by the previous part of that region. *)
    if (_current it <? mr_start mr) && negb (oop_is_objArray (oop hr (_current it))) then
      move_if_below_tams (set_current it (_current it + oop_size (oop hr (_current it))))
    else it
  else
    set_current it (getNextMarkedWordAddress bitmap (_current it) (bitmap_limit it)).

Definition next (it : LiveObjIterator) : Z := _current it.

Definition move_to_next (hr : HeapRegion) (it : LiveObjIterator) : LiveObjIterator :=
  move_if_below_tams (set_current it (_current it + oop_size (oop hr (next it)))).

(** The [for] loop of [rebuild_rem_set_in_region]; [None] when the fuel does
    not suffice. *)
Fixpoint live_objects_do (fuel : nat) (hr : HeapRegion) (top_at_mark_start : Z)
    (mr : MemRegion) (it : LiveObjIterator) (marked_words : Z)
    (evs : list RebuildEvent) : option (Z * list RebuildEvent) :=
  match fuel with
  | O => None
  | S fuel =>
      if has_next it then
        let obj := next it in
        let '(scanned_size, e) := scan_for_references hr obj mr in
        let marked_words :=
          if obj <? top_at_mark_start then size_t_add marked_words scanned_size
          else marked_words in
        live_objects_do fuel hr top_at_mark_start mr (move_to_next hr it)
          marked_words (evs ++ e)
      else Some (marked_words, evs)
  end.

Definition rebuild_rem_set_in_region (st : G1State) (bitmap : CMBitMap)
    (top_at_mark_start top_at_rebuild_start : Z) (hr : HeapRegion) (mr : MemRegion)
    : option (Z * list RebuildEvent) :=
  if isHumongous hr then
    let humongous_obj := hr_bottom (region st (hr_humongous_start_region hr)) in
    if is_humongous_live humongous_obj bitmap top_at_mark_start top_at_rebuild_start then
      Some (if bool_decide (top_at_mark_start ≠ hr_bottom hr) then mr_byte_size mr else 0,
            [EvOopIterate humongous_obj (Some mr)])
    else Some (0, [])
  else
    let it := new_LiveObjIterator hr bitmap top_at_mark_start mr
                (block_start hr (mr_start mr)) in
    match live_objects_do (S (Z.to_nat (mr_end mr - hr_bottom hr))) (* fuel *)
            hr top_at_mark_start mr it 0 [] with
    | Some (marked_words, evs) => Some (size_t_mul marked_words HeapWordSize, evs)
    | None => None
    end.

(** How [doHeapRegion] leaves a region: the cycle aborted, the region was
    found reclaimed (its TARS is NULL), or the loop ran to its end with the
    given [total_marked_bytes]. *)
Inductive RebuildOutcome :=
| RebuildAborted
| RebuildReclaimed
| RebuildCompleted (total_marked_bytes : Z).

Record RebuildResult := mkRebuildResult {
  rr_return : bool;
  rr_outcome : RebuildOutcome;
  rr_cm : ConcurrentMark;
  rr_events : list RebuildEvent
}.

(** The [while] loop of [doHeapRegion] and the code after it. *)
Fixpoint doHeapRegion_chunks (fuel : nat) (st : G1State) (region_idx : nat)
    (hr : HeapRegion) (cur : Z) (total_marked_bytes : Z) (cm : ConcurrentMark)
    (evs : list RebuildEvent) : option RebuildResult :=
  let chunk_size_in_words := G1RebuildRemSetChunkSize / HeapWordSize in
  let top_at_mark_start := hr_next_top_at_mark_start hr in
  let finish := Some (mkRebuildResult (has_aborted cm)
                        (RebuildCompleted total_marked_bytes) cm evs) in
  match fuel with
  | O => None
  | S fuel =>
      if cur <? hr_end hr then
        match top_at_rebuild_start cm region_idx with
        | None => Some (mkRebuildResult false RebuildReclaimed cm evs)
        | Some tars =>
            let next_chunk :=
              mr_intersection (MemRegion_of (hr_bottom hr) tars)
                (mkMemRegion cur chunk_size_in_words) in
            if mr_is_empty next_chunk then finish
            else
              match rebuild_rem_set_in_region st (nextMarkBitMap cm)
                      top_at_mark_start tars hr next_chunk with
              | None => None
              | Some (marked_bytes, e) =>
                  let total_marked_bytes :=
                    if 0 <? marked_bytes
                    then size_t_add total_marked_bytes marked_bytes
                    else total_marked_bytes in
                  let cur := cur + chunk_size_in_words in
                  let cm := do_yield_check cm in
                  if has_aborted cm
                  then Some (mkRebuildResult true RebuildAborted cm (evs ++ e))
                  else doHeapRegion_chunks fuel st region_idx hr cur
                         total_marked_bytes cm (evs ++ e)
              end
        end
      else finish
  end.

Definition doHeapRegion (st : G1State) (cm : ConcurrentMark) (region_idx : nat)
    : option RebuildResult :=
  let hr := region st region_idx in
  if has_aborted cm then Some (mkRebuildResult true RebuildAborted cm [])
  else doHeapRegion_chunks (S (Z.to_nat (hr_end hr - hr_bottom hr))) (* fuel *)
         st region_idx hr (hr_bottom hr) 0 cm [].

(** The condition of the assertion that closes [doHeapRegion]. *)
Definition marked_bytes_match (hr : HeapRegion) (region_idx : nat) (res : RebuildResult) : bool :=
  match rr_outcome res with
  | RebuildCompleted total_marked_bytes =>
      match top_at_rebuild_start (rr_cm res) region_idx with
      | None => true
      | Some _ => total_marked_bytes =? hr_next_marked_bytes hr
      end
  | _ => true
  end.

End Closure.

End G1RebuildRemSetHeapRegionClosure.

(** ** A small heap for examples *)

Module Example.

(** Modelled from the spec: the hot card cache as a bounded first-in
    first-out buffer (g1HotCardCache.cpp is not among the sources).  With
    headroom the card is retained and NULL comes back; without, the oldest
    card is evicted, which is the inserted card itself when the cache holds
    nothing. *)
Definition hot_card_cache_insert (hcc : G1HotCardCache) (card_ptr : nat)
    : option nat * G1HotCardCache :=
  if (length (hcc_cards hcc) <? hcc_capacity hcc)%nat then
    (None, mkHCC (use_cache hcc) (hcc_capacity hcc) (hcc_cards hcc ++ [card_ptr]))
  else
    match hcc_cards hcc with
    | [] => (Some card_ptr, hcc)
    | oldest :: rest =>
        (Some oldest, mkHCC (use_cache hcc) (hcc_capacity hcc) (rest ++ [card_ptr]))
    end.

(** Cards of 64 words, regions of 256 words, the heap starting at address 0. *)
Definition card_words : Z := 64.
Definition grain_words : Z := 256.

Definition cset_regions (st : G1State) : list nat :=
  filter (fun r => hr_in_collection_set (region st r) = true) (seq 0 (length (regions st))).

Definition collaborators (res : IterateResult) : Collaborators :=
  mkCollaborators
    (fun c => Z.of_nat c * card_words)
    card_words
    (fun a => Z.to_nat (a / grain_words))
    hot_card_cache_insert
    (fun _ _ _ _ _ => res)
    (fun st _ => cset_regions st)
    2
    2.

Definition parsed : IterateResult := mkIterateResult true false [(1%nat, 1%nat)] [].
Definition unparsable : IterateResult := mkIterateResult false false [] [].
Definition unparsable_redirtied : IterateResult := mkIterateResult false false [] [1%nat].
Definition parsed_into_cset : IterateResult := mkIterateResult true true [] [].

(** Regions 0 and 1 are old, region 2 is old and in the collection set,
    region 3 is free.  Region 1 was allocated into during the pause: its
    [scan_top] lies below its [top]. *)
Definition region0 : HeapRegion :=
  mkHeapRegion 0 256 200 200 OldTag false empty_rem_set false 0 0 0 [].
Definition region1 : HeapRegion :=
  mkHeapRegion 256 512 500 400 OldTag false empty_rem_set false 1 256 0 [].
Definition region2 : HeapRegion :=
  mkHeapRegion 512 768 700 700 OldTag true (mkHRRS [0; 1; 3; 4; 9]%nat Unclaimed 0)
    false 2 512 0 [].
Definition region3 : HeapRegion :=
  mkHeapRegion 768 1024 768 768 FreeTag false empty_rem_set false 3 768 0 [].

Definition cards : ByteMap :=
  [clean_card; dirty_card; clean_card; clean_card;
   clean_card; dirty_card; dirty_card; dirty_card;
   clean_card; dirty_card; clean_card; clean_card;
   clean_card; dirty_card; clean_card; clean_card].

Definition state (hcc : G1HotCardCache) : G1State :=
  mkG1State cards [region0; region1; region2; region3] [] hcc
    0 [None; None] None 0 true [] [] [] [] [] false [].

Definition no_cache : G1HotCardCache := mkHCC false 0 [].
Definition cache_of_two : G1HotCardCache := mkHCC true 2 [].

End Example.

(** ** Refining the same card twice *)

(** What it means for the second of two calls in a row to return at the
    initial check: it sees a card that is not DIRTY and changes nothing. *)
Definition second_refinement_returns_at_once (env : Collaborators)
    (card_ptr worker_i : nat) (st : G1State) : Prop :=
  let st1 := refine_card_concurrently env card_ptr worker_i st in
  card_differs (byte_map st1) card_ptr dirty_card_val = true
  ∧ refine_card_concurrently env card_ptr worker_i st1 = st1.

(** The second of two calls in a row leaves the state that the first call
    left. *)
Definition second_refinement_leaves_state (env : Collaborators)
    (card_ptr worker_i : nat) (st : G1State) : Prop :=
  let st1 := refine_card_concurrently env card_ptr worker_i st in
  refine_card_concurrently env card_ptr worker_i st1 = st1.

(** ** Events of the card scan *)

(** The events [scanCard] records. *)
Definition is_card_event (e : Event) : bool :=
  match e with
  | EvSetCardClaimed _ | EvScanMemRegion _ _ _ => true
  | _ => false
  end.

(** Two states whose regions carry the same iterator states. *)
Definition iter_states_agree (st st' : G1State) : Prop :=
  length (regions st') = length (regions st)
  ∧ ∀ r, iter_state (rem_set st' r) = iter_state (rem_set st r).

(** The events of [scanRS]: card scans, code root scans and queue trims. *)
Definition is_scan_event (e : Event) : bool :=
  match e with
  | EvSetCardClaimed _ | EvScanMemRegion _ _ _
  | EvStrongCodeRoots _ | EvSetIterComplete _ | EvTrimQueuePartially => true
  | _ => false
  end.

(** The events about the iterator of region [r]: the scan of the region's
    strong code roots and the completion of its iterator. *)
Definition iterator_event (r : nat) (e : Event) : bool :=
  match e with
  | EvStrongCodeRoots r' | EvSetIterComplete r' => bool_decide (r' = r)
  | _ => false
  end.

(** The calls [scanRS(oc, code_root_cl, worker_i)] of the workers of one
    pause, taken one after the other. *)
Definition scanRS_workers (env : Collaborators) (calls : list (PushClosure * nat))
    (st : G1State) : G1State :=
  foldl (fun s '(oc, worker_i) => scanRS env oc worker_i s) st calls.

(** ** The pause *)

(** An iteration over a card's objects during the pause hands references to
    the push closure [p]. *)
Definition uses_push_closure (p : PushClosure) (e : Event) : Prop :=
  match e with
  | EvOopsOnCard _ _ _ (G1UpdateRSOrPushRefOopClosure p' _ _ _) => p' = p
  | EvOopsOnCard _ _ _ (G1ConcurrentRefineOopClosure _) => False
  | _ => True
  end.

(** A card that [refine_card_during_gc] refines in this state: it is DIRTY,
    lies in an old or humongous region outside the collection set, and
    starts below [scan_top()]. *)
Definition refined_during_gc (env : Collaborators) (card_ptr : nat) (st : G1State) : bool :=
  let start := addr_for env card_ptr in
  let r := heap_region_containing env start in
  negb (card_differs (byte_map st) card_ptr dirty_card_val)
  && is_old_or_humongous (region st r)
  && negb (hr_in_collection_set (region st r))
  && (start <? hr_scan_top (region st r)).

(** Two states with the same per-worker closure slots and the same array of
    scanned-card counts. *)
Definition bookkeeping_agree (st st' : G1State) : Prop :=
  cset_rs_update_cl st' = cset_rs_update_cl st
  ∧ cards_scanned st' = cards_scanned st.

(** The calls [oops_into_collection_set_do(oc, code_root_cl, worker_i)] of
    the workers of one pause, taken one after the other. *)
Definition pause_workers (env : Collaborators) (calls : list (PushClosure * nat))
    (st : G1State) : G1State :=
  foldl (fun s '(oc, worker_i) => oops_into_collection_set_do env oc worker_i s) st calls.

(** ** What marking leaves behind for the rebuild *)

Fixpoint total_size (objs : list oopDesc) : Z :=
  match objs with
  | [] => 0
  | o :: rest => oop_size o + total_size rest
  end.

(** [x] is the start of one of the objects laid out from [base]. *)
Fixpoint is_obj_start (objs : list oopDesc) (base x : Z) : bool :=
  match objs with
  | [] => false
  | o :: rest => (x =? base) || is_obj_start rest (base + oop_size o) x
  end.

(** [x] is the start of one of the objects or the end of the last one. *)
Fixpoint is_boundary (objs : list oopDesc) (base x : Z) : bool :=
  match objs with
  | [] => x =? base
  | o :: rest => (x =? base) || is_boundary rest (base + oop_size o) x
  end.

(** The words of the marked objects that start below [tams]. *)
Fixpoint marked_words_below (bitmap : CMBitMap) (tams : Z) (objs : list oopDesc)
    (base : Z) : Z :=
  match objs with
  | [] => 0
  | o :: rest =>
      (if (base <? tams) && isMarked bitmap base then oop_size o else 0)
      + marked_words_below bitmap tams rest (base + oop_size o)
  end.

(** Modelled from the spec: the marked bytes the mark phase records for a
    region (concurrentMark.cpp is not among the sources): the bytes below
    TAMS that belong to marked objects.  A humongous region below TAMS
    belongs to the one humongous object. *)
Definition marked_bytes_below_tams (st : G1State) (bitmap : CMBitMap) (hr : HeapRegion) : Z :=
  let tams := hr_next_top_at_mark_start hr in
  if isHumongous hr then
    if isMarked bitmap (hr_bottom (region st (hr_humongous_start_region hr)))
    then (tams - hr_bottom hr) * HeapWordSize else 0
  else marked_words_below bitmap tams (hr_objects hr) (hr_bottom hr) * HeapWordSize.

(** The state of a region the rebuild relies on.  The region's bytes fit a
    [size_t]; TAMS and TARS lie in the region in this order.  In a humongous
    region TAMS is the bottom or TARS.  In any other region the objects have
    positive sizes and reach TARS, TAMS and TARS are object boundaries, and
    the bitmap marks nothing but object starts below TAMS. *)
Definition rebuild_ready (bitmap : CMBitMap) (hr : HeapRegion) (tars : Z) : bool :=
  let tams := hr_next_top_at_mark_start hr in
  let bottom := hr_bottom hr in
  (0 <=? bottom) && (hr_end hr * HeapWordSize <? size_t_max)
  && (bottom <=? tams) && (tams <=? tars) && (tars <=? hr_end hr)
  && (if isHumongous hr then (tams =? bottom) || (tams =? tars)
      else
        forallb (fun o => 0 <? oop_size o) (hr_objects hr)
        && is_boundary (hr_objects hr) bottom tams
        && is_boundary (hr_objects hr) bottom tars
        && forallb (fun x => implb ((bottom <=? x) && (x <? tams))
                               (is_obj_start (hr_objects hr) bottom x)) bitmap).

(** No abort and no reclaim of region [region_idx]: the marking cycle is
    running, the region's TARS is [tars] and the bitmap is [bitmap]. *)
Definition rebuild_undisturbed (region_idx : nat) (tars : Z) (bitmap : CMBitMap)
    (cm : ConcurrentMark) : Prop :=
  has_aborted cm = false
  ∧ top_at_rebuild_start cm region_idx = Some tars
  ∧ nextMarkBitMap cm = bitmap.

(** The words [rebuild_rem_set_in_region] counts for the object [o] at [s]
    in the chunks below [x]: the part of an object array below [x], and the
    whole of any other object that starts below [x]. *)
Definition covered_words (o : oopDesc) (s x : Z) : Z :=
  if oop_is_objArray o then Z.max 0 (Z.min (x - s) (oop_size o))
  else if s <? x then oop_size o else 0.

Fixpoint counted_upto (bitmap : CMBitMap) (tams : Z) (objs : list oopDesc)
    (base x : Z) : Z :=
  match objs with
  | [] => 0
  | o :: rest =>
      (if (base <? tams) && isMarked bitmap base then covered_words o base x else 0)
      + counted_upto bitmap tams rest (base + oop_size o) x
  end.

(** The words one chunk adds for the objects laid out from [base], as the
    loop of [rebuild_rem_set_in_region] meets them. *)
Definition scanned_words (mr : MemRegion) (o : oopDesc) (s : Z) : Z :=
  if negb (oop_is_objArray o) || mr_contains mr (mkMemRegion s (oop_size o))
  then oop_size o
  else mr_word_size (mr_intersection mr (mkMemRegion s (oop_size o))).

Fixpoint chunk_words (bitmap : CMBitMap) (tams : Z) (mr : MemRegion)
    (objs : list oopDesc) (base : Z) : Z :=
  match objs with
  | [] => 0
  | o :: rest =>
      (if (base <? mr_end mr) && (base <? tams) && isMarked bitmap base
       then scanned_words mr o base else 0)
      + chunk_words bitmap tams mr rest (base + oop_size o)
  end.

(** The objects [suf] laid out from [a] are the objects of the region from
    [a] on: block lookups at and above [a] can be made in [suf], the sizes
    are positive, TAMS is a boundary of [suf] unless it lies below [a], the
    marks between [a] and TAMS sit on object starts, and the objects reach
    [tars]. *)
Definition laid_out (hr : HeapRegion) (bitmap : CMBitMap) (tams tars : Z)
    (a : Z) (suf : list oopDesc) : Prop :=
  (∀ x, a ≤ x →
     block_containing (hr_objects hr) (hr_bottom hr) x = block_containing suf a x)
  ∧ Forall (fun o => 0 < oop_size o) suf
  ∧ (a ≤ tams → is_boundary suf a tams = true)
  ∧ (∀ x, a ≤ x < tams → isMarked bitmap x = true → is_obj_start suf a x = true)
  ∧ tars ≤ a + total_size suf.

Module RebuildExample.

(** An old region of 32 words with five objects; the third is an object
    array of 12 words that crosses the boundary between the chunks of 8
    words.  Marking started when the region was filled up to 26 and marked
    the objects at 0 and 6; the object at 26 was allocated during marking. *)
Definition objects : list oopDesc :=
  [mkOop 4 false; mkOop 2 false; mkOop 12 true; mkOop 8 false; mkOop 4 false].

Definition old_region : HeapRegion :=
  mkHeapRegion 0 32 30 30 OldTag false empty_rem_set false 0 26 128 objects.

(** A humongous region, full, marked at its start. *)
Definition humongous_region : HeapRegion :=
  mkHeapRegion 32 64 64 64 HumongousTag false empty_rem_set false 1 64 256 [].

Definition bitmap : CMBitMap := [0; 6; 32].

Definition heap : G1State :=
  mkG1State [] [old_region; humongous_region] [] (mkHCC false 0 [])
    0 [None] None 0 true [] [] [] [] [] false [].

Definition cm : ConcurrentMark :=
  mkCM false (fun r => match r with O => Some 30 | 1%nat => Some 64 | _ => None end) bitmap.

(** Chunks of 64 bytes, and yields at which nothing happens. *)
Definition chunk_bytes : Z := 64.
Definition quiet_yield (cm : ConcurrentMark) : ConcurrentMark := cm.

End RebuildExample.

(** * More of g1RemSet.cpp *)

(** ** CountNonCleanMemRegionClosure *)

(** The counter [_n] and the start [_start_first] of the first region seen;
    NULL is address 0. *)
Record CountNonCleanMemRegionClosure := mkCountNonCleanMemRegionClosure {
  _n : Z;
  _start_first : Z
}.

Definition new_CountNonCleanMemRegionClosure : CountNonCleanMemRegionClosure :=
  mkCountNonCleanMemRegionClosure 0 0.

(** [CountNonCleanMemRegionClosure::do_MemRegion]; [is_in_g1_reserved] is
    [G1CollectedHeap::is_in_g1_reserved] and [card_size] is
    [CardTableModRefBS::card_size], in bytes. *)
Definition do_MemRegion (is_in_g1_reserved : Z -> bool) (card_size : Z)
    (mr : MemRegion) (cl : CountNonCleanMemRegionClosure)
    : CountNonCleanMemRegionClosure :=
  if is_in_g1_reserved (mr_start mr) then
    mkCountNonCleanMemRegionClosure
      (int_wrap (_n cl + int_wrap (mr_byte_size mr / card_size)))
      (if _start_first cl =? 0 then mr_start mr else _start_first cl)
  else cl.

(** ** Scrubbing *)

Definition continuesHumongous (r : HeapRegion) : bool :=
  match hr_type r with
  | HumongousContTag => true
  | _ => false
  end.

Module ScrubRSClosure.

Section Scrub.

(* HeapRegionRemSet::scrub(ctbs, region_bm, card_bm), with the card table and
   the two bitmaps as bit vectors *)
Context (hrrs_scrub : ByteMap -> list bool -> list bool
                      -> HeapRegionRemSet -> HeapRegionRemSet).

Definition doHeapRegion (region_bm card_bm : list bool) (r : nat) (st : G1State)
    : bool * G1State :=
  if negb (continuesHumongous (region st r)) then
    (false, update_rem_set (hrrs_scrub (byte_map st) region_bm card_bm) r st)
  else (false, st).

(** A walk over the given regions that stops when the closure returns true. *)
Fixpoint heap_region_iterate (region_bm card_bm : list bool) (order : list nat)
    (st : G1State) : G1State :=
  match order with
  | [] => st
  | r :: rest =>
      let '(stop, st) := doHeapRegion region_bm card_bm r st in
      if stop then st else heap_region_iterate region_bm card_bm rest st
  end.

(** [G1RemSet::scrub]: [heap_region_iterate] visits every region of the
    region table, in the order of the table. *)
Definition scrub (region_bm card_bm : list bool) (st : G1State) : G1State :=
  heap_region_iterate region_bm card_bm (seq 0 (length (regions st))) st.

(** [G1RemSet::scrub_par]: [claimed] are the regions that
    [heap_region_par_iterate_chunked] lets this worker claim with
    [claim_val], in the order it visits them. *)
Definition scrub_par (region_bm card_bm : list bool) (claimed : list nat)
    (st : G1State) : G1State :=
  heap_region_iterate region_bm card_bm claimed st.

End Scrub.

End ScrubRSClosure.

(** ** prepare_for_verify *)

Record VerifyFlags := mkVerifyFlags {
  G1HRRSFlushLogBuffersOnVerify : bool;
  VerifyBeforeGC : bool;
  VerifyAfterGC : bool;
  G1VerifyRSetsDuringFullGC : bool;
  full_collection : bool;           (* _g1->full_collection() *)
  is_at_safepoint : bool            (* SafepointSynchronize::is_at_safepoint() *)
}.

Definition set_use_cache (b : bool) (hcc : G1HotCardCache) : G1HotCardCache :=
  mkHCC b (hcc_capacity hcc) (hcc_cards hcc).

(** [HeapRegionRemSet::cleanup()] releases scratch tables of the remembered
    sets that the state above does not represent. *)
Definition cleanupHRRS (st : G1State) : G1State := st.

(** [DirtyCardQueueSet::concatenate_logs]. *)
Definition concatenate_logs (st : G1State) : G1State :=
  with_dirty_card_queues []
    (completed_buffers st ++ filter (fun l => l ≠ []) (mutator_logs st)) st.

Definition prepare_for_verify (env : Collaborators) (flags : VerifyFlags)
    (st : G1State) : G1State :=
  if G1HRRSFlushLogBuffersOnVerify flags
     && (VerifyBeforeGC flags || VerifyAfterGC flags)
     && (negb (full_collection flags) || G1VerifyRSetsDuringFullGC flags)
  then
    let st := cleanupHRRS st in
    let st := with_refine_cte_cl_concurrency false st in
    let st := if is_at_safepoint flags then concatenate_logs st else st in
    let use_hot_card_cache := use_cache (hot_card_cache st) in
    let st := with_hot_card_cache (set_use_cache false (hot_card_cache st)) st in
    let '(into_cset_dcq, st) := updateRS env [] 0 st in
    let st := with_into_cset_completed_buffers [] st in
    let st := with_hot_card_cache
                (set_use_cache use_hot_card_cache (hot_card_cache st)) st in
    (* the destructor of into_cset_dcq hands its buffer to its queue set *)
    match into_cset_dcq with
    | [] => st
    | _ => with_into_cset_completed_buffers
             (into_cset_completed_buffers st ++ [into_cset_dcq]) st
    end
  else st.

(** ** Notions for the properties of the pause *)

(** The cards the trace shows being put on the into-cset queue. *)
Fixpoint into_cset_enqueued (evs : list Event) : list nat :=
  match evs with
  | [] => []
  | EvIntoCSetEnqueue c :: rest => c :: into_cset_enqueued rest
  | _ :: rest => into_cset_enqueued rest
  end.

(** The number of [MemRegion]s the trace shows being scanned. *)
Fixpoint count_scans (evs : list Event) : nat :=
  match evs with
  | [] => O
  | EvScanMemRegion _ _ _ :: rest => S (count_scans rest)
  | _ :: rest => count_scans rest
  end.

(** The parts of the state that neither refinement during the pause nor the
    scan of the remembered sets touches. *)
Definition queues_agree (st st' : G1State) : Prop :=
  hot_card_cache st' = hot_card_cache st
  ∧ mutator_logs st' = mutator_logs st
  ∧ completed_buffers st' = completed_buffers st
  ∧ into_cset_completed_buffers st' = into_cset_completed_buffers st
  ∧ shared_dirty_card_queue st' = shared_dirty_card_queue st
  ∧ evacuation_failed st' = evacuation_failed st
  ∧ refine_cte_cl_concurrency st' = refine_cte_cl_concurrency st.

(** The region attributes that remembered-set updates leave alone. *)
Definition same_attributes (hr hr' : HeapRegion) : Prop :=
  hr_bottom hr' = hr_bottom hr ∧ hr_end hr' = hr_end hr ∧ hr_top hr' = hr_top hr
  ∧ hr_scan_top hr' = hr_scan_top hr ∧ hr_type hr' = hr_type hr
  ∧ hr_in_collection_set hr' = hr_in_collection_set hr.

Definition regions_agree (st st' : G1State) : Prop :=
  length (regions st') = length (regions st)
  ∧ ∀ r, same_attributes (region st r) (region st' r).

(** What the scan may do to the card table: a card keeps its byte, or it
    was neither DIRTY nor CLAIMED and is CLAIMED now. *)
Definition cards_claimed_only (bm bm' : ByteMap) : Prop :=
  length bm' = length bm
  ∧ ∀ i : nat, bm' !! i = bm !! i
               ∨ (bm' !! i = Some claimed_card_val
                  ∧ is_card_dirty bm i = false ∧ is_card_claimed bm i = false).

(** A scan event of a walk with the closure [oc] over the state [st]: the
    region scanned is outside the collection set and the memory is not
    empty. *)
Definition scan_event_ok (st : G1State) (oc : PushClosure) (e : Event) : Prop :=
  match e with
  | EvScanMemRegion r mr oc' =>
      hr_in_collection_set (region st r) = false ∧ mr_is_empty mr = false ∧ oc' = oc
  | EvSetCardClaimed _ | EvStrongCodeRoots _ | EvSetIterComplete _
  | EvTrimQueuePartially => True
  | _ => False
  end.

(** One or more steps of the scan, from [(cl, st)] to [(cl', st')]. *)
Definition scan_steps (cl : ScanRSClosure) (st : G1State)
    (cl' : ScanRSClosure) (st' : G1State) : Prop :=
  queues_agree st st'
  ∧ regions_agree st st'
  ∧ cards_claimed_only (byte_map st) (byte_map st')
  ∧ _oc cl' = _oc cl ∧ _block_size cl' = _block_size cl
  ∧ ∃ evs, trace st' = trace st ++ evs
           ∧ Forall (scan_event_ok st (_oc cl)) evs
           ∧ _cards_done cl'
             = Nat.iter (count_scans evs) (fun n => size_t_add n 1) (_cards_done cl).

(** The object a rebuild event is about is live for the rebuild: it is
    marked, or it lies at or above TAMS. *)
Definition iterates_live (bitmap : CMBitMap) (tams : Z) (mr : MemRegion)
    (e : RebuildEvent) : Prop :=
  match e with
  | EvOopIterate obj _ =>
      (tams ≤ obj ∨ isMarked bitmap obj = true) ∧ obj < mr_end mr
  end.

(** An iterator that has settled: it is past the chunk, or on an address
    that is marked or at or above TAMS. *)
Definition settled (bitmap : CMBitMap) (tams : Z) (mr : MemRegion)
    (it : G1RebuildRemSetHeapRegionClosure.LiveObjIterator) : Prop :=
  G1RebuildRemSetHeapRegionClosure._bitmap it = bitmap
  ∧ G1RebuildRemSetHeapRegionClosure._tams it = tams
  ∧ G1RebuildRemSetHeapRegionClosure._mr it = mr
  ∧ (mr_end mr ≤ G1RebuildRemSetHeapRegionClosure._current it
     ∨ tams ≤ G1RebuildRemSetHeapRegionClosure._current it
     ∨ isMarked bitmap (G1RebuildRemSetHeapRegionClosure._current it) = true).

(** No scan of the card is owed in this state: the card's region is in the
    collection set, the card is DIRTY (and left to [updateRS]), it has no
    part in [[bottom(), scan_top())], or it is CLAIMED. *)
Definition no_scan_owed (env : Collaborators) (card_index : nat) (st : G1State) : bool :=
  let card_region := heap_region_containing env (addr_for env card_index) in
  hr_in_collection_set (region st card_region)
  || is_card_dirty (byte_map st) card_index
  || mr_is_empty
       (mr_intersection
          (MemRegion_of (hr_bottom (region st card_region))
             (hr_scan_top (region st card_region)))
          (mkMemRegion (addr_for env card_index) (card_size_in_words env)))
  || is_card_claimed (byte_map st) card_index.

(** * Properties *)

(** ** Frame lemmas *)

Lemma update_rem_set_frame f r st :
  byte_map (update_rem_set f r st) = byte_map st
  ∧ trace (update_rem_set f r st) = trace st
  ∧ conc_refine_cards (update_rem_set f r st) = conc_refine_cards st
  ∧ shared_dirty_card_queue (update_rem_set f r st) = shared_dirty_card_queue st
  ∧ cset_rs_update_cl (update_rem_set f r st) = cset_rs_update_cl st
  ∧ hot_card_cache (update_rem_set f r st) = hot_card_cache st.
Proof. unfold update_rem_set. destruct (regions st !! r); simpl; auto 10. Qed.

Lemma add_references_frame ins st :
  byte_map (add_references ins st) = byte_map st
  ∧ trace (add_references ins st) = trace st
  ∧ conc_refine_cards (add_references ins st) = conc_refine_cards st
  ∧ shared_dirty_card_queue (add_references ins st) = shared_dirty_card_queue st
  ∧ cset_rs_update_cl (add_references ins st) = cset_rs_update_cl st
  ∧ hot_card_cache (add_references ins st) = hot_card_cache st.
Proof.
  unfold add_references. revert st.
  induction ins as [|[to card] ins IH]; intros st; simpl; [auto 10|].
  destruct (IH (update_rem_set (hrrs_add card) to st)) as (-> & -> & -> & -> & -> & ->).
  apply update_rem_set_frame.
Qed.

Lemma iterate_card_trace env fy r mr cl st :
  trace (iterate_card env fy r mr cl st).2 = trace st ++ [EvOopsOnCard fy r mr cl].
Proof.
  unfold iterate_card, mutators_dirty. simpl.
  destruct (add_references_frame
              (rs_insertions (oops_on_card_seq_iterate_careful env fy r mr cl st))
              (emit (EvOopsOnCard fy r mr cl) st)) as (_ & -> & _).
  reflexivity.
Qed.

Lemma iterate_card_result env fy r mr cl st :
  (iterate_card env fy r mr cl st).1 = oops_on_card_seq_iterate_careful env fy r mr cl st.
Proof. reflexivity. Qed.

Lemma iterate_card_frame env fy r mr cl st :
  conc_refine_cards (iterate_card env fy r mr cl st).2 = conc_refine_cards st
  ∧ shared_dirty_card_queue (iterate_card env fy r mr cl st).2 = shared_dirty_card_queue st
  ∧ cset_rs_update_cl (iterate_card env fy r mr cl st).2 = cset_rs_update_cl st
  ∧ hot_card_cache (iterate_card env fy r mr cl st).2 = hot_card_cache st.
Proof.
  unfold iterate_card, mutators_dirty. simpl.
  destruct (add_references_frame
              (rs_insertions (oops_on_card_seq_iterate_careful env fy r mr cl st))
              (emit (EvOopsOnCard fy r mr cl) st)) as (_ & _ & -> & -> & -> & ->).
  auto.
Qed.

(** The filters never store to the card table and record nothing. *)
Lemma refine_card_concurrently_filter_frame env card_ptr st :
  let st1 := (refine_card_concurrently_filter env card_ptr st).2 in
  byte_map st1 = byte_map st ∧ trace st1 = trace st ∧ regions st1 = regions st
  ∧ conc_refine_cards st1 = conc_refine_cards st
  ∧ shared_dirty_card_queue st1 = shared_dirty_card_queue st.
Proof.
  unfold refine_card_concurrently_filter.
  repeat (case_match; simpl; auto 10).
Qed.

(** A card that passes the filters was DIRTY on entry when it is the card
    the call was made for. *)
Lemma refine_card_concurrently_filter_dirty env card_ptr st c start r st1 :
  refine_card_concurrently_filter env card_ptr st = (Some (c, start, r), st1) →
  byte_map st !! card_ptr = Some dirty_card_val.
Proof.
  unfold refine_card_concurrently_filter, card_differs.
  destruct (byte_map st !! card_ptr) as [b|] eqn:Hb; [|discriminate].
  destruct (bool_decide (b = dirty_card_val)) eqn:Hd; simpl; [|discriminate].
  apply bool_decide_eq_true in Hd. subst. reflexivity.
Qed.

(** ** Concurrent refinement: clean, fence, iterate *)

(** The events of the part of [refine_card_concurrently] behind the filters,
    when the trimmed region is not empty. *)
Lemma refine_card_concurrently_trimmed_trace env c start r w st :
  start < hr_top (region st r) →
  let mr := MemRegion_of start (MIN2 (hr_top (region st r)) (start + card_size_in_words env)) in
  ∃ tail,
    trace (refine_card_concurrently_trimmed env c start r w st)
    = trace st ++ ([EvCardStore c clean_card_val; EvFence;
                    EvOopsOnCard false r mr (G1ConcurrentRefineOopClosure w)] ++ tail)
    ∧ (tail = [] ∨ tail = [EvCardStore c dirty_card_val; EvLock; EvSharedEnqueue c; EvUnlock]).
Proof.
  intros Hlt mr. unfold refine_card_concurrently_trimmed.
  destruct (Z.leb_spec (hr_top (region st r)) start) as [Hle|_]; [lia|].
  fold mr.
  set (st2 := emit EvFence (store_card c clean_card_val st)).
  pose proof (iterate_card_trace env false r mr (G1ConcurrentRefineOopClosure w) st2) as Htr.
  destruct (iterate_card env false r mr (G1ConcurrentRefineOopClosure w) st2) as [res st3].
  simpl in Htr.
  destruct (card_processed res); simpl.
  - exists []. split; [|by left]. rewrite Htr. subst st2. simpl.
    rewrite <- !app_assoc. reflexivity.
  - destruct (card_differs (byte_map st3) c dirty_card_val); simpl.
    + eexists. split; [|by right]. rewrite Htr. subst st2. simpl.
      rewrite <- !app_assoc. reflexivity.
    + exists []. split; [|by left]. rewrite Htr. subst st2. simpl.
      rewrite <- !app_assoc. reflexivity.
Qed.



(** ** Concurrent refinement: the redirty path *)

(** C5: when the iteration reports the card unparsable, the card is
    redirtied and enqueued once: a card whose byte is still CLEAN is stored
    DIRTY and then appended to the shared dirty card queue between taking
    and releasing the shared queue lock; a card that a mutator dirtied again
    in the meantime is neither stored nor enqueued.  The counter of refined
    cards stays as it was. *)
Theorem refine_card_concurrently_unparsable env card_ptr worker_i st c start r st1 :
  refine_card_concurrently_filter env card_ptr st = (Some (c, start, r), st1) →
  start < hr_top (region st1 r) →
  let mr := MemRegion_of start
              (MIN2 (hr_top (region st1 r)) (start + card_size_in_words env)) in
  let scanned := iterate_card env false r mr (G1ConcurrentRefineOopClosure worker_i)
                   (emit EvFence (store_card c clean_card_val st1)) in
  card_processed scanned.1 = false →
  let st' := refine_card_concurrently env card_ptr worker_i st in
  (byte_map scanned.2 !! c = Some clean_card_val →
     byte_map st' = <[c := dirty_card_val]> (byte_map scanned.2)
     ∧ byte_map st' !! c = Some dirty_card_val
     ∧ shared_dirty_card_queue st' = shared_dirty_card_queue st ++ [c]
     ∧ trace st' = trace scanned.2
                   ++ [EvCardStore c dirty_card_val; EvLock; EvSharedEnqueue c; EvUnlock])
  ∧ (byte_map scanned.2 !! c = Some dirty_card_val → st' = scanned.2)
  ∧ shared_dirty_card_queue scanned.2 = shared_dirty_card_queue st
  ∧ conc_refine_cards st' = conc_refine_cards st.
Proof.
  intros Hf Hlt mr scanned Hun st'.
  pose proof (refine_card_concurrently_filter_frame env card_ptr st) as Hfr.
  rewrite Hf in Hfr. simpl in Hfr. destruct Hfr as (_ & _ & _ & Hcnt & Hq).
  assert (conc_refine_cards scanned.2 = conc_refine_cards st1
          ∧ shared_dirty_card_queue scanned.2 = shared_dirty_card_queue st1)
    as (Hc2 & Hq2).
  { destruct (iterate_card_frame env false r mr (G1ConcurrentRefineOopClosure worker_i)
                (emit EvFence (store_card c clean_card_val st1))) as (H1 & H2 & _).
    split; [exact H1|exact H2]. }
  assert (st' = if card_differs (byte_map scanned.2) c dirty_card_val
                then emit EvUnlock
                       (emit (EvSharedEnqueue c)
                          (with_shared_dirty_card_queue
                             (shared_dirty_card_queue
                                (store_card c dirty_card_val scanned.2) ++ [c])
                             (emit EvLock (store_card c dirty_card_val scanned.2))))
                else scanned.2) as Hst'.
  { subst st'. unfold refine_card_concurrently. rewrite Hf.
    unfold refine_card_concurrently_trimmed.
    destruct (Z.leb_spec (hr_top (region st1 r)) start) as [Hle|_]; [lia|].
    fold mr. fold scanned. destruct scanned as [res st3]. simpl in *.
    rewrite Hun. simpl. reflexivity. }
  clearbody st' scanned. subst st'. unfold card_differs.
  split; [|split; [|split]].
  - intros Hclean. rewrite Hclean. simpl. split; [reflexivity|].
    split; [apply list_lookup_insert_eq; by eapply lookup_lt_Some|].
    split; [congruence|]. rewrite <- !app_assoc. reflexivity.
  - intros Hdirty. rewrite Hdirty. simpl. reflexivity.
  - congruence.
  - destruct (byte_map scanned.2 !! c) as [b|]; simpl; [|congruence].
    destruct (bool_decide (b = dirty_card_val)); simpl; congruence.
Qed.

(** Card 1 of the example heap, unparsable and not dirtied again. *)
Lemma refine_card_concurrently_unparsable_witness :
  let env := Example.collaborators Example.unparsable in
  let st := Example.state Example.no_cache in
  let st' := refine_card_concurrently env 1 0 st in
  byte_map st' !! 1%nat = Some dirty_card_val
  ∧ shared_dirty_card_queue st' = [1%nat]
  ∧ conc_refine_cards st' = 0.
Proof.
  intros env st st'.
  destruct (refine_card_concurrently_unparsable env 1 0 st 1 64 0 st)
    as (Hclean & _ & _ & Hcnt).
  - reflexivity.
  - simpl. lia.
  - reflexivity.
  - destruct Hclean as (_ & Hd & Hq & _); [reflexivity|].
    split; [exact Hd|]. split; [exact Hq|exact Hcnt].
Defined.

(** The same card when a mutator dirtied it again during the iteration:
    no store, no enqueue. *)
Example redirtied_card_is_not_enqueued :
  let env := Example.collaborators Example.unparsable_redirtied in
  let st' := refine_card_concurrently env 1 0 (Example.state Example.no_cache) in
  trace st' = [EvCardStore 1 clean_card_val; EvFence;
               EvOopsOnCard false 0 (mkMemRegion 64 64) (G1ConcurrentRefineOopClosure 0)]
  ∧ shared_dirty_card_queue st' = []
  ∧ byte_map st' !! 1%nat = Some dirty_card_val.
Proof. repeat split. Qed.

(** ** The counter of refined cards *)

Lemma size_t_add_1_neq n : size_t_add n 1 ≠ n.
Proof.
  unfold size_t_add, size_t_wrap, size_t_max. intros H.
  assert (Hm : (n + 1) mod 2 ^ 64 = n mod 2 ^ 64).
  { rewrite <- H at 2. rewrite Z.mod_mod by lia. reflexivity. }
  pose proof (Z.div_mod (n + 1) (2 ^ 64) ltac:(lia)).
  pose proof (Z.div_mod n (2 ^ 64) ltac:(lia)).
  lia.
Qed.

Lemma refine_card_during_gc_cases env card_ptr worker_i st :
  let start := addr_for env card_ptr in
  let r := heap_region_containing env start in
  let passes :=
    negb (card_differs (byte_map st) card_ptr dirty_card_val)
    && is_old_or_humongous (region st r)
    && negb (hr_in_collection_set (region st r))
    && (start <? hr_scan_top (region st r)) in
  let mr := MemRegion_of start
              (MIN2 (hr_scan_top (region st r)) (start + card_size_in_words env)) in
  let cl := G1UpdateRSOrPushRefOopClosure
              (default None (cset_rs_update_cl st !! worker_i)) true worker_i r in
  let scanned := iterate_card env true r mr cl (store_card card_ptr clean_card_val st) in
  refine_card_during_gc env card_ptr worker_i st
  = if passes
    then (has_refs_into_cset scanned.1,
          with_conc_refine_cards (size_t_add (conc_refine_cards scanned.2) 1) scanned.2)
    else (false, st).
Proof.
  intros start r passes mr cl scanned. subst passes. unfold refine_card_during_gc.
  fold start. fold r.
  destruct (card_differs (byte_map st) card_ptr dirty_card_val); simpl; [reflexivity|].
  destruct (is_old_or_humongous (region st r)); simpl; [|reflexivity].
  destruct (hr_in_collection_set (region st r)); simpl; [reflexivity|].
  destruct (Z.leb_spec (hr_scan_top (region st r)) start) as [Hle|Hlt];
    destruct (Z.ltb_spec start (hr_scan_top (region st r))) as [Hlt'|Hle']; try lia;
    [reflexivity|].
  fold mr. unfold store_card at 1. simpl. fold cl.
  change (iterate_card env true r mr cl _) with scanned.
  destruct scanned as [res st3]. reflexivity.
Qed.

Lemma refined_during_gc_cases env card_ptr worker_i st :
  let start := addr_for env card_ptr in
  let r := heap_region_containing env start in
  let mr := MemRegion_of start
              (MIN2 (hr_scan_top (region st r)) (start + card_size_in_words env)) in
  let cl := G1UpdateRSOrPushRefOopClosure
              (default None (cset_rs_update_cl st !! worker_i)) true worker_i r in
  let scanned := iterate_card env true r mr cl (store_card card_ptr clean_card_val st) in
  refine_card_during_gc env card_ptr worker_i st
  = if refined_during_gc env card_ptr st
    then (has_refs_into_cset scanned.1,
          with_conc_refine_cards (size_t_add (conc_refine_cards scanned.2) 1) scanned.2)
    else (false, st).
Proof. apply refine_card_during_gc_cases. Qed.

(** C10: [refine_card_concurrently] increments [_conc_refine_cards] when,
    and only when, the iteration over the card's objects succeeded: not
    when a filter rejects the card, not when the trimmed region is empty,
    not on the redirty path.  [refine_card_during_gc] either returns false
    with the state untouched or reaches the iteration and then increments
    the counter, whatever the iteration says about references into the
    collection set. *)
Theorem conc_refine_cards_accounting env card_ptr worker_i st :
  (∀ st1, refine_card_concurrently_filter env card_ptr st = (None, st1) →
     conc_refine_cards (refine_card_concurrently env card_ptr worker_i st)
     = conc_refine_cards st)
  ∧ (∀ c start r st1,
       refine_card_concurrently_filter env card_ptr st = (Some (c, start, r), st1) →
       hr_top (region st1 r) ≤ start →
       conc_refine_cards (refine_card_concurrently env card_ptr worker_i st)
       = conc_refine_cards st)
  ∧ (∀ c start r st1,
       refine_card_concurrently_filter env card_ptr st = (Some (c, start, r), st1) →
       start < hr_top (region st1 r) →
       let mr := MemRegion_of start
                   (MIN2 (hr_top (region st1 r)) (start + card_size_in_words env)) in
       let res := oops_on_card_seq_iterate_careful env false r mr
                    (G1ConcurrentRefineOopClosure worker_i)
                    (emit EvFence (store_card c clean_card_val st1)) in
       conc_refine_cards (refine_card_concurrently env card_ptr worker_i st)
       = (if card_processed res then size_t_add (conc_refine_cards st) 1
          else conc_refine_cards st)
       ∧ (conc_refine_cards (refine_card_concurrently env card_ptr worker_i st)
          ≠ conc_refine_cards st ↔ card_processed res = true))
  ∧ (let '(into_cset, st') := refine_card_during_gc env card_ptr worker_i st in
     (into_cset = false ∧ st' = st)
     ∨ (∃ r mr cl,
          trace st' = trace st ++ [EvCardStore card_ptr clean_card_val;
                                   EvOopsOnCard true r mr cl]
          ∧ into_cset = has_refs_into_cset
                          (oops_on_card_seq_iterate_careful env true r mr cl
                             (store_card card_ptr clean_card_val st))
          ∧ conc_refine_cards st' = size_t_add (conc_refine_cards st) 1)).
Proof.
  pose proof (refine_card_concurrently_filter_frame env card_ptr st) as Hfr.
  split; [|split; [|split]].
  - intros st1 Hf. unfold refine_card_concurrently. rewrite Hf in *. simpl in *. tauto.
  - intros c start r st1 Hf Hle. unfold refine_card_concurrently. rewrite Hf in *.
    simpl in Hfr. unfold refine_card_concurrently_trimmed.
    destruct (Z.leb_spec (hr_top (region st1 r)) start); [tauto|lia].
  - intros c start r st1 Hf Hlt mr res. unfold refine_card_concurrently.
    rewrite Hf in *. simpl in Hfr. destruct Hfr as (_ & _ & _ & Hcnt & _).
    unfold refine_card_concurrently_trimmed.
    destruct (Z.leb_spec (hr_top (region st1 r)) start) as [Hle|_]; [lia|].
    fold mr.
    destruct (iterate_card_frame env false r mr (G1ConcurrentRefineOopClosure worker_i)
                (emit EvFence (store_card c clean_card_val st1))) as (Hc2 & _).
    pose proof (iterate_card_result env false r mr (G1ConcurrentRefineOopClosure worker_i)
                  (emit EvFence (store_card c clean_card_val st1))) as Hres.
    fold res in Hres.
    destruct (iterate_card env false r mr (G1ConcurrentRefineOopClosure worker_i)
                (emit EvFence (store_card c clean_card_val st1))) as [res' st3].
    simpl in Hc2, Hres. subst res'.
    unfold store_card in Hc2. simpl in Hc2.
    destruct (card_processed res); simpl.
    + rewrite Hc2, Hcnt. split; [reflexivity|].
      split; [reflexivity|]. intros _. apply size_t_add_1_neq.
    + destruct (card_differs (byte_map st3) c dirty_card_val); simpl;
        (split; [congruence|split; [congruence|discriminate]]).
  - rewrite refine_card_during_gc_cases.
    set (start := addr_for env card_ptr).
    set (r := heap_region_containing env start).
    set (mr := MemRegion_of start _).
    set (cl := G1UpdateRSOrPushRefOopClosure _ _ _ _).
    match goal with |- context [if ?b then _ else _] => destruct b end.
    + right. exists r, mr, cl.
      pose proof (iterate_card_result env true r mr cl
                    (store_card card_ptr clean_card_val st)) as Hres.
      pose proof (iterate_card_trace env true r mr cl
                    (store_card card_ptr clean_card_val st)) as Htr.
      destruct (iterate_card_frame env true r mr cl
                  (store_card card_ptr clean_card_val st)) as (Hcnt & _).
      destruct (iterate_card env true r mr cl (store_card card_ptr clean_card_val st))
        as [res st3].
      unfold store_card in Htr, Hcnt. simpl in *. subst res.
      rewrite Htr, Hcnt, <- app_assoc. auto.
    + left. auto.
Qed.

(** Card 1 of the example heap, parsed: the counter goes from 0 to 1. *)
Lemma conc_refine_cards_accounting_witness :
  conc_refine_cards
    (refine_card_concurrently (Example.collaborators Example.parsed) 1 0
       (Example.state Example.no_cache)) = 1.
Proof.
  destruct (conc_refine_cards_accounting (Example.collaborators Example.parsed) 1 0
              (Example.state Example.no_cache)) as (_ & _ & H & _).
  destruct (H 1%nat 64 0%nat (Example.state Example.no_cache)) as [Heq _].
  - reflexivity.
  - simpl. lia.
  - exact Heq.
Defined.

(** ** Refinement during a pause and the collection set *)

(** C2: for a card whose region is in the collection set,
    [refine_card_during_gc] returns false and leaves the whole state, the
    remembered sets included, as it was.  Outside the collection set the
    region is trimmed at [scan_top()], not at [top()]: when [scan_top()] is
    at or below the card's start the call returns false with the state as it
    was, and otherwise the objects are iterated up to
    [MIN2(scan_top(), end)]. *)
Theorem refine_card_during_gc_collection_set env card_ptr worker_i st :
  let start := addr_for env card_ptr in
  let r := heap_region_containing env start in
  (hr_in_collection_set (region st r) = true →
     refine_card_during_gc env card_ptr worker_i st = (false, st))
  ∧ (hr_scan_top (region st r) ≤ start →
     refine_card_during_gc env card_ptr worker_i st = (false, st))
  ∧ (byte_map st !! card_ptr = Some dirty_card_val →
     is_old_or_humongous (region st r) = true →
     hr_in_collection_set (region st r) = false →
     start < hr_scan_top (region st r) →
     trace (refine_card_during_gc env card_ptr worker_i st).2
     = trace st
       ++ [EvCardStore card_ptr clean_card_val;
           EvOopsOnCard true r
             (MemRegion_of start
                (MIN2 (hr_scan_top (region st r)) (start + card_size_in_words env)))
             (G1UpdateRSOrPushRefOopClosure
                (default None (cset_rs_update_cl st !! worker_i)) true worker_i r)]).
Proof.
  intros start r. rewrite refine_card_during_gc_cases. fold start. fold r.
  split; [|split].
  - intros ->. rewrite !andb_false_r. reflexivity.
  - intros Hle. destruct (Z.ltb_spec start (hr_scan_top (region st r))); [lia|].
    rewrite !andb_false_r. reflexivity.
  - intros Hd Hold Hcs Hlt. unfold card_differs. rewrite Hd, Hold, Hcs.
    destruct (Z.ltb_spec start (hr_scan_top (region st r))); [|lia].
    cbn [negb bool_decide andb snd]. rewrite bool_decide_eq_true_2 by reflexivity.
    cbn [negb andb snd]. unfold with_conc_refine_cards. cbn [trace].
    rewrite iterate_card_trace. unfold store_card. simpl.
    rewrite <- app_assoc. reflexivity.
Qed.

(** Card 9 of the example heap lies in region 2, old and in the collection
    set. *)
Lemma refine_card_during_gc_collection_set_witness :
  refine_card_during_gc (Example.collaborators Example.parsed_into_cset) 9 0
    (Example.state Example.no_cache)
  = (false, Example.state Example.no_cache).
Proof.
  destruct (refine_card_during_gc_collection_set
              (Example.collaborators Example.parsed_into_cset) 9 0
              (Example.state Example.no_cache)) as (H & _).
  apply H. reflexivity.
Defined.

(** Cards 6 and 7 of the example heap lie in region 1, whose [scan_top] is
    400 and whose [top] is 500.  Card 6 covers [[384, 448)] and is iterated
    up to 400; card 7 starts at 448 and is left alone. *)
Example refine_card_during_gc_scan_top :
  let env := Example.collaborators Example.parsed_into_cset in
  let st := Example.state Example.no_cache in
  trace (refine_card_during_gc env 6 0 st).2
  = [EvCardStore 6 clean_card_val;
     EvOopsOnCard true 1 (MemRegion_of 384 400)
       (G1UpdateRSOrPushRefOopClosure None true 0 1)]
  ∧ refine_card_during_gc env 7 0 st = (false, st).
Proof. split; reflexivity. Qed.

(** ** Refining the same card twice *)

Lemma mutators_dirty_other (cards : list nat) (bm : ByteMap) (c : nat) :
  c ∉ cards →
  foldl (fun bm c => <[c := dirty_card_val]> bm) bm cards !! c = bm !! c.
Proof.
  revert bm. induction cards as [|c' cards IH]; intros bm Hnin; simpl; [reflexivity|].
  rewrite IH by (intros Hin; apply Hnin; by right).
  apply list_lookup_insert_ne. intros ->. apply Hnin. by left.
Qed.

(** C9 as stated fails.  Card 13 of the example heap is dirty and lies in a
    free region: the first call returns at the region check and leaves it
    DIRTY, so the second call does not see a card that is not DIRTY.  With a
    hot card cache of two entries, the first call on card 1 parks the card
    in the cache, still DIRTY, and the second call parks it once more. *)
Lemma second_refinement_counterexample :
  ¬ second_refinement_returns_at_once (Example.collaborators Example.parsed) 13 0
      (Example.state Example.no_cache)
  ∧ ¬ second_refinement_returns_at_once (Example.collaborators Example.parsed) 1 0
        (Example.state Example.cache_of_two).
Proof. split; intros [H _]; vm_compute in H; discriminate. Qed.

Example second_refinement_changes_hot_card_cache :
  let env := Example.collaborators Example.parsed in
  let st1 := refine_card_concurrently env 1 0 (Example.state Example.cache_of_two) in
  hcc_cards (hot_card_cache st1) = [1%nat]
  ∧ hcc_cards (hot_card_cache (refine_card_concurrently env 1 0 st1)) = [1%nat; 1%nat].
Proof. split; reflexivity. Qed.

(** C9 (amended): a call on a card that is not DIRTY, or on a card of a
    region that is neither old nor humongous, returns the state as it was,
    and so does, when the hot card cache is not in use, a call on a card
    that starts at or above [top()].  When the first call cleaned the card
    it was made for, the iteration succeeded and no mutator dirtied the card
    meanwhile, the card is not DIRTY afterwards and the second call returns
    at the initial check.  Hence, with the hot card cache not in use, the
    second of two calls leaves the state of the first, unless the first
    call could not parse the card or a mutator dirtied it meanwhile. *)
Theorem refine_card_concurrently_twice env card_ptr worker_i st :
  let start := addr_for env card_ptr in
  let r := heap_region_containing env start in
  let mr := MemRegion_of start (MIN2 (hr_top (region st r)) (start + card_size_in_words env)) in
  let res := oops_on_card_seq_iterate_careful env false r mr
               (G1ConcurrentRefineOopClosure worker_i)
               (emit EvFence (store_card card_ptr clean_card_val st)) in
  (∀ st0, card_differs (byte_map st0) card_ptr dirty_card_val = true →
     refine_card_concurrently env card_ptr worker_i st0 = st0)
  ∧ (card_differs (byte_map st) card_ptr dirty_card_val = true →
     second_refinement_returns_at_once env card_ptr worker_i st)
  ∧ (is_old_or_humongous (region st r) = false →
     refine_card_concurrently env card_ptr worker_i st = st)
  ∧ (use_cache (hot_card_cache st) = false → hr_top (region st r) ≤ start →
     refine_card_concurrently env card_ptr worker_i st = st)
  ∧ (∀ start r st1,
       refine_card_concurrently_filter env card_ptr st = (Some (card_ptr, start, r), st1) →
       start < hr_top (region st1 r) →
       let mr := MemRegion_of start
                   (MIN2 (hr_top (region st1 r)) (start + card_size_in_words env)) in
       let res := oops_on_card_seq_iterate_careful env false r mr
                    (G1ConcurrentRefineOopClosure worker_i)
                    (emit EvFence (store_card card_ptr clean_card_val st1)) in
       card_processed res = true →
       card_ptr ∉ mutator_dirtied res →
       byte_map (refine_card_concurrently env card_ptr worker_i st) !! card_ptr
       = Some clean_card_val
       ∧ second_refinement_returns_at_once env card_ptr worker_i st)
  ∧ (use_cache (hot_card_cache st) = false →
     (card_differs (byte_map st) card_ptr dirty_card_val = false →
      is_old_or_humongous (region st r) = true →
      start < hr_top (region st r) →
      card_processed res = true ∧ card_ptr ∉ mutator_dirtied res) →
     second_refinement_leaves_state env card_ptr worker_i st).
Proof.
  intros start r mr res.
  assert (Hnop : ∀ st0, card_differs (byte_map st0) card_ptr dirty_card_val = true →
                   refine_card_concurrently env card_ptr worker_i st0 = st0).
  { intros st0 H. unfold refine_card_concurrently, refine_card_concurrently_filter.
    rewrite H. reflexivity. }
  assert (Hregion : is_old_or_humongous (region st r) = false →
                    refine_card_concurrently env card_ptr worker_i st = st).
  { intros H. unfold refine_card_concurrently, refine_card_concurrently_filter.
    fold start. fold r. rewrite H.
    by destruct (card_differs (byte_map st) card_ptr dirty_card_val). }
  assert (Hfilter : use_cache (hot_card_cache st) = false →
                    card_differs (byte_map st) card_ptr dirty_card_val = false →
                    is_old_or_humongous (region st r) = true →
                    refine_card_concurrently_filter env card_ptr st
                    = (Some (card_ptr, start, r), st)).
  { intros Hc Hd Ho. unfold refine_card_concurrently_filter.
    fold start. fold r. by rewrite Hd, Ho, Hc. }
  assert (Hstale : use_cache (hot_card_cache st) = false → hr_top (region st r) ≤ start →
                   refine_card_concurrently env card_ptr worker_i st = st).
  { intros Hc Hle.
    destruct (card_differs (byte_map st) card_ptr dirty_card_val) eqn:Hd; [by apply Hnop|].
    destruct (is_old_or_humongous (region st r)) eqn:Ho; [|by apply Hregion].
    unfold refine_card_concurrently. rewrite (Hfilter Hc eq_refl eq_refl).
    unfold refine_card_concurrently_trimmed.
    destruct (Z.leb_spec (hr_top (region st r)) start); [reflexivity|lia]. }
  assert (Hcleaned : ∀ start r st1,
       refine_card_concurrently_filter env card_ptr st = (Some (card_ptr, start, r), st1) →
       start < hr_top (region st1 r) →
       let mr := MemRegion_of start
                   (MIN2 (hr_top (region st1 r)) (start + card_size_in_words env)) in
       let res := oops_on_card_seq_iterate_careful env false r mr
                    (G1ConcurrentRefineOopClosure worker_i)
                    (emit EvFence (store_card card_ptr clean_card_val st1)) in
       card_processed res = true →
       card_ptr ∉ mutator_dirtied res →
       byte_map (refine_card_concurrently env card_ptr worker_i st) !! card_ptr
       = Some clean_card_val
       ∧ second_refinement_returns_at_once env card_ptr worker_i st).
  { clear start r mr res Hregion Hfilter Hstale.
    intros start r st1 Hf Hlt mr res Hp Hnd.
    pose proof (refine_card_concurrently_filter_dirty env _ _ _ _ _ _ Hf) as Hd.
    pose proof (refine_card_concurrently_filter_frame env card_ptr st) as Hfr.
    rewrite Hf in Hfr. simpl in Hfr. destruct Hfr as (Hbm & _).
    assert (Hclean : byte_map (refine_card_concurrently env card_ptr worker_i st) !! card_ptr
                     = Some clean_card_val).
    { unfold refine_card_concurrently. rewrite Hf.
      unfold refine_card_concurrently_trimmed.
      destruct (Z.leb_spec (hr_top (region st1 r)) start) as [Hle|_]; [lia|].
      fold mr. unfold iterate_card. fold res. rewrite Hp. simpl.
      rewrite mutators_dirty_other by exact Hnd.
      destruct (add_references_frame (rs_insertions res)
                  (emit (EvOopsOnCard false r mr (G1ConcurrentRefineOopClosure worker_i))
                     (emit EvFence (store_card card_ptr clean_card_val st1))))
        as (-> & _).
      simpl. apply list_lookup_insert_eq. rewrite Hbm. by eapply lookup_lt_Some. }
    split; [exact Hclean|].
    unfold second_refinement_returns_at_once.
    assert (Hdiff : card_differs
                      (byte_map (refine_card_concurrently env card_ptr worker_i st))
                      card_ptr dirty_card_val = true).
    { unfold card_differs. rewrite Hclean. reflexivity. }
    split; [exact Hdiff|]. apply Hnop, Hdiff. }
  split; [exact Hnop|]. split; [|split; [exact Hregion|split; [exact Hstale|split;
    [exact Hcleaned|]]]].
  - intros Hd. unfold second_refinement_returns_at_once. cbv zeta.
    rewrite (Hnop st Hd). split; [exact Hd|by apply Hnop].
  - intros Hc Hiter. unfold second_refinement_leaves_state. cbv zeta.
    destruct (card_differs (byte_map st) card_ptr dirty_card_val) eqn:Hd.
    { rewrite (Hnop st Hd). by apply Hnop. }
    destruct (is_old_or_humongous (region st r)) eqn:Ho;
      [|rewrite (Hregion eq_refl); by apply Hregion].
    destruct (Z.le_gt_cases (hr_top (region st r)) start) as [Hle|Hlt].
    { rewrite (Hstale Hc Hle). by apply Hstale. }
    destruct (Hiter eq_refl eq_refl ltac:(lia)) as [Hp Hnd].
    destruct (Hcleaned start r st (Hfilter Hc eq_refl eq_refl) ltac:(lia) Hp Hnd)
      as [_ [_ H]].
    exact H.
Qed.

(** Card 1 of the example heap, parsed, without a hot card cache: the second
    call returns at the initial check.  Card 13 lies in a free region: both
    calls return at the region check. *)
Lemma refine_card_concurrently_twice_witness :
  second_refinement_returns_at_once (Example.collaborators Example.parsed) 1 0
    (Example.state Example.no_cache)
  ∧ second_refinement_leaves_state (Example.collaborators Example.parsed) 13 0
      (Example.state Example.no_cache).
Proof.
  split.
  - destruct (refine_card_concurrently_twice (Example.collaborators Example.parsed) 1 0
                (Example.state Example.no_cache)) as (_ & _ & _ & _ & H & _).
    destruct (H 64 0%nat (Example.state Example.no_cache)) as [_ H2].
    + reflexivity.
    + simpl. lia.
    + reflexivity.
    + simpl. apply not_elem_of_nil.
    + exact H2.
  - destruct (refine_card_concurrently_twice (Example.collaborators Example.parsed) 13 0
                (Example.state Example.no_cache)) as (_ & _ & _ & _ & _ & H).
    apply H.
    + reflexivity.
    + intros _ Hold. vm_compute in Hold. discriminate.
Defined.

(** ** Scanning one card of a remembered set *)

Lemma region_push_dirty_cards_region r st r' :
  let hr := region st r' in
  let hr' := region (push_dirty_cards_region r st) r' in
  hr_bottom hr' = hr_bottom hr ∧ hr_scan_top hr' = hr_scan_top hr
  ∧ hr_in_collection_set hr' = hr_in_collection_set hr
  ∧ hr_rem_set hr' = hr_rem_set hr.
Proof.
  unfold push_dirty_cards_region, region.
  destruct (regions st !! r) as [hr0|] eqn:Hr; [|auto].
  destruct (hr_on_dirty_cards_region_list hr0); [auto|]. simpl.
  destruct (decide (r = r')) as [->|Hne].
  - rewrite list_lookup_insert_eq by (by eapply lookup_lt_Some).
    rewrite Hr. simpl. auto.
  - rewrite list_lookup_insert_ne by exact Hne. auto.
Qed.

Lemma push_dirty_cards_region_frame r st :
  byte_map (push_dirty_cards_region r st) = byte_map st
  ∧ trace (push_dirty_cards_region r st) = trace st
  ∧ length (regions (push_dirty_cards_region r st)) = length (regions st).
Proof.
  unfold push_dirty_cards_region.
  destruct (regions st !! r) as [hr0|]; [|auto].
  destruct (hr_on_dirty_cards_region_list hr0); [auto|]. simpl.
  rewrite length_insert. auto.
Qed.

(** C3: the scanner's work on one card.  The card is scanned only when its
    own region is not in the collection set, the card is not DIRTY and not
    CLAIMED, and the card meets [[bottom(), scan_top())] of its region; then
    the card is marked CLAIMED first, and the memory handed to the closure
    is the intersection of the card with [[bottom(), scan_top())].  In every
    other case nothing is scanned and the card table is left as it was. *)
Theorem doHeapRegion_card_scans env card_index cl st :
  let card_region := heap_region_containing env (addr_for env card_index) in
  let mr := mr_intersection
              (MemRegion_of (hr_bottom (region st card_region))
                 (hr_scan_top (region st card_region)))
              (mkMemRegion (addr_for env card_index) (card_size_in_words env)) in
  let scan := negb (hr_in_collection_set (region st card_region))
              && negb (is_card_dirty (byte_map st) card_index)
              && negb (is_card_claimed (byte_map st) card_index)
              && negb (mr_is_empty mr) in
  let cl' := (doHeapRegion_card env card_index cl st).1 in
  let st' := (doHeapRegion_card env card_index cl st).2 in
  if scan then
    trace st' = trace st ++ [EvSetCardClaimed card_index;
                             EvScanMemRegion card_region mr (_oc cl)]
    ∧ byte_map st' = set_card_claimed (byte_map st) card_index
    ∧ (card_index < length (byte_map st) →
       is_card_claimed (byte_map st') card_index = true)%nat
    ∧ _cards_done cl' = size_t_add (_cards_done cl) 1
  else
    trace st' = trace st ∧ byte_map st' = byte_map st
    ∧ _cards_done cl' = _cards_done cl.
Proof.
  intros card_region mr scan cl' st'. subst cl' st' scan.
  unfold doHeapRegion_card. fold card_region.
  set (st1 := if negb (hr_on_dirty_cards_region_list (region st card_region))
              then push_dirty_cards_region card_region st else st).
  assert (Hst1 : byte_map st1 = byte_map st ∧ trace st1 = trace st
                 ∧ hr_bottom (region st1 card_region) = hr_bottom (region st card_region)
                 ∧ hr_scan_top (region st1 card_region) = hr_scan_top (region st card_region)
                 ∧ hr_in_collection_set (region st1 card_region)
                   = hr_in_collection_set (region st card_region)).
  { subst st1. destruct (negb _); [|auto].
    destruct (push_dirty_cards_region_frame card_region st) as (-> & -> & _).
    destruct (region_push_dirty_cards_region card_region st card_region)
      as (-> & -> & -> & _). auto. }
  destruct Hst1 as (Hbm & Htr & Hb & Hs & Hc). clearbody st1.
  rewrite Hc, Hbm.
  destruct (hr_in_collection_set (region st card_region)); simpl; [auto|].
  destruct (is_card_dirty (byte_map st) card_index); simpl; [auto|].
  unfold scanCard. rewrite Hb, Hs, Hbm. fold mr.
  rewrite (andb_comm (negb (mr_is_empty mr))).
  destruct (is_card_claimed (byte_map st) card_index); simpl; [auto|].
  destruct (mr_is_empty mr); simpl; [auto|].
  rewrite Htr, <- app_assoc. split; [reflexivity|]. split; [reflexivity|].
  split; [|reflexivity].
  intros Hlt. unfold is_card_claimed, card_differs, set_card_claimed.
  rewrite list_lookup_insert_eq by exact Hlt. reflexivity.
Qed.

(** The cards of the remembered set of region 2 of the example heap: card 0
    is scanned whole, card 3 up to [scan_top], card 1 is dirty and card 9
    lies in the collection set. *)
Example doHeapRegion_card_examples :
  let env := Example.collaborators Example.parsed in
  let st := Example.state Example.no_cache in
  let cl := new_ScanRSClosure env (Some 7%nat) 0 in
  trace (doHeapRegion_card env 0 cl st).2
  = [EvSetCardClaimed 0; EvScanMemRegion 0 (mkMemRegion 0 64) (Some 7%nat)]
  ∧ trace (doHeapRegion_card env 3 cl st).2
    = [EvSetCardClaimed 3; EvScanMemRegion 0 (mkMemRegion 192 8) (Some 7%nat)]
  ∧ trace (doHeapRegion_card env 1 cl st).2 = []
  ∧ trace (doHeapRegion_card env 9 cl st).2 = []
  ∧ trace (doHeapRegion_card env 0 cl (doHeapRegion_card env 0 cl st).2).2
    = [EvSetCardClaimed 0; EvScanMemRegion 0 (mkMemRegion 0 64) (Some 7%nat)].
Proof. repeat split. Qed.

(** ** Claiming and completing remembered-set iterators *)

Lemma rem_set_update_rem_set_eq f r st :
  (r < length (regions st))%nat →
  rem_set (update_rem_set f r st) r = f (rem_set st r).
Proof.
  intros Hlt. unfold rem_set, region, update_rem_set.
  destruct (lookup_lt_is_Some_2 _ _ Hlt) as [hr Hr]. rewrite Hr. simpl.
  rewrite list_lookup_insert_eq by exact Hlt. reflexivity.
Qed.

Lemma rem_set_update_rem_set_ne f r st r' :
  r ≠ r' → rem_set (update_rem_set f r st) r' = rem_set st r'.
Proof.
  intros Hne. unfold rem_set, region, update_rem_set.
  destruct (regions st !! r) as [hr|]; [|reflexivity]. simpl.
  rewrite list_lookup_insert_ne by exact Hne. reflexivity.
Qed.

Lemma length_regions_update_rem_set f r st :
  length (regions (update_rem_set f r st)) = length (regions st).
Proof.
  unfold update_rem_set. destruct (regions st !! r); [|reflexivity].
  simpl. apply length_insert.
Qed.

Lemma iter_states_agree_refl st : iter_states_agree st st.
Proof. split; auto. Qed.

Lemma iter_states_agree_trans st1 st2 st3 :
  iter_states_agree st1 st2 → iter_states_agree st2 st3 → iter_states_agree st1 st3.
Proof. intros [H1 H2] [H3 H4]. split; [congruence|]. intros r. rewrite H4. apply H2. Qed.

Lemma iter_states_agree_update_rem_set f r st :
  (∀ rs, iter_state (f rs) = iter_state rs) →
  iter_states_agree st (update_rem_set f r st).
Proof.
  intros Hf. split; [apply length_regions_update_rem_set|]. intros r'.
  destruct (decide (r = r')) as [<-|Hne].
  - destruct (decide (r < length (regions st))%nat) as [Hlt|Hge].
    + rewrite rem_set_update_rem_set_eq by exact Hlt. apply Hf.
    + unfold update_rem_set. rewrite lookup_ge_None_2 by lia. reflexivity.
  - rewrite rem_set_update_rem_set_ne by exact Hne. reflexivity.
Qed.

Lemma iter_states_agree_push_dirty_cards_region r st :
  iter_states_agree st (push_dirty_cards_region r st).
Proof.
  split; [apply push_dirty_cards_region_frame|]. intros r'. unfold rem_set.
  destruct (region_push_dirty_cards_region r st r') as (_ & _ & _ & ->). reflexivity.
Qed.

Lemma update_rem_set_trace f r st : trace (update_rem_set f r st) = trace st.
Proof. apply update_rem_set_frame. Qed.

Lemma doHeapRegion_card_trace env card_index cl st :
  let res := doHeapRegion_card env card_index cl st in
  iter_states_agree st res.2
  ∧ _try_claimed res.1 = _try_claimed cl ∧ _block_size res.1 = _block_size cl
  ∧ ∃ evs, trace res.2 = trace st ++ evs ∧ forallb is_card_event evs = true.
Proof.
  unfold doHeapRegion_card.
  set (card_region := heap_region_containing env (addr_for env card_index)).
  set (st1 := if negb (hr_on_dirty_cards_region_list (region st card_region))
              then push_dirty_cards_region card_region st else st).
  assert (Hst1 : iter_states_agree st st1 ∧ trace st1 = trace st).
  { subst st1. destruct (negb _).
    - split; [apply iter_states_agree_push_dirty_cards_region|].
      apply push_dirty_cards_region_frame.
    - split; [apply iter_states_agree_refl|reflexivity]. }
  destruct Hst1 as [Hag Htr]. clearbody st1.
  destruct (negb (hr_in_collection_set (region st1 card_region))
            && negb (is_card_dirty (byte_map st1) card_index)).
  - unfold scanCard.
    destruct (negb (mr_is_empty _) && negb (is_card_claimed (byte_map st1) card_index));
      simpl.
    + split; [exact Hag|]. split; [reflexivity|]. split; [reflexivity|].
      eexists. rewrite Htr, <- app_assoc. split; reflexivity.
    + split; [exact Hag|]. split; [reflexivity|]. split; [reflexivity|].
      exists []. rewrite app_nil_r. auto.
  - simpl. split; [exact Hag|]. split; [reflexivity|]. split; [reflexivity|].
    exists []. rewrite app_nil_r. auto.
Qed.

Lemma doHeapRegion_loop_trace env r cards : ∀ current_card jump_to_card cl st,
  let res := doHeapRegion_loop env r cards current_card jump_to_card cl st in
  iter_states_agree st res.2
  ∧ _try_claimed res.1 = _try_claimed cl
  ∧ ∃ evs, trace res.2 = trace st ++ evs ∧ forallb is_card_event evs = true.
Proof.
  induction cards as [|card_index rest IH]; intros current_card jump_to_card cl st; simpl.
  { split; [apply iter_states_agree_refl|]. split; [reflexivity|].
    exists []. rewrite app_nil_r. auto. }
  set (st1 := update_rem_set
                (fun _ => (iter_claimed_next (_block_size cl) (rem_set st r)).2) r st).
  assert (Hst1 : iter_states_agree st st1 ∧ trace st1 = trace st).
  { subst st1. split; [|apply update_rem_set_trace].
    split; [apply length_regions_update_rem_set|]. intros r'.
    destruct (decide (r = r')) as [<-|Hne].
    - destruct (decide (r < length (regions st))%nat) as [Hlt|Hge].
      + rewrite rem_set_update_rem_set_eq by exact Hlt. reflexivity.
      + unfold update_rem_set. rewrite lookup_ge_None_2 by lia. reflexivity.
    - rewrite rem_set_update_rem_set_ne by exact Hne. reflexivity. }
  assert (Hstep : ∀ j s, iter_states_agree st s → trace s = trace st →
            let res := (if (current_card <? j)%nat
                        then doHeapRegion_loop env r rest (S current_card) j cl s
                        else let '(cl0, st0) := doHeapRegion_card env card_index cl s in
                             doHeapRegion_loop env r rest (S current_card) j cl0 st0) in
            iter_states_agree st res.2 ∧ _try_claimed res.1 = _try_claimed cl
            ∧ ∃ evs, trace res.2 = trace st ++ evs ∧ forallb is_card_event evs = true).
  { intros j s Hag Htr. destruct (current_card <? j)%nat.
    - destruct (IH (S current_card) j cl s) as (Hag' & Htc & evs & Hev & Hall).
      split; [eapply iter_states_agree_trans; eassumption|]. split; [exact Htc|].
      exists evs. rewrite Hev, Htr. auto.
    - destruct (doHeapRegion_card_trace env card_index cl s)
        as (Hag1 & Htc1 & _ & evs1 & Hev1 & Hall1).
      destruct (doHeapRegion_card env card_index cl s) as [cl0 st0]. simpl in *.
      destruct (IH (S current_card) j cl0 st0) as (Hag' & Htc & evs & Hev & Hall).
      split; [eapply iter_states_agree_trans; [|exact Hag'];
              eapply iter_states_agree_trans; eassumption|].
      split; [congruence|].
      exists (evs1 ++ evs). rewrite Hev, Hev1, Htr, <- app_assoc.
      split; [reflexivity|]. rewrite forallb_app, Hall1, Hall. reflexivity. }
  destruct (jump_to_card + _block_size cl <=? current_card)%nat.
  - unfold iter_claimed_next. apply (Hstep _ st1); apply Hst1.
  - apply (Hstep _ st); [apply iter_states_agree_refl|reflexivity].
Qed.

(** [doHeapRegion] of the scanner with its local bindings spelled out. *)
Lemma doHeapRegion_unfold env r cl st :
  doHeapRegion env r cl st
  = if iter_is_complete (rem_set st r) then (false, cl, st)
    else if negb (_try_claimed cl) && negb (claim_iter (rem_set st r)).1
    then (false, cl, st)
    else
      let hrrs' := if negb (_try_claimed cl) then (claim_iter (rem_set st r)).2
                   else rem_set st r in
      let st1 := update_rem_set (fun _ => hrrs') r st in
      let st2 := push_dirty_cards_region r st1 in
      let st3 := update_rem_set
                   (fun _ => (iter_claimed_next (_block_size cl) (rem_set st2 r)).2) r st2 in
      let res := doHeapRegion_loop env r (rs_cards (rem_set st2 r)) 0
                   (iter_claimed_next (_block_size cl) (rem_set st2 r)).1 cl st3 in
      (false, res.1,
       if negb (_try_claimed res.1)
       then iter_set_complete r (scan_strong_code_roots r res.2)
       else res.2).
Proof.
  unfold doHeapRegion.
  destruct (iter_is_complete (rem_set st r)); [reflexivity|].
  destruct (negb (_try_claimed cl)); simpl.
  - destruct (claim_iter (rem_set st r)) as [claimed hrrs']. simpl.
    destruct claimed; simpl; [|reflexivity].
    destruct (doHeapRegion_loop env r _ 0 _ cl _) as [cl4 st4]. reflexivity.
  - destruct (doHeapRegion_loop env r _ 0 _ cl _) as [cl4 st4]. reflexivity.
Qed.

Lemma rem_set_update_rem_set f r st r0 :
  rem_set (update_rem_set f r st) r0
  = if bool_decide (r0 = r ∧ (r < length (regions st))%nat)
    then f (rem_set st r) else rem_set st r0.
Proof.
  destruct (decide (r = r0)) as [<-|Hne].
  - destruct (decide (r < length (regions st))%nat) as [Hlt|Hge].
    + rewrite bool_decide_eq_true_2 by auto. by apply rem_set_update_rem_set_eq.
    + rewrite bool_decide_eq_false_2 by tauto.
      unfold update_rem_set. rewrite lookup_ge_None_2 by lia. reflexivity.
  - rewrite bool_decide_eq_false_2 by (intros [-> _]; congruence).
    by apply rem_set_update_rem_set_ne.
Qed.

Lemma iter_states_agree_update_same f r st :
  iter_state (f (rem_set st r)) = iter_state (rem_set st r) →
  iter_states_agree st (update_rem_set f r st).
Proof.
  intros Hf. split; [apply length_regions_update_rem_set|]. intros r0.
  rewrite rem_set_update_rem_set. case_bool_decide as H; [|reflexivity].
  destruct H as [-> _]. exact Hf.
Qed.

Lemma scan_strong_code_roots_regions r st :
  regions (scan_strong_code_roots r st) = regions st.
Proof. reflexivity. Qed.

Lemma iter_set_complete_regions r st :
  regions (iter_set_complete r st) = regions (update_rem_set set_iter_complete r st).
Proof. reflexivity. Qed.

Lemma rem_set_iter_set_complete r st r0 :
  rem_set (iter_set_complete r st) r0 = rem_set (update_rem_set set_iter_complete r st) r0.
Proof. reflexivity. Qed.

Lemma iter_set_complete_trace r st :
  trace (iter_set_complete r st) = trace st ++ [EvSetIterComplete r].
Proof. unfold iter_set_complete. cbn [trace emit]. by rewrite update_rem_set_trace. Qed.

Lemma rem_set_scan_strong_code_roots r st r0 :
  rem_set (scan_strong_code_roots r st) r0 = rem_set st r0.
Proof. reflexivity. Qed.

(** The iterator states after a call of [doHeapRegion] on region [r']: the
    iterator of [r'] is complete when this call claimed it, and every other
    iterator state is as before. *)
Lemma doHeapRegion_iter_state env r' cl st r :
  let st' := (doHeapRegion env r' cl st).2 in
  length (regions st') = length (regions st)
  ∧ iter_state (rem_set st' r)
    = if bool_decide (r = r' ∧ (r' < length (regions st))%nat
                      ∧ _try_claimed cl = false
                      ∧ iter_state (rem_set st r') = Unclaimed)
      then Complete else iter_state (rem_set st r).
Proof.
  rewrite doHeapRegion_unfold.
  destruct (iter_is_complete (rem_set st r')) eqn:Hc.
  { simpl. split; [reflexivity|]. apply bool_decide_eq_true in Hc.
    rewrite bool_decide_eq_false_2; [reflexivity|]. intros (_ & _ & _ & H). congruence. }
  unfold claim_iter.
  destruct (_try_claimed cl) eqn:Htc; cbn [negb andb].
  - (* draining a claimed region: no claim, no completion *)
    cbv zeta.
    set (st1 := update_rem_set (fun _ => rem_set st r') r' st).
    set (st2 := push_dirty_cards_region r' st1).
    set (st3 := update_rem_set _ r' st2).
    destruct (doHeapRegion_loop_trace env r' (rs_cards (rem_set st2 r')) 0
                (iter_claimed_next (_block_size cl) (rem_set st2 r')).1 cl st3)
      as (H4 & Htc4 & _).
    rewrite Htc4, Htc. cbn [negb snd].
    assert (H1 : iter_states_agree st st1)
      by (by apply iter_states_agree_update_same).
    assert (H2 : iter_states_agree st1 st2)
      by apply iter_states_agree_push_dirty_cards_region.
    assert (H3 : iter_states_agree st2 st3)
      by (by apply iter_states_agree_update_same).
    destruct (iter_states_agree_trans _ _ _
                (iter_states_agree_trans _ _ _
                   (iter_states_agree_trans _ _ _ H1 H2) H3) H4) as [Hl Hi].
    split; [exact Hl|]. rewrite Hi.
    rewrite bool_decide_eq_false_2; [reflexivity|]. intros (_ & _ & H & _). discriminate.
  - destruct (bool_decide (iter_state (rem_set st r') = Unclaimed)) eqn:Hu;
      cbn [negb andb fst snd]; cbv zeta.
    + (* this call claims the region *)
      apply bool_decide_eq_true in Hu.
      set (st1 := update_rem_set _ r' st).
      set (st2 := push_dirty_cards_region r' st1).
      set (st3 := update_rem_set _ r' st2).
      destruct (doHeapRegion_loop_trace env r' (rs_cards (rem_set st2 r')) 0
                  (iter_claimed_next (_block_size cl) (rem_set st2 r')).1 cl st3)
        as (H4 & Htc4 & _).
      rewrite Htc4, Htc. cbn [negb snd].
      assert (H2 : iter_states_agree st1 st2)
        by apply iter_states_agree_push_dirty_cards_region.
      assert (H3 : iter_states_agree st2 st3)
        by (by apply iter_states_agree_update_same).
      destruct (iter_states_agree_trans _ _ _
                  (iter_states_agree_trans _ _ _ H2 H3) H4) as [Hl Hi].
      assert (Hl1 : length (regions st1) = length (regions st))
        by apply length_regions_update_rem_set.
      split; [rewrite iter_set_complete_regions, length_regions_update_rem_set,
                scan_strong_code_roots_regions; congruence|].
      rewrite rem_set_iter_set_complete, rem_set_update_rem_set,
        scan_strong_code_roots_regions.
      rewrite (rem_set_scan_strong_code_roots r'), Hl, Hl1.
      destruct (decide (r = r' ∧ (r' < length (regions st))%nat)) as [[-> Hlt]|Hn].
      * rewrite !bool_decide_eq_true_2; [reflexivity|auto|]. split; [reflexivity|].
        congruence.
      * rewrite bool_decide_eq_false_2
          by (intros [H5 H6]; apply Hn; split; [exact H5|congruence]).
        rewrite bool_decide_eq_false_2 by tauto.
        rewrite rem_set_scan_strong_code_roots, Hi. subst st1. rewrite rem_set_update_rem_set.
        rewrite bool_decide_eq_false_2 by exact Hn. reflexivity.
    + (* claimed by another worker *)
      apply bool_decide_eq_false in Hu. split; [reflexivity|].
      rewrite bool_decide_eq_false_2; [reflexivity|]. tauto.
Qed.

Lemma doHeapRegion_result env r cl st :
  (doHeapRegion env r cl st).1.1 = false
  ∧ _try_claimed (doHeapRegion env r cl st).1.2 = _try_claimed cl.
Proof.
  rewrite doHeapRegion_unfold.
  destruct (iter_is_complete (rem_set st r)); [auto|].
  destruct (negb (_try_claimed cl) && negb (claim_iter (rem_set st r)).1); [auto|].
  cbv zeta. cbn [fst snd]. split; [reflexivity|].
  apply doHeapRegion_loop_trace.
Qed.

Lemma doHeapRegion_complete env r cl st :
  iter_state (rem_set st r) = Complete → doHeapRegion env r cl st = (false, cl, st).
Proof.
  intros H. rewrite doHeapRegion_unfold. unfold iter_is_complete.
  rewrite bool_decide_eq_true_2 by exact H. reflexivity.
Qed.

Lemma doHeapRegion_not_unclaimed env r cl st :
  _try_claimed cl = false → iter_state (rem_set st r) ≠ Unclaimed →
  doHeapRegion env r cl st = (false, cl, st).
Proof.
  intros Htc H. rewrite doHeapRegion_unfold. unfold claim_iter.
  rewrite Htc, (bool_decide_eq_false_2 _ H).
  destruct (iter_is_complete (rem_set st r)); reflexivity.
Qed.

Lemma doHeapRegion_claimant_trace env r cl st :
  _try_claimed cl = false → iter_state (rem_set st r) = Unclaimed →
  ∃ evs, trace (doHeapRegion env r cl st).2
         = trace st ++ (evs ++ [EvStrongCodeRoots r; EvTrimQueuePartially;
                                EvSetIterComplete r])
         ∧ forallb is_card_event evs = true.
Proof.
  intros Htc Hu. rewrite doHeapRegion_unfold. unfold iter_is_complete, claim_iter.
  rewrite Htc, (bool_decide_eq_true_2 _ Hu).
  rewrite bool_decide_eq_false_2 by congruence.
  cbn [negb andb fst snd]. cbv zeta.
  set (st1 := update_rem_set _ r st).
  set (st2 := push_dirty_cards_region r st1).
  set (st3 := update_rem_set _ r st2).
  destruct (doHeapRegion_loop_trace env r (rs_cards (rem_set st2 r)) 0
              (iter_claimed_next (_block_size cl) (rem_set st2 r)).1 cl st3)
    as (_ & Htc4 & evs & Hev & Hall).
  rewrite Htc4, Htc. cbn [negb snd].
  exists evs. split; [|exact Hall].
  rewrite iter_set_complete_trace. unfold scan_strong_code_roots, emit. cbn [trace].
  rewrite Hev. subst st3. rewrite update_rem_set_trace. subst st2.
  destruct (push_dirty_cards_region_frame r st1) as (_ & -> & _).
  subst st1. rewrite update_rem_set_trace, <- !app_assoc. reflexivity.
Qed.

Lemma heap_region_iterate_iter_state env order : ∀ cl st,
  let st' := (heap_region_iterate env order cl st).2 in
  length (regions st') = length (regions st)
  ∧ (∀ r, iter_state (rem_set st r) = Complete → iter_state (rem_set st' r) = Complete)
  ∧ (∀ r, iter_state (rem_set st r) ≠ Unclaimed → iter_state (rem_set st' r) ≠ Unclaimed)
  ∧ (_try_claimed cl = false →
     ∀ r, r ∈ order → (r < length (regions st))%nat →
          iter_state (rem_set st' r) ≠ Unclaimed).
Proof.
  induction order as [|r0 order IH]; intros cl st; simpl.
  { repeat split; auto. intros _ r Hin. by apply elem_of_nil in Hin. }
  destruct (doHeapRegion_result env r0 cl st) as [Hstop Htc].
  assert (Hstep : ∀ r, length (regions (doHeapRegion env r0 cl st).2) = length (regions st)
            ∧ iter_state (rem_set (doHeapRegion env r0 cl st).2 r)
              = if bool_decide (r = r0 ∧ (r0 < length (regions st))%nat
                                ∧ _try_claimed cl = false
                                ∧ iter_state (rem_set st r0) = Unclaimed)
                then Complete else iter_state (rem_set st r))
    by (intros r; apply doHeapRegion_iter_state).
  destruct (doHeapRegion env r0 cl st) as [[stop cl1] st1]. simpl in *. subst stop.
  destruct (IH cl1 st1) as (Hl & Hc & Hn & Ho).
  split; [rewrite Hl; apply (Hstep 0%nat)|].
  split; [|split].
  - intros r Hr. apply Hc. destruct (Hstep r) as [_ ->].
    case_bool_decide; [reflexivity|exact Hr].
  - intros r Hr. apply Hn. destruct (Hstep r) as [_ ->].
    case_bool_decide; [discriminate|exact Hr].
  - intros Hcl r Hin Hlt. apply elem_of_cons in Hin as [->|Hin].
    + apply Hn. destruct (Hstep r0) as [_ ->].
      case_bool_decide as Hd; [discriminate|]. intros Hu. apply Hd. auto.
    + apply Ho; [congruence|exact Hin|]. destruct (Hstep 0%nat) as [-> _]. exact Hlt.
Qed.

Lemma heap_region_iterate_nothing_to_claim env order : ∀ cl st,
  _try_claimed cl = false →
  (∀ r, r ∈ order → iter_state (rem_set st r) ≠ Unclaimed) →
  heap_region_iterate env order cl st = (cl, st).
Proof.
  induction order as [|r0 order IH]; intros cl st Htc Hall; simpl; [reflexivity|].
  rewrite doHeapRegion_not_unclaimed by (auto; apply Hall; by left).
  apply IH; [exact Htc|]. intros r Hin. apply Hall. by right.
Qed.

Lemma card_events_no_iterator_event r evs :
  forallb is_card_event evs = true → List.filter (iterator_event r) evs = [].
Proof.
  induction evs as [|e evs IH]; [reflexivity|]. cbn [forallb List.filter].
  intros H. apply andb_prop in H as [He Hevs].
  destruct e; try discriminate; cbn [iterator_event]; by apply IH.
Qed.

(** One call of [doHeapRegion] on [r0], seen from the iterator of [r]. *)
Lemma doHeapRegion_iterator_events env r0 cl st r :
  ∃ evs,
    trace (doHeapRegion env r0 cl st).2 = trace st ++ evs
    ∧ List.filter (iterator_event r) evs
      = if bool_decide (r = r0 ∧ _try_claimed cl = false
                        ∧ iter_state (rem_set st r0) = Unclaimed)
        then [EvStrongCodeRoots r; EvSetIterComplete r] else [].
Proof.
  destruct (_try_claimed cl) eqn:Htc.
  - (* a walk with _try_claimed set records card events only *)
    rewrite bool_decide_eq_false_2 by (intros (_ & H & _); discriminate).
    rewrite doHeapRegion_unfold.
    destruct (iter_is_complete (rem_set st r0));
      [exists []; by rewrite app_nil_r|].
    rewrite Htc. cbn [negb andb]. cbv zeta.
    set (st1 := update_rem_set _ r0 st).
    set (st2 := push_dirty_cards_region r0 st1).
    set (st3 := update_rem_set _ r0 st2).
    destruct (doHeapRegion_loop_trace env r0 (rs_cards (rem_set st2 r0)) 0
                (iter_claimed_next (_block_size cl) (rem_set st2 r0)).1 cl st3)
      as (_ & Htc4 & evs & Hev & Hall).
    rewrite Htc4, Htc. cbn [negb snd].
    exists evs. split; [|by apply card_events_no_iterator_event].
    rewrite Hev. subst st3. rewrite update_rem_set_trace. subst st2.
    destruct (push_dirty_cards_region_frame r0 st1) as (_ & -> & _).
    subst st1. by rewrite update_rem_set_trace.
  - destruct (decide (iter_state (rem_set st r0) = Unclaimed)) as [Hu|Hu].
    + destruct (doHeapRegion_claimant_trace env r0 cl st Htc Hu) as (evs & Hev & Hall).
      eexists. split; [exact Hev|].
      rewrite List.filter_app, (card_events_no_iterator_event r evs Hall).
      cbn [app List.filter iterator_event].
      destruct (decide (r = r0)) as [->|Hne].
      * rewrite !bool_decide_eq_true_2 by auto. reflexivity.
      * rewrite (bool_decide_eq_false_2 (r0 = r)) by congruence.
        rewrite bool_decide_eq_false_2 by (intros (H & _); congruence). reflexivity.
    + rewrite doHeapRegion_not_unclaimed by assumption. cbn [snd].
      exists []. rewrite app_nil_r. split; [reflexivity|].
      rewrite bool_decide_eq_false_2 by (intros (_ & _ & H); congruence). reflexivity.
Qed.

(** A walk over [order], seen from the iterator of [r]. *)
Lemma heap_region_iterate_iterator_events env order r : ∀ cl st,
  (_try_claimed cl = false → (r < length (regions st))%nat) →
  let res := heap_region_iterate env order cl st in
  let claims := bool_decide (_try_claimed cl = false ∧ r ∈ order
                             ∧ iter_state (rem_set st r) = Unclaimed) in
  _try_claimed res.1 = _try_claimed cl
  ∧ length (regions res.2) = length (regions st)
  ∧ iter_state (rem_set res.2 r) = (if claims then Complete else iter_state (rem_set st r))
  ∧ ∃ evs,
      trace res.2 = trace st ++ evs
      ∧ List.filter (iterator_event r) evs
        = if claims then [EvStrongCodeRoots r; EvSetIterComplete r] else [].
Proof.
  induction order as [|r0 order IH]; intros cl st Hlt; cbn [heap_region_iterate].
  { cbv zeta. cbn [fst snd].
    rewrite bool_decide_eq_false_2
      by (intros (_ & H & _); by apply elem_of_nil in H).
    split; [reflexivity|]. split; [reflexivity|]. split; [reflexivity|].
    exists []. by rewrite app_nil_r. }
  destruct (doHeapRegion_result env r0 cl st) as [Hstop Htc].
  destruct (doHeapRegion_iter_state env r0 cl st r) as [Hlen Hit].
  destruct (doHeapRegion_iterator_events env r0 cl st r) as (evs1 & Htr1 & Hf1).
  destruct (doHeapRegion env r0 cl st) as [[stop cl1] st1]. cbn [fst snd] in *. subst stop.
  destruct (IH cl1 st1) as (Htc2 & Hlen2 & Hit2 & evs2 & Htr2 & Hf2).
  { intros H. rewrite Hlen. apply Hlt. congruence. }
  cbv zeta in *.
  split; [congruence|]. split; [congruence|].
  assert (Hlt' : _try_claimed cl = false → (r < length (regions st))%nat) by exact Hlt.
  clear Hlt IH. rewrite Htc in *.
  assert (Hboth :
    iter_state (rem_set (heap_region_iterate env order cl1 st1).2 r)
    = (if bool_decide (_try_claimed cl = false ∧ r ∈ r0 :: order
                       ∧ iter_state (rem_set st r) = Unclaimed)
       then Complete else iter_state (rem_set st r))
    ∧ List.filter (iterator_event r) (evs1 ++ evs2)
      = (if bool_decide (_try_claimed cl = false ∧ r ∈ r0 :: order
                         ∧ iter_state (rem_set st r) = Unclaimed)
         then [EvStrongCodeRoots r; EvSetIterComplete r] else [])).
  { rewrite List.filter_app, Hf1, Hf2, Hit2, Hit.
    clear Hf1 Hf2 Hit2 Hit Htr1 Htr2.
    repeat case_bool_decide;
      repeat match goal with
             | H : context [_ ∈ _ :: _] |- _ => rewrite elem_of_cons in H
             end;
      try (split; reflexivity);
      exfalso; destruct_and?; subst; intuition congruence. }
  destruct Hboth as [H1 H2]. split; [exact H1|].
  exists (evs1 ++ evs2). rewrite Htr2, Htr1, <- app_assoc. split; [reflexivity|exact H2].
Qed.

(** A worker's [scanRS], seen from the iterator of [r]. *)
Lemma scanRS_iterator_events env oc worker_i st r :
  (r < length (regions st))%nat →
  let st' := scanRS env oc worker_i st in
  let claims := bool_decide (r ∈ collection_set_from env st worker_i
                             ∧ iter_state (rem_set st r) = Unclaimed) in
  length (regions st') = length (regions st)
  ∧ iter_state (rem_set st' r) = (if claims then Complete else iter_state (rem_set st r))
  ∧ ∃ evs,
      trace st' = trace st ++ evs
      ∧ List.filter (iterator_event r) evs
        = if claims then [EvStrongCodeRoots r; EvSetIterComplete r] else [].
Proof.
  intros Hlt. cbv zeta. unfold scanRS, collection_set_iterate_from.
  destruct (heap_region_iterate_iterator_events env
              (collection_set_from env st worker_i) r
              (new_ScanRSClosure env oc worker_i) st (fun _ => Hlt))
    as (Htc1 & Hlen1 & Hit1 & evs1 & Htr1 & Hf1).
  destruct (heap_region_iterate env (collection_set_from env st worker_i)
              (new_ScanRSClosure env oc worker_i) st) as [cl1 st1].
  cbn [fst snd _try_claimed new_ScanRSClosure] in *.
  destruct (heap_region_iterate_iterator_events env
              (collection_set_from env st1 worker_i) r (set_try_claimed cl1) st1)
    as (_ & Hlen2 & Hit2 & evs2 & Htr2 & Hf2); [discriminate|].
  destruct (heap_region_iterate env (collection_set_from env st1 worker_i)
              (set_try_claimed cl1) st1) as [cl2 st2].
  cbn [fst snd _try_claimed set_try_claimed] in *.
  rewrite (bool_decide_eq_false_2 (true = false ∧ _)) in Hit2, Hf2
    by (intros [H _]; discriminate).
  cbn [regions trace with_cards_scanned]. unfold rem_set, region.
  cbn [regions with_cards_scanned]. fold (region st2 r). fold (rem_set st2 r).
  split; [congruence|]. rewrite Hit2, Hit1.
  assert (Hsame : bool_decide (false = false ∧ r ∈ collection_set_from env st worker_i
                               ∧ iter_state (rem_set st r) = Unclaimed)
                  = bool_decide (r ∈ collection_set_from env st worker_i
                                 ∧ iter_state (rem_set st r) = Unclaimed)).
  { apply bool_decide_ext. tauto. }
  rewrite Hsame in Hf1 |- *. split; [reflexivity|].
  exists (evs1 ++ evs2). rewrite Htr2, Htr1, <- app_assoc. split; [reflexivity|].
  by rewrite List.filter_app, Hf1, Hf2, app_nil_r.
Qed.

(** Workers that come after the iterator of [r] was completed. *)
Lemma scanRS_workers_after_completion env r calls : ∀ st,
  iter_state (rem_set st r) = Complete →
  let st' := scanRS_workers env calls st in
  iter_state (rem_set st' r) = Complete
  ∧ ∃ evs, trace st' = trace st ++ evs ∧ List.filter (iterator_event r) evs = [].
Proof.
  unfold scanRS_workers.
  induction calls as [|[oc w] calls IH]; intros st Hc; cbn [foldl].
  { split; [exact Hc|]. exists []. by rewrite app_nil_r. }
  assert (Hlt : (r < length (regions st))%nat).
  { apply Nat.nlt_ge. intros Hge. assert (Hge' : (length (regions st) ≤ r)%nat) by lia.
    unfold rem_set, region in Hc.
    rewrite (lookup_ge_None_2 _ _ Hge') in Hc. discriminate. }
  destruct (scanRS_iterator_events env oc w st r Hlt) as (_ & Hit & evs1 & Htr1 & Hf1).
  rewrite bool_decide_eq_false_2 in Hit, Hf1 by (intros [_ H]; congruence).
  destruct (IH (scanRS env oc w st)) as (Hc2 & evs2 & Htr2 & Hf2); [congruence|].
  split; [exact Hc2|]. exists (evs1 ++ evs2).
  rewrite Htr2, Htr1, <- app_assoc. split; [reflexivity|].
  by rewrite List.filter_app, Hf1, Hf2.
Qed.

(** ** The pause: closure slots and card table *)

Lemma bookkeeping_agree_refl st : bookkeeping_agree st st.
Proof. split; reflexivity. Qed.

Lemma bookkeeping_agree_trans st1 st2 st3 :
  bookkeeping_agree st1 st2 → bookkeeping_agree st2 st3 → bookkeeping_agree st1 st3.
Proof. intros [H1 H2] [H3 H4]. split; congruence. Qed.

Lemma bookkeeping_agree_update_rem_set f r st :
  bookkeeping_agree st (update_rem_set f r st).
Proof. unfold update_rem_set. destruct (regions st !! r); split; reflexivity. Qed.

Lemma bookkeeping_agree_add_references ins : ∀ st,
  bookkeeping_agree st (add_references ins st).
Proof.
  unfold add_references.
  induction ins as [|[to card] ins IH]; intros st; simpl;
    [apply bookkeeping_agree_refl|].
  eapply bookkeeping_agree_trans; [|apply IH]. apply bookkeeping_agree_update_rem_set.
Qed.

Lemma bookkeeping_agree_iterate_card env fy r mr cl st :
  bookkeeping_agree st (iterate_card env fy r mr cl st).2.
Proof.
  unfold iterate_card, mutators_dirty. simpl.
  destruct (bookkeeping_agree_add_references
              (rs_insertions (oops_on_card_seq_iterate_careful env fy r mr cl st))
              (emit (EvOopsOnCard fy r mr cl) st)) as [H1 H2].
  split; simpl; [rewrite H1|rewrite H2]; reflexivity.
Qed.

Lemma bookkeeping_agree_push_dirty_cards_region r st :
  bookkeeping_agree st (push_dirty_cards_region r st).
Proof.
  unfold push_dirty_cards_region. destruct (regions st !! r) as [hr|];
    [destruct (hr_on_dirty_cards_region_list hr)|]; split; reflexivity.
Qed.

Lemma refine_card_during_gc_bookkeeping env card_ptr worker_i st :
  let res := refine_card_during_gc env card_ptr worker_i st in
  bookkeeping_agree st res.2
  ∧ ∃ evs, trace res.2 = trace st ++ evs
           ∧ Forall (uses_push_closure (default None (cset_rs_update_cl st !! worker_i))) evs.
Proof.
  rewrite refine_card_during_gc_cases.
  match goal with |- context [if ?b then _ else _] => destruct b end; cbn [snd].
  - set (mr := MemRegion_of _ _). set (cl := G1UpdateRSOrPushRefOopClosure _ _ _ _).
    set (r := heap_region_containing env _).
    pose proof (bookkeeping_agree_iterate_card env true r mr cl
                  (store_card card_ptr clean_card_val st)) as [H1 H2].
    pose proof (iterate_card_trace env true r mr cl
                  (store_card card_ptr clean_card_val st)) as Htr.
    split.
    + split; unfold with_conc_refine_cards;
        cbn [cset_rs_update_cl cards_scanned]; [rewrite H1|rewrite H2]; reflexivity.
    + exists [EvCardStore card_ptr clean_card_val; EvOopsOnCard true r mr cl].
      unfold with_conc_refine_cards. cbn [trace]. rewrite Htr.
      unfold store_card. simpl. rewrite <- app_assoc. split; [reflexivity|].
      repeat constructor.
  - split; [apply bookkeeping_agree_refl|]. exists []. rewrite app_nil_r. auto.
Qed.

Lemma do_card_ptr_bookkeeping env card_ptr worker_i q st :
  let res := do_card_ptr env card_ptr worker_i q st in
  bookkeeping_agree st res.2
  ∧ ∃ evs, trace res.2 = trace st ++ evs
           ∧ Forall (uses_push_closure (default None (cset_rs_update_cl st !! worker_i))) evs.
Proof.
  unfold do_card_ptr.
  destruct (refine_card_during_gc_bookkeeping env card_ptr worker_i st)
    as ([H1 H2] & evs & Htr & Hall).
  destruct (refine_card_during_gc env card_ptr worker_i st) as [into_cset st1].
  simpl in *. destruct into_cset; simpl.
  - split; [split; assumption|].
    exists (evs ++ [EvTrimQueuePartially; EvIntoCSetEnqueue card_ptr]).
    rewrite Htr, <- !app_assoc. split; [reflexivity|].
    apply Forall_app. split; [exact Hall|]. repeat constructor.
  - split; [split; assumption|]. exists evs. auto.
Qed.

Lemma foldl_do_card_ptr_bookkeeping env worker_i cards : ∀ q st,
  let res := foldl (fun '(q, s) c => do_card_ptr env c worker_i q s) (q, st) cards in
  bookkeeping_agree st res.2
  ∧ ∃ evs, trace res.2 = trace st ++ evs
           ∧ Forall (uses_push_closure (default None (cset_rs_update_cl st !! worker_i))) evs.
Proof.
  induction cards as [|c cards IH]; intros q st; simpl.
  { split; [apply bookkeeping_agree_refl|]. exists []. rewrite app_nil_r. auto. }
  destruct (do_card_ptr_bookkeeping env c worker_i q st) as (Hb1 & evs1 & Htr1 & Hall1).
  destruct (do_card_ptr env c worker_i q st) as [q1 st1]. simpl in *.
  destruct (IH q1 st1) as (Hb2 & evs2 & Htr2 & Hall2).
  split; [eapply bookkeeping_agree_trans; eassumption|].
  exists (evs1 ++ evs2). rewrite Htr2, Htr1, <- app_assoc. split; [reflexivity|].
  apply Forall_app. split; [exact Hall1|]. destruct Hb1 as [Hs _]. rewrite <- Hs.
  exact Hall2.
Qed.

Lemma updateRS_bookkeeping env worker_i q st :
  let res := updateRS env q worker_i st in
  bookkeeping_agree st res.2
  ∧ ∃ evs, trace res.2 = trace st ++ evs
           ∧ Forall (uses_push_closure (default None (cset_rs_update_cl st !! worker_i))) evs.
Proof.
  unfold updateRS, iterate_dirty_card_closure.
  apply (foldl_do_card_ptr_bookkeeping env worker_i (concat (completed_buffers st)) q
           (with_dirty_card_queues (mutator_logs st) [] st)).
Qed.

Lemma doHeapRegion_card_bookkeeping env card_index cl st :
  bookkeeping_agree st (doHeapRegion_card env card_index cl st).2.
Proof.
  unfold doHeapRegion_card.
  set (card_region := heap_region_containing env (addr_for env card_index)).
  set (st1 := if negb (hr_on_dirty_cards_region_list (region st card_region))
              then push_dirty_cards_region card_region st else st).
  assert (Hst1 : bookkeeping_agree st st1).
  { subst st1. destruct (negb _);
      [apply bookkeeping_agree_push_dirty_cards_region|apply bookkeeping_agree_refl]. }
  clearbody st1.
  destruct (negb (hr_in_collection_set (region st1 card_region))
            && negb (is_card_dirty (byte_map st1) card_index)); [|exact Hst1].
  unfold scanCard.
  destruct (negb (mr_is_empty _) && negb (is_card_claimed (byte_map st1) card_index));
    [|exact Hst1].
  destruct Hst1 as [H1 H2]. split; simpl; assumption.
Qed.

Lemma doHeapRegion_loop_bookkeeping env r cards : ∀ current_card jump_to_card cl st,
  bookkeeping_agree st (doHeapRegion_loop env r cards current_card jump_to_card cl st).2.
Proof.
  induction cards as [|card_index rest IH]; intros current_card jump_to_card cl st; simpl;
    [apply bookkeeping_agree_refl|].
  assert (Hstep : ∀ j s, bookkeeping_agree st s →
            bookkeeping_agree st
              (if (current_card <? j)%nat
               then doHeapRegion_loop env r rest (S current_card) j cl s
               else let '(cl0, st0) := doHeapRegion_card env card_index cl s in
                    doHeapRegion_loop env r rest (S current_card) j cl0 st0).2).
  { intros j s Hs. destruct (current_card <? j)%nat.
    - eapply bookkeeping_agree_trans; [exact Hs|apply IH].
    - pose proof (doHeapRegion_card_bookkeeping env card_index cl s) as H1.
      destruct (doHeapRegion_card env card_index cl s) as [cl0 st0]. simpl in H1.
      eapply bookkeeping_agree_trans; [exact Hs|].
      eapply bookkeeping_agree_trans; [exact H1|apply IH]. }
  destruct (jump_to_card + _block_size cl <=? current_card)%nat.
  - unfold iter_claimed_next. apply Hstep, bookkeeping_agree_update_rem_set.
  - apply Hstep, bookkeeping_agree_refl.
Qed.

Lemma is_card_event_scan_event evs :
  forallb is_card_event evs = true → forallb is_scan_event evs = true.
Proof.
  induction evs as [|e evs IH]; simpl; [reflexivity|].
  intros H. apply andb_prop in H as [He Hevs]. rewrite IH by exact Hevs.
  destruct e; try discriminate; reflexivity.
Qed.

Lemma doHeapRegion_bookkeeping env r cl st :
  let res := doHeapRegion env r cl st in
  bookkeeping_agree st res.2
  ∧ ∃ evs, trace res.2 = trace st ++ evs ∧ forallb is_scan_event evs = true.
Proof.
  rewrite doHeapRegion_unfold.
  assert (Hnop : bookkeeping_agree st st
                 ∧ ∃ evs, trace st = trace st ++ evs ∧ forallb is_scan_event evs = true).
  { split; [apply bookkeeping_agree_refl|]. exists []. rewrite app_nil_r. auto. }
  destruct (iter_is_complete (rem_set st r)); [exact Hnop|].
  destruct (negb (_try_claimed cl) && negb (claim_iter (rem_set st r)).1); [exact Hnop|].
  cbv zeta. cbn [snd].
  set (st1 := update_rem_set _ r st).
  set (st2 := push_dirty_cards_region r st1).
  set (st3 := update_rem_set _ r st2).
  pose proof (doHeapRegion_loop_bookkeeping env r (rs_cards (rem_set st2 r)) 0
                (iter_claimed_next (_block_size cl) (rem_set st2 r)).1 cl st3) as Hb4.
  destruct (doHeapRegion_loop_trace env r (rs_cards (rem_set st2 r)) 0
              (iter_claimed_next (_block_size cl) (rem_set st2 r)).1 cl st3)
    as (_ & _ & evs & Hev & Hall).
  assert (Hb3 : bookkeeping_agree st st3).
  { eapply bookkeeping_agree_trans; [|apply bookkeeping_agree_update_rem_set].
    eapply bookkeeping_agree_trans; [|apply bookkeeping_agree_push_dirty_cards_region].
    apply bookkeeping_agree_update_rem_set. }
  assert (Htr3 : trace st3 = trace st).
  { subst st3. rewrite update_rem_set_trace. subst st2.
    destruct (push_dirty_cards_region_frame r st1) as (_ & -> & _).
    subst st1. apply update_rem_set_trace. }
  pose proof (bookkeeping_agree_trans _ _ _ Hb3 Hb4) as Hb.
  apply is_card_event_scan_event in Hall.
  set (res := doHeapRegion_loop env r _ 0 _ cl st3) in *.
  destruct (negb (_try_claimed res.1)).
  - split.
    + destruct (bookkeeping_agree_update_rem_set set_iter_complete r
                  (scan_strong_code_roots r res.2)) as [H5 H6].
      destruct Hb as [H1 H2]. unfold iter_set_complete.
      split; cbn [cset_rs_update_cl cards_scanned emit]; [rewrite H5|rewrite H6];
        assumption.
    + exists (evs ++ [EvStrongCodeRoots r; EvTrimQueuePartially; EvSetIterComplete r]).
      rewrite iter_set_complete_trace. unfold scan_strong_code_roots, emit. cbn [trace].
      rewrite Hev, Htr3, <- !app_assoc. split; [reflexivity|].
      rewrite forallb_app, Hall. reflexivity.
  - split; [exact Hb|]. exists evs. rewrite Hev, Htr3. auto.
Qed.

Lemma heap_region_iterate_bookkeeping env order : ∀ cl st,
  let res := heap_region_iterate env order cl st in
  bookkeeping_agree st res.2
  ∧ ∃ evs, trace res.2 = trace st ++ evs ∧ forallb is_scan_event evs = true.
Proof.
  induction order as [|r order IH]; intros cl st; simpl.
  { split; [apply bookkeeping_agree_refl|]. exists []. rewrite app_nil_r. auto. }
  destruct (doHeapRegion_bookkeeping env r cl st) as (Hb1 & evs1 & Htr1 & Hall1).
  destruct (doHeapRegion env r cl st) as [[stop cl1] st1]. simpl in *.
  destruct stop; [split; [exact Hb1|eauto]|].
  destruct (IH cl1 st1) as (Hb2 & evs2 & Htr2 & Hall2).
  split; [eapply bookkeeping_agree_trans; eassumption|].
  exists (evs1 ++ evs2). rewrite Htr2, Htr1, <- app_assoc. split; [reflexivity|].
  rewrite forallb_app, Hall1, Hall2. reflexivity.
Qed.

Lemma scanRS_bookkeeping env oc worker_i st :
  let st' := scanRS env oc worker_i st in
  cset_rs_update_cl st' = cset_rs_update_cl st
  ∧ (is_Some (cards_scanned st) → is_Some (cards_scanned st'))
  ∧ ∃ evs, trace st' = trace st ++ evs ∧ forallb is_scan_event evs = true.
Proof.
  unfold scanRS, collection_set_iterate_from.
  destruct (heap_region_iterate_bookkeeping env (collection_set_from env st worker_i)
              (new_ScanRSClosure env oc worker_i) st) as ([Hs1 Hc1] & evs1 & Htr1 & Hall1).
  destruct (heap_region_iterate env (collection_set_from env st worker_i)
              (new_ScanRSClosure env oc worker_i) st) as [cl1 st1]. simpl in *.
  destruct (heap_region_iterate_bookkeeping env (collection_set_from env st1 worker_i)
              (set_try_claimed cl1) st1) as ([Hs2 Hc2] & evs2 & Htr2 & Hall2).
  destruct (heap_region_iterate env (collection_set_from env st1 worker_i)
              (set_try_claimed cl1) st1) as [cl2 st2]. simpl in *.
  split; [congruence|]. split.
  - rewrite Hc2, Hc1. intros [l ->]. simpl. eauto.
  - exists (evs1 ++ evs2). rewrite Htr2, Htr1, <- app_assoc. split; [reflexivity|].
    rewrite forallb_app, Hall1, Hall2. reflexivity.
Qed.

Lemma is_scan_event_uses_push_closure p evs :
  forallb is_scan_event evs = true → Forall (uses_push_closure p) evs.
Proof.
  induction evs as [|e evs IH]; simpl; [constructor|].
  intros H. apply andb_prop in H as [He Hevs]. constructor; [|by apply IH].
  destruct e; try discriminate; exact I.
Qed.

(** One worker's call: the slot holds [oc] for every card refined in the
    call, and is NULL again afterwards. *)
Lemma oops_into_collection_set_do_slot env oc worker_i st :
  (worker_i < length (cset_rs_update_cl st))%nat →
  let st' := oops_into_collection_set_do env oc worker_i st in
  cset_rs_update_cl st' = <[worker_i := None]> (cset_rs_update_cl st)
  ∧ (is_Some (cards_scanned st) → is_Some (cards_scanned st'))
  ∧ ∃ evs, trace st' = trace st ++ evs ∧ Forall (uses_push_closure oc) evs.
Proof.
  intros Hlt. unfold oops_into_collection_set_do.
  set (st0 := with_cset_rs_update_cl (<[worker_i := oc]> (cset_rs_update_cl st)) st).
  destruct (updateRS_bookkeeping env worker_i [] st0) as ([Hs1 Hc1] & evs1 & Htr1 & Hall1).
  assert (Hslot : default None (cset_rs_update_cl st0 !! worker_i) = oc).
  { subst st0. simpl. rewrite list_lookup_insert_eq by exact Hlt. reflexivity. }
  rewrite Hslot in Hall1.
  destruct (updateRS env [] worker_i st0) as [q st1]. simpl in Hs1, Hc1, Htr1.
  destruct (scanRS_bookkeeping env oc worker_i st1) as (Hs2 & Hc2 & evs2 & Htr2 & Hall2).
  set (st2 := scanRS env oc worker_i st1) in *. clearbody st2.
  assert (Hres : ∀ s, cset_rs_update_cl s = <[worker_i := None]> (cset_rs_update_cl st2) →
                   cards_scanned s = cards_scanned st2 → trace s = trace st2 →
            cset_rs_update_cl s = <[worker_i := None]> (cset_rs_update_cl st)
            ∧ (is_Some (cards_scanned st) → is_Some (cards_scanned s))
            ∧ ∃ evs, trace s = trace st ++ evs ∧ Forall (uses_push_closure oc) evs).
  { intros s H1 H2 H3. split; [|split].
    - rewrite H1, Hs2, Hs1. subst st0. simpl. apply list_insert_insert_eq.
    - intros H. rewrite H2. apply Hc2. rewrite Hc1. exact H.
    - exists (evs1 ++ evs2). rewrite H3, Htr2, Htr1, <- app_assoc.
      split; [reflexivity|]. apply Forall_app. split; [exact Hall1|].
      by apply is_scan_event_uses_push_closure. }
  destruct q; apply Hres; reflexivity.
Qed.

Lemma pause_workers_slots env calls : ∀ st,
  Forall (eq None) (cset_rs_update_cl st) →
  Forall (fun call => (call.2 < length (cset_rs_update_cl st))%nat) calls →
  is_Some (cards_scanned st) →
  Forall (eq None) (cset_rs_update_cl (pause_workers env calls st))
  ∧ is_Some (cards_scanned (pause_workers env calls st)).
Proof.
  unfold pause_workers.
  induction calls as [|[oc w] calls IH]; intros st Hnone Hw Hsc; simpl; [auto|].
  apply Forall_cons in Hw as [Hw Hws]. simpl in Hw.
  destruct (oops_into_collection_set_do_slot env oc w st Hw) as (Hs & Hc & _).
  apply IH.
  - rewrite Hs. apply Forall_insert; [exact Hnone|reflexivity].
  - rewrite Hs, length_insert. exact Hws.
  - apply Hc, Hsc.
Qed.

(** ** Rebuild: humongous objects *)

(** C8: a humongous object counts as live exactly when the bitmap marks its
    start or TARS lies above TAMS.  For a live one the references are
    iterated within the chunk's [MemRegion]; for a dead one the chunk hands
    nothing to the closure and counts no marked bytes. *)
Theorem rebuild_humongous_liveness st bitmap tams tars hr mr :
  let humongous_obj := hr_bottom (region st (hr_humongous_start_region hr)) in
  (G1RebuildRemSetHeapRegionClosure.is_humongous_live humongous_obj bitmap tams tars = true
   ↔ isMarked bitmap humongous_obj = true ∨ tams < tars)
  ∧ (isHumongous hr = true →
     G1RebuildRemSetHeapRegionClosure.is_humongous_live humongous_obj bitmap tams tars = true →
     ∃ marked_bytes,
       G1RebuildRemSetHeapRegionClosure.rebuild_rem_set_in_region st bitmap tams tars hr mr
       = Some (marked_bytes, [EvOopIterate humongous_obj (Some mr)]))
  ∧ (isHumongous hr = true →
     G1RebuildRemSetHeapRegionClosure.is_humongous_live humongous_obj bitmap tams tars = false →
     G1RebuildRemSetHeapRegionClosure.rebuild_rem_set_in_region st bitmap tams tars hr mr
     = Some (0, [])).
Proof.
  intros humongous_obj. split; [|split].
  - unfold G1RebuildRemSetHeapRegionClosure.is_humongous_live.
    rewrite orb_true_iff, Z.ltb_lt. reflexivity.
  - intros Hh Hl. unfold G1RebuildRemSetHeapRegionClosure.rebuild_rem_set_in_region.
    rewrite Hh. fold humongous_obj. rewrite Hl. eauto.
  - intros Hh Hl. unfold G1RebuildRemSetHeapRegionClosure.rebuild_rem_set_in_region.
    rewrite Hh. fold humongous_obj. rewrite Hl. reflexivity.
Qed.

(** The humongous region of the example, in the chunk [[40, 48)]. *)
Lemma rebuild_humongous_liveness_witness :
  ∃ marked_bytes,
    G1RebuildRemSetHeapRegionClosure.rebuild_rem_set_in_region RebuildExample.heap
      RebuildExample.bitmap 64 64 RebuildExample.humongous_region (mkMemRegion 40 8)
    = Some (marked_bytes, [EvOopIterate 32 (Some (mkMemRegion 40 8))]).
Proof.
  destruct (rebuild_humongous_liveness RebuildExample.heap RebuildExample.bitmap 64 64
              RebuildExample.humongous_region (mkMemRegion 40 8)) as (_ & H & _).
  apply H; reflexivity.
Defined.

Example rebuild_humongous_dead :
  G1RebuildRemSetHeapRegionClosure.rebuild_rem_set_in_region RebuildExample.heap
    [0; 6] 64 64 RebuildExample.humongous_region (mkMemRegion 40 8)
  = Some (0, []).
Proof. reflexivity. Qed.

Example rebuild_old_region :
  option_map (fun res => (G1RebuildRemSetHeapRegionClosure.rr_outcome res,
                          G1RebuildRemSetHeapRegionClosure.rr_events res))
    (G1RebuildRemSetHeapRegionClosure.doHeapRegion RebuildExample.chunk_bytes
       RebuildExample.quiet_yield RebuildExample.heap RebuildExample.cm 0)
  = Some (G1RebuildRemSetHeapRegionClosure.RebuildCompleted 128,
          [EvOopIterate 0 None; EvOopIterate 6 (Some (mkMemRegion 0 8));
           EvOopIterate 6 (Some (mkMemRegion 8 8)); EvOopIterate 6 (Some (mkMemRegion 16 8));
           EvOopIterate 26 None]).
Proof. vm_compute. reflexivity. Qed.

(** ** Rebuild: the bitmap search *)

Lemma next_marked_from_spec bitmap n : ∀ addr limit,
  addr ≤ limit → n = Z.to_nat (limit - addr) →
  let r := next_marked_from bitmap n addr limit in
  addr ≤ r ≤ limit
  ∧ (∀ x, addr ≤ x < r → isMarked bitmap x = false)
  ∧ (r < limit → isMarked bitmap r = true).
Proof.
  induction n as [|n IH]; intros addr limit Hle Hn; simpl.
  - assert (addr = limit) by lia. subst. split; [lia|]. split; [intros; lia|lia].
  - destruct (Z.leb_spec limit addr) as [H|H]; [lia|].
    destruct (isMarked bitmap addr) eqn:Hm.
    + split; [lia|]. split; [intros; lia|auto].
    + destruct (IH (addr + 1) limit) as (H1 & H2 & H3); [lia|lia|].
      split; [lia|]. split; [|exact H3].
      intros x Hx. destruct (decide (x = addr)) as [->|Hne]; [exact Hm|].
      apply H2. lia.
Qed.

Lemma getNextMarkedWordAddress_spec bitmap addr limit :
  addr ≤ limit →
  let r := getNextMarkedWordAddress bitmap addr limit in
  addr ≤ r ≤ limit
  ∧ (∀ x, addr ≤ x < r → isMarked bitmap x = false)
  ∧ (r < limit → isMarked bitmap r = true).
Proof. intros H. by apply next_marked_from_spec. Qed.

(** The search finds the least marked address, or the limit. *)
Lemma getNextMarkedWordAddress_least bitmap addr limit r :
  addr ≤ r ≤ limit →
  (∀ x, addr ≤ x < r → isMarked bitmap x = false) →
  (r < limit → isMarked bitmap r = true) →
  getNextMarkedWordAddress bitmap addr limit = r.
Proof.
  intros Hr Hun Hm.
  destruct (getNextMarkedWordAddress_spec bitmap addr limit ltac:(lia)) as (H1 & H2 & H3).
  set (r' := getNextMarkedWordAddress bitmap addr limit) in *.
  destruct (Z.lt_trichotomy r' r) as [Hlt|[Heq|Hgt]]; [|exact Heq|].
  - rewrite Hun in H3 by lia. specialize (H3 ltac:(lia)). discriminate.
  - rewrite H2 in Hm by lia. specialize (Hm ltac:(lia)). discriminate.
Qed.

(** ** Rebuild: the objects of a region *)

Lemma is_obj_start_ge objs : ∀ base x,
  Forall (fun o => 0 < oop_size o) objs → is_obj_start objs base x = true → base ≤ x.
Proof.
  induction objs as [|o rest IH]; intros base x Hpos H; simpl in H; [discriminate|].
  apply Forall_cons in Hpos as [Ho Hrest].
  apply orb_true_iff in H as [H|H]; [lia|].
  specialize (IH _ _ Hrest H). lia.
Qed.

Lemma is_boundary_ge objs : ∀ base x,
  Forall (fun o => 0 < oop_size o) objs → is_boundary objs base x = true → base ≤ x.
Proof.
  induction objs as [|o rest IH]; intros base x Hpos H; simpl in H; [lia|].
  apply Forall_cons in Hpos as [Ho Hrest].
  apply orb_true_iff in H as [H|H]; [lia|].
  specialize (IH _ _ Hrest H). lia.
Qed.

Lemma is_boundary_le_total objs : ∀ base x,
  Forall (fun o => 0 < oop_size o) objs → is_boundary objs base x = true →
  x ≤ base + total_size objs.
Proof.
  induction objs as [|o rest IH]; intros base x Hpos H; simpl in *; [lia|].
  apply Forall_cons in Hpos as [Ho Hrest].
  assert (0 ≤ total_size rest).
  { clear -Hrest. induction Hrest; simpl; lia. }
  apply orb_true_iff in H as [H|H]; [lia|].
  specialize (IH _ _ Hrest H). lia.
Qed.

Section LaidOut.

Context (hr : HeapRegion) (bitmap : CMBitMap) (tams tars : Z).

Lemma laid_out_tail a o post :
  laid_out hr bitmap tams tars a (o :: post) →
  laid_out hr bitmap tams tars (a + oop_size o) post.
Proof.
  intros (Hb & Hpos & Ht & Hm & Htop).
  apply Forall_cons in Hpos as [Ho Hpost].
  split; [|split; [exact Hpost|split; [|split]]].
  - intros x Hx. rewrite Hb by lia. simpl.
    destruct (Z.ltb_spec x (a + oop_size o)); [lia|reflexivity].
  - intros Hle. specialize (Ht ltac:(lia)). simpl in Ht.
    apply orb_true_iff in Ht as [Ht|Ht]; [lia|exact Ht].
  - intros x Hx Hmx. specialize (Hm x ltac:(lia) Hmx). simpl in Hm.
    apply orb_true_iff in Hm as [Hm|Hm]; [lia|exact Hm].
  - simpl in Htop. lia.
Qed.

Lemma laid_out_head a o post :
  laid_out hr bitmap tams tars a (o :: post) →
  0 < oop_size o
  ∧ oop hr a = o
  ∧ (∀ x, a ≤ x < a + oop_size o → block_start hr x = a)
  ∧ (a < tams → a + oop_size o ≤ tams)
  ∧ (∀ x, a < x < a + oop_size o → x < tams → isMarked bitmap x = false).
Proof.
  intros (Hb & Hpos & Ht & Hm & Htop).
  apply Forall_cons in Hpos as [Ho Hpost].
  split; [exact Ho|]. split; [|split; [|split]].
  - unfold oop. rewrite Hb by lia. simpl.
    destruct (Z.ltb_spec a (a + oop_size o)); [|lia]. rewrite Z.eqb_refl. reflexivity.
  - intros x Hx. unfold block_start. rewrite Hb by lia. simpl.
    destruct (Z.ltb_spec x (a + oop_size o)); [reflexivity|lia].
  - intros Hlt. specialize (Ht ltac:(lia)). simpl in Ht.
    apply orb_true_iff in Ht as [Ht|Ht]; [lia|].
    by apply is_boundary_ge in Ht.
  - intros x Hx Hxt. destruct (isMarked bitmap x) eqn:Hmx; [|reflexivity].
    specialize (Hm x ltac:(lia) Hmx). simpl in Hm.
    apply orb_true_iff in Hm as [Hm|Hm]; [lia|].
    apply is_obj_start_ge in Hm; [lia|exact Hpost].
Qed.

Lemma laid_out_nil a : laid_out hr bitmap tams tars a [] → tars ≤ a.
Proof. intros (_ & _ & _ & _ & H). simpl in H. lia. Qed.

End LaidOut.

Lemma rebuild_ready_bounds bitmap hr tars :
  rebuild_ready bitmap hr tars = true →
  0 ≤ hr_bottom hr ∧ hr_end hr * HeapWordSize < size_t_max
  ∧ hr_bottom hr ≤ hr_next_top_at_mark_start hr
  ∧ hr_next_top_at_mark_start hr ≤ tars ∧ tars ≤ hr_end hr.
Proof.
  unfold rebuild_ready. intros H.
  apply andb_prop in H as [H _]. apply andb_prop in H as [H H5].
  apply andb_prop in H as [H H4]. apply andb_prop in H as [H H3].
  apply andb_prop in H as [H1 H2].
  apply Z.leb_le in H1, H3, H4, H5. apply Z.ltb_lt in H2. auto.
Qed.

Lemma rebuild_ready_laid_out bitmap hr tars :
  rebuild_ready bitmap hr tars = true → isHumongous hr = false →
  laid_out hr bitmap (hr_next_top_at_mark_start hr) tars (hr_bottom hr) (hr_objects hr).
Proof.
  unfold rebuild_ready. intros H Hh. rewrite Hh in H.
  apply andb_prop in H as [_ H]. apply andb_prop in H as [H Hmarks].
  apply andb_prop in H as [H Htars]. apply andb_prop in H as [Hpos Htams].
  assert (Hpos' : Forall (fun o => 0 < oop_size o) (hr_objects hr)).
  { apply Forall_forall. intros o Ho. rewrite forallb_forall in Hpos.
    apply Z.ltb_lt, Hpos, list_elem_of_In, Ho. }
  split; [auto|]. split; [exact Hpos'|]. split; [auto|]. split.
  - intros x Hx Hm. rewrite forallb_forall in Hmarks.
    unfold isMarked in Hm. apply bool_decide_eq_true in Hm.
    apply list_elem_of_In in Hm. specialize (Hmarks x Hm).
    destruct (Z.leb_spec (hr_bottom hr) x); [|lia].
    destruct (Z.ltb_spec x (hr_next_top_at_mark_start hr)); [|lia].
    exact Hmarks.
  - by apply is_boundary_le_total in Htars.
Qed.

(** ** Rebuild: one chunk of an ordinary region *)

Lemma MIN2_min a b : MIN2 a b = Z.min a b.
Proof. unfold MIN2. destruct (Z.ltb_spec a b); lia. Qed.

Lemma MAX2_max a b : MAX2 a b = Z.max a b.
Proof. unfold MAX2. destruct (Z.ltb_spec a b); lia. Qed.

Lemma size_t_wrap_small n : 0 ≤ n < size_t_max → size_t_wrap n = n.
Proof. intros H. unfold size_t_wrap. apply Z.mod_small. exact H. Qed.

Lemma size_t_add_small a b : 0 ≤ a + b < size_t_max → size_t_add a b = a + b.
Proof. apply size_t_wrap_small. Qed.

Lemma size_t_mul_small a b : 0 ≤ a * b < size_t_max → size_t_mul a b = a * b.
Proof. apply size_t_wrap_small. Qed.

Lemma mr_intersection_word_size a b :
  mr_word_size (mr_intersection a b)
  = Z.max 0 (Z.min (mr_end a) (mr_end b) - Z.max (mr_start a) (mr_start b)).
Proof.
  unfold mr_intersection. rewrite MIN2_min, MAX2_max.
  destruct (Z.ltb_spec (Z.max (mr_start a) (mr_start b)) (Z.min (mr_end a) (mr_end b)));
    simpl; lia.
Qed.

Lemma scanned_words_bounds mr o s :
  0 < oop_size o → 0 ≤ scanned_words mr o s ≤ oop_size o.
Proof.
  intros Ho. unfold scanned_words.
  destruct (negb (oop_is_objArray o) || mr_contains mr (mkMemRegion s (oop_size o)));
    [lia|].
  rewrite mr_intersection_word_size. unfold mr_end. simpl. lia.
Qed.

Lemma chunk_words_nonneg bitmap tams mr suf : ∀ a,
  Forall (fun o => 0 < oop_size o) suf → 0 ≤ chunk_words bitmap tams mr suf a.
Proof.
  induction suf as [|o post IH]; intros a Hpos; simpl; [lia|].
  apply Forall_cons in Hpos as [Ho Hpost]. specialize (IH (a + oop_size o) Hpost).
  pose proof (scanned_words_bounds mr o a Ho).
  destruct ((a <? mr_end mr) && (a <? tams) && isMarked bitmap a); lia.
Qed.

Lemma chunk_words_beyond bitmap tams mr suf : ∀ a,
  Forall (fun o => 0 < oop_size o) suf → mr_end mr ≤ a →
  chunk_words bitmap tams mr suf a = 0.
Proof.
  induction suf as [|o post IH]; intros a Hpos Ha; simpl; [reflexivity|].
  apply Forall_cons in Hpos as [Ho Hpost].
  rewrite IH by (auto; lia).
  destruct (Z.ltb_spec a (mr_end mr)); [lia|]. reflexivity.
Qed.

Section RebuildChunk.

Import G1RebuildRemSetHeapRegionClosure.

Context (hr : HeapRegion) (bitmap : CMBitMap) (tams tars : Z) (mr : MemRegion).
Context (Hmr : mr_end mr ≤ tars).

#[local] Abbreviation iterator_at a := (mkLiveObjIterator bitmap tams mr a).

Lemma move_if_below_tams_stay a :
  tams ≤ a ∨ mr_end mr ≤ a →
  move_if_below_tams (iterator_at a) = iterator_at a.
Proof.
  intros H. unfold move_if_below_tams, is_below_tams, has_next. simpl.
  destruct (Z.ltb_spec a tams); destruct (Z.ltb_spec a (mr_end mr)); simpl;
    try reflexivity; lia.
Qed.

Lemma move_if_below_tams_search a :
  a < tams → a < mr_end mr →
  move_if_below_tams (iterator_at a)
  = iterator_at (getNextMarkedWordAddress bitmap a (Z.min tams (mr_end mr))).
Proof.
  intros H1 H2. unfold move_if_below_tams, is_below_tams, has_next, bitmap_limit. simpl.
  destruct (Z.ltb_spec a tams); [|lia]. destruct (Z.ltb_spec a (mr_end mr)); [|lia].
  simpl. rewrite MIN2_min. reflexivity.
Qed.

Lemma move_if_below_tams_stay_marked a :
  isMarked bitmap a = true → a < mr_end mr →
  move_if_below_tams (iterator_at a) = iterator_at a.
Proof.
  intros Hm Ha. destruct (Z.lt_ge_cases a tams).
  - rewrite move_if_below_tams_search by lia.
    rewrite (getNextMarkedWordAddress_least bitmap a _ a); [reflexivity|lia|intros; lia|auto].
  - apply move_if_below_tams_stay. lia.
Qed.

Lemma live_objects_do_done fuel a mw evs :
  mr_end mr ≤ a →
  live_objects_do (S fuel) hr tams mr (iterator_at a) mw evs = Some (mw, evs).
Proof.
  intros H. simpl. unfold has_next. simpl.
  destruct (Z.ltb_spec a (mr_end mr)); [lia|reflexivity].
Qed.

Lemma live_objects_do_step fuel a o mw evs :
  a < mr_end mr → oop hr a = o →
  live_objects_do (S fuel) hr tams mr (iterator_at a) mw evs
  = live_objects_do fuel hr tams mr
      (move_if_below_tams (iterator_at (a + oop_size o)))
      (if a <? tams then size_t_add mw (scanned_words mr o a) else mw)
      (evs ++ (scan_for_references hr a mr).2).
Proof.
  intros H Ho. simpl. unfold has_next. simpl.
  destruct (Z.ltb_spec a (mr_end mr)); [|lia].
  unfold next, move_to_next, next. simpl.
  unfold scan_for_references, scanned_words. rewrite Ho.
  destruct (negb (oop_is_objArray o) || mr_contains mr (mkMemRegion a (oop_size o)));
    reflexivity.
Qed.

(** The loop, started at the start [a] of the objects [suf] after the
    iterator has settled there, adds the words of the chunk. *)
Lemma live_objects_do_spec suf : ∀ a fuel mw evs,
  laid_out hr bitmap tams tars a suf →
  (Z.to_nat (mr_end mr - a) < fuel)%nat →
  0 ≤ mw → mw + chunk_words bitmap tams mr suf a < size_t_max →
  ∃ evs',
    live_objects_do fuel hr tams mr (move_if_below_tams (iterator_at a)) mw evs
    = Some (mw + chunk_words bitmap tams mr suf a, evs').
Proof.
  induction suf as [|o post IH]; intros a fuel mw evs Hlay Hfuel Hmw Hbound.
  { apply laid_out_nil in Hlay.
    rewrite move_if_below_tams_stay by lia.
    destruct fuel as [|fuel]; [lia|].
    rewrite live_objects_do_done by lia. simpl. rewrite Z.add_0_r. eauto. }
  pose proof (laid_out_tail _ _ _ _ _ _ _ Hlay) as Htail.
  destruct (laid_out_head _ _ _ _ _ _ _ Hlay) as (Ho & Hoop & _ & Hbelow & Hinner).
  assert (Hpost : Forall (fun o => 0 < oop_size o) post) by apply Htail.
  pose proof (chunk_words_nonneg bitmap tams mr post (a + oop_size o) Hpost) as Hnn.
  pose proof (scanned_words_bounds mr o a Ho) as Hsw.
  simpl in Hbound |- *.
  destruct (Z.ltb_spec a (mr_end mr)) as [Hae|Hae]; cycle 1.
  { (* beyond the chunk *)
    rewrite move_if_below_tams_stay by lia.
    destruct fuel as [|fuel]; [lia|].
    rewrite live_objects_do_done by lia. simpl.
    rewrite chunk_words_beyond by (auto; lia). rewrite !Z.add_0_r. eauto. }
  destruct (Z.ltb_spec a tams) as [Hat|Hat]; cycle 1.
  { (* at or above TAMS: live, not counted *)
    rewrite move_if_below_tams_stay by lia.
    destruct fuel as [|fuel]; [lia|].
    rewrite (live_objects_do_step fuel a o) by assumption.
    destruct (Z.ltb_spec a tams); [lia|]. simpl in Hbound |- *.
    apply IH; [exact Htail|lia|exact Hmw|lia]. }
  rewrite move_if_below_tams_search by assumption.
  simpl in Hbound |- *.
  destruct (isMarked bitmap a) eqn:Hma.
  - (* a marked object *)
    rewrite (getNextMarkedWordAddress_least bitmap a _ a); [|lia|intros; lia|auto].
    destruct fuel as [|fuel]; [lia|].
    rewrite (live_objects_do_step fuel a o) by assumption.
    destruct (Z.ltb_spec a tams); [|lia].
    rewrite size_t_add_small by lia.
    destruct (IH (a + oop_size o) fuel (mw + scanned_words mr o a)
                (evs ++ (scan_for_references hr a mr).2)) as [evs' Hevs'];
      [exact Htail|lia|lia|lia|].
    exists evs'. rewrite Hevs'. f_equal; f_equal; lia.
  - (* a dead object: the bitmap search passes over it *)
    specialize (Hbelow Hat).
    destruct (Z.le_gt_cases (a + oop_size o) (Z.min tams (mr_end mr))) as [Hin|Hout].
    + assert (Hskip : getNextMarkedWordAddress bitmap a (Z.min tams (mr_end mr))
                      = getNextMarkedWordAddress bitmap (a + oop_size o)
                          (Z.min tams (mr_end mr))).
      { destruct (getNextMarkedWordAddress_spec bitmap (a + oop_size o)
                    (Z.min tams (mr_end mr)) Hin) as (H1 & H2 & H3).
        apply getNextMarkedWordAddress_least; [lia| |exact H3].
        intros x Hx. destruct (decide (x = a)) as [->|Hne]; [exact Hma|].
        destruct (Z.lt_ge_cases x (a + oop_size o)).
        - apply Hinner; lia.
        - apply H2. lia. }
      rewrite Hskip.
      assert (Hsame : iterator_at (getNextMarkedWordAddress bitmap (a + oop_size o)
                                     (Z.min tams (mr_end mr)))
                      = move_if_below_tams (iterator_at (a + oop_size o))).
      { destruct (Z.lt_ge_cases (a + oop_size o) (Z.min tams (mr_end mr))).
        - rewrite move_if_below_tams_search by lia. reflexivity.
        - rewrite move_if_below_tams_stay by lia.
          rewrite (getNextMarkedWordAddress_least bitmap _ _ (a + oop_size o));
            [reflexivity|lia|intros; lia|lia]. }
      rewrite Hsame.
      destruct (IH (a + oop_size o) fuel mw evs) as [evs' Hevs'];
        [exact Htail|lia|lia|lia|].
      exists evs'. rewrite Hevs'. f_equal; f_equal; lia.
    + rewrite (getNextMarkedWordAddress_least bitmap a _ (mr_end mr)); [|lia| |lia].
      * destruct fuel as [|fuel]; [lia|].
        rewrite live_objects_do_done by lia.
        rewrite chunk_words_beyond by (auto; lia). rewrite !Z.add_0_r. eauto.
      * intros x Hx. destruct (decide (x = a)) as [->|Hne]; [exact Hma|].
        apply Hinner; lia.
Qed.

End RebuildChunk.

Lemma mr_contains_spec mr s size_ :
  mr_contains mr (mkMemRegion s size_)
  = (mr_start mr <=? s) && (s + size_ <=? mr_end mr).
Proof. reflexivity. Qed.

(** What the loop adds for an object that starts in the chunk, or for an
    object array that reaches into it, is what the chunk covers of it. *)
Lemma head_words mr o a :
  0 < oop_size o → mr_start mr < mr_end mr →
  mr_start mr ≤ a ∨ (oop_is_objArray o = true ∧ a < mr_start mr < a + oop_size o) →
  (if a <? mr_end mr then scanned_words mr o a else 0)
  = covered_words o a (mr_end mr) - covered_words o a (mr_start mr).
Proof.
  intros Ho Hmr Ha. unfold scanned_words, covered_words.
  rewrite mr_contains_spec, mr_intersection_word_size.
  change (mr_end (mkMemRegion a (oop_size o))) with (a + oop_size o).
  change (mr_start (mkMemRegion a (oop_size o))) with a.
  set (c := mr_start mr) in *. set (e := mr_end mr) in *.
  destruct (oop_is_objArray o); cbn [negb orb].
  - destruct (Z.ltb_spec a e); destruct (Z.leb_spec c a);
      destruct (Z.leb_spec (a + oop_size o) e); cbn [andb]; lia.
  - destruct Ha as [Ha|[? _]]; [|discriminate].
    destruct (Z.ltb_spec a e); destruct (Z.ltb_spec a c); lia.
Qed.

Lemma covered_words_before o s c e :
  0 < oop_size o → s + oop_size o ≤ c → c < e →
  covered_words o s e - covered_words o s c = 0.
Proof.
  intros Ho Hs Hce. unfold covered_words. destruct (oop_is_objArray o); [lia|].
  destruct (Z.ltb_spec s e); destruct (Z.ltb_spec s c); lia.
Qed.

Lemma chunk_words_counted bitmap tams mr suf : ∀ a,
  Forall (fun o => 0 < oop_size o) suf → mr_start mr < mr_end mr → mr_start mr ≤ a →
  chunk_words bitmap tams mr suf a
  = counted_upto bitmap tams suf a (mr_end mr) - counted_upto bitmap tams suf a (mr_start mr).
Proof.
  induction suf as [|o post IH]; intros a Hpos Hmr Ha; simpl; [reflexivity|].
  apply Forall_cons in Hpos as [Ho Hpost].
  rewrite IH by (auto; lia).
  pose proof (head_words mr o a Ho Hmr (or_introl Ha)) as Hh.
  destruct (Z.ltb_spec a (mr_end mr)); destruct (a <? tams); destruct (isMarked bitmap a);
    simpl; lia.
Qed.

Lemma chunk_words_le hr bitmap tams tars mr suf : ∀ a,
  laid_out hr bitmap tams tars a suf →
  chunk_words bitmap tams mr suf a ≤ Z.max 0 (tams - a).
Proof.
  induction suf as [|o post IH]; intros a Hlay; simpl; [lia|].
  pose proof (laid_out_tail _ _ _ _ _ _ _ Hlay) as Htail.
  destruct (laid_out_head _ _ _ _ _ _ _ Hlay) as (Ho & _ & _ & Hbelow & _).
  specialize (IH _ Htail). pose proof (scanned_words_bounds mr o a Ho).
  destruct (Z.ltb_spec a tams); [specialize (Hbelow ltac:(lia))|];
    destruct ((a <? mr_end mr)); destruct (isMarked bitmap a); simpl; lia.
Qed.

Section RebuildRegion.

Import G1RebuildRemSetHeapRegionClosure.

#[local] Arguments live_objects_do : simpl never.

Context (hr : HeapRegion) (bitmap : CMBitMap) (tams tars : Z) (mr : MemRegion).
Context (Hbottom : hr_bottom hr ≤ tams).
Context (Hsize : (tams - hr_bottom hr) * HeapWordSize < size_t_max).
Context (Hmr : mr_start mr < mr_end mr) (Hend : mr_end mr ≤ tars).

(** The iterator and the loop of [rebuild_rem_set_in_region], with the
    objects [l] from [base] on still ahead of the chunk's start. *)
Lemma live_objects_in_chunk l : ∀ base,
  laid_out hr bitmap tams tars base l →
  hr_bottom hr ≤ base ≤ mr_start mr →
  ∃ evs,
    live_objects_do (S (Z.to_nat (mr_end mr - hr_bottom hr))) hr tams mr
      (new_LiveObjIterator hr bitmap tams mr (block_start hr (mr_start mr))) 0 []
    = Some (counted_upto bitmap tams l base (mr_end mr)
            - counted_upto bitmap tams l base (mr_start mr), evs).
Proof.
  induction l as [|o post IH]; intros base Hlay Hbase.
  { apply laid_out_nil in Hlay. lia. }
  pose proof (laid_out_tail _ _ _ _ _ _ _ Hlay) as Htail.
  destruct (laid_out_head _ _ _ _ _ _ _ Hlay) as (Ho & Hoop & Hblock & Hbelow & _).
  assert (Hpost : Forall (fun o => 0 < oop_size o) post) by apply Htail.
  simpl.
  destruct (Z.le_gt_cases (base + oop_size o) (mr_start mr)) as [Hbefore|Hin].
  { (* the object ends before the chunk *)
    destruct (IH (base + oop_size o) Htail ltac:(lia)) as [evs Hevs].
    exists evs. rewrite Hevs. f_equal. f_equal.
    pose proof (covered_words_before o base (mr_start mr) (mr_end mr) Ho Hbefore Hmr).
    destruct ((base <? tams) && isMarked bitmap base); lia. }
  (* the object holds the chunk's start *)
  rewrite (Hblock (mr_start mr)) by lia.
  pose proof (chunk_words_le hr bitmap tams tars mr (o :: post) base Hlay) as Hle1.
  pose proof (chunk_words_le hr bitmap tams tars mr post _ Htail) as Hle2.
  pose proof (chunk_words_counted bitmap tams mr post (base + oop_size o) Hpost Hmr
                ltac:(lia)) as Hcount.
  unfold HeapWordSize in Hsize.
  unfold new_LiveObjIterator, is_live, is_below_tams, bitmap_limit, set_current. simpl.
  rewrite Hoop.
  destruct (Z.ltb_spec base tams) as [Hbt|Hbt]; simpl.
  - destruct (isMarked bitmap base) eqn:Hm; simpl.
    + destruct (Z.ltb_spec base (mr_start mr)) as [Hbc|Hbc];
        destruct (oop_is_objArray o) eqn:Harr; simpl.
      * (* a marked object array that reaches into the chunk *)
        rewrite <- (move_if_below_tams_stay_marked bitmap tams mr base) by (auto; lia).
        destruct (live_objects_do_spec hr bitmap tams tars mr Hend (o :: post) base
                    (S (Z.to_nat (mr_end mr - hr_bottom hr))) 0 [] Hlay)
          as [evs Hevs]; [lia|lia|lia|].
        exists evs. rewrite Hevs. f_equal. f_equal. simpl. rewrite Hcount.
        pose proof (head_words mr o base Ho Hmr
                      (or_intror (conj Harr (conj Hbc Hin)))) as Hh.
        destruct (Z.ltb_spec base (mr_end mr)); [|lia].
        destruct (Z.ltb_spec base tams); [|lia]. rewrite Hm. simpl. lia.
      * (* a marked object of another kind: scanned with the chunk before *)
        destruct (live_objects_do_spec hr bitmap tams tars mr Hend post
                    (base + oop_size o) (S (Z.to_nat (mr_end mr - hr_bottom hr))) 0 []
                    Htail) as [evs Hevs]; [lia|lia|lia|].
        exists evs. rewrite Hevs. f_equal. f_equal. rewrite Hcount.
        unfold covered_words. rewrite Harr.
        destruct (Z.ltb_spec base (mr_end mr)); [|lia].
        destruct (Z.ltb_spec base (mr_start mr)); lia.
      * rewrite <- (move_if_below_tams_stay_marked bitmap tams mr base) by (auto; lia).
        destruct (live_objects_do_spec hr bitmap tams tars mr Hend (o :: post) base
                    (S (Z.to_nat (mr_end mr - hr_bottom hr))) 0 [] Hlay)
          as [evs Hevs]; [lia|lia|lia|].
        exists evs. rewrite Hevs. f_equal. f_equal. simpl. rewrite Hcount.
        pose proof (head_words mr o base Ho Hmr (or_introl Hbc)) as Hh.
        destruct (Z.ltb_spec base (mr_end mr)); [|lia].
        destruct (Z.ltb_spec base tams); [|lia]. rewrite Hm. simpl. lia.
      * rewrite <- (move_if_below_tams_stay_marked bitmap tams mr base) by (auto; lia).
        destruct (live_objects_do_spec hr bitmap tams tars mr Hend (o :: post) base
                    (S (Z.to_nat (mr_end mr - hr_bottom hr))) 0 [] Hlay)
          as [evs Hevs]; [lia|lia|lia|].
        exists evs. rewrite Hevs. f_equal. f_equal. simpl. rewrite Hcount.
        pose proof (head_words mr o base Ho Hmr (or_introl Hbc)) as Hh.
        destruct (Z.ltb_spec base (mr_end mr)); [|lia].
        destruct (Z.ltb_spec base tams); [|lia]. rewrite Hm. simpl. lia.
    + (* a dead object: the search starts here *)
      rewrite MIN2_min.
      rewrite <- (move_if_below_tams_search bitmap tams mr base) by lia.
      destruct (live_objects_do_spec hr bitmap tams tars mr Hend (o :: post) base
                  (S (Z.to_nat (mr_end mr - hr_bottom hr))) 0 [] Hlay)
        as [evs Hevs]; [lia|lia|lia|].
      exists evs. rewrite Hevs. f_equal. f_equal. simpl. rewrite Hcount, Hm.
      rewrite !andb_false_r. lia.
  - (* at or above TAMS *)
    assert (Hcw : chunk_words bitmap tams mr (o :: post) base
                  = chunk_words bitmap tams mr post (base + oop_size o)).
    { simpl. destruct (Z.ltb_spec base tams); [lia|]. rewrite andb_false_r. reflexivity. }
    destruct ((base <? mr_start mr) && negb (oop_is_objArray o)).
    + destruct (live_objects_do_spec hr bitmap tams tars mr Hend post
                  (base + oop_size o) (S (Z.to_nat (mr_end mr - hr_bottom hr))) 0 []
                  Htail) as [evs Hevs]; [lia|lia|lia|].
      exists evs. rewrite Hevs. f_equal. f_equal. lia.
    + rewrite <- (move_if_below_tams_stay bitmap tams mr base) by lia.
      destruct (live_objects_do_spec hr bitmap tams tars mr Hend (o :: post) base
                  (S (Z.to_nat (mr_end mr - hr_bottom hr))) 0 [] Hlay)
        as [evs Hevs]; [lia|lia|lia|].
      exists evs. rewrite Hevs, Hcw. f_equal. f_equal. lia.
Qed.

End RebuildRegion.

(** ** Rebuild: what the chunks of a region add up to *)

Lemma covered_words_bounds o s x y :
  0 < oop_size o → x ≤ y →
  0 ≤ covered_words o s x ≤ covered_words o s y ∧ covered_words o s y ≤ oop_size o.
Proof.
  intros Ho Hxy. unfold covered_words. destruct (oop_is_objArray o); [lia|].
  destruct (Z.ltb_spec s x); destruct (Z.ltb_spec s y); lia.
Qed.

Lemma counted_upto_mono bitmap tams l : ∀ base x y,
  Forall (fun o => 0 < oop_size o) l → x ≤ y →
  0 ≤ counted_upto bitmap tams l base x ≤ counted_upto bitmap tams l base y.
Proof.
  induction l as [|o post IH]; intros base x y Hpos Hxy; simpl; [lia|].
  apply Forall_cons in Hpos as [Ho Hpost].
  specialize (IH (base + oop_size o) x y Hpost Hxy).
  pose proof (covered_words_bounds o base x y Ho Hxy).
  destruct ((base <? tams) && isMarked bitmap base); lia.
Qed.

Lemma counted_upto_start bitmap tams l : ∀ base x,
  Forall (fun o => 0 < oop_size o) l → x ≤ base →
  counted_upto bitmap tams l base x = 0.
Proof.
  induction l as [|o post IH]; intros base x Hpos Hx; simpl; [reflexivity|].
  apply Forall_cons in Hpos as [Ho Hpost]. rewrite IH by (auto; lia).
  unfold covered_words.
  destruct ((base <? tams) && isMarked bitmap base); [|reflexivity].
  destruct (oop_is_objArray o); [lia|]. destruct (Z.ltb_spec base x); lia.
Qed.

Lemma counted_upto_all hr bitmap tams tars l : ∀ base x,
  laid_out hr bitmap tams tars base l → tams ≤ x →
  counted_upto bitmap tams l base x = marked_words_below bitmap tams l base
  ∧ marked_words_below bitmap tams l base ≤ Z.max 0 (tams - base).
Proof.
  induction l as [|o post IH]; intros base x Hlay Hx; simpl; [lia|].
  pose proof (laid_out_tail _ _ _ _ _ _ _ Hlay) as Htail.
  destruct (laid_out_head _ _ _ _ _ _ _ Hlay) as (Ho & _ & _ & Hbelow & _).
  destruct (IH _ x Htail Hx) as [-> Hle].
  unfold covered_words.
  destruct (Z.ltb_spec base tams) as [Hbt|Hbt]; simpl; [|lia].
  specialize (Hbelow Hbt).
  destruct (isMarked bitmap base); [|lia].
  destruct (oop_is_objArray o); [lia|]. destruct (Z.ltb_spec base x); lia.
Qed.

Section RebuildRegionChunks.

Import G1RebuildRemSetHeapRegionClosure.

Context (G1RebuildRemSetChunkSize : Z) (do_yield_check : ConcurrentMark → ConcurrentMark).
Context (st : G1State) (region_idx : nat) (hr : HeapRegion) (bitmap : CMBitMap) (tars : Z).
Context (Hchunk : 0 < G1RebuildRemSetChunkSize / HeapWordSize).
Context (Hbounds : hr_bottom hr ≤ tars ≤ hr_end hr).
Context (Hyield : ∀ cm, rebuild_undisturbed region_idx tars bitmap cm →
                        rebuild_undisturbed region_idx tars bitmap (do_yield_check cm)).

(* the bytes the chunks below an address add up to *)
Context (counted : Z → Z).
Context (Hcounted_mono : ∀ x y, hr_bottom hr ≤ x ≤ y → y ≤ tars → 0 ≤ counted x ≤ counted y).
Context (Hcounted_max : counted tars < size_t_max).
Context (Hchunk_counts : ∀ c e, hr_bottom hr ≤ c → c < e → e ≤ tars →
           ∃ evs, rebuild_rem_set_in_region st bitmap (hr_next_top_at_mark_start hr) tars hr
                    (MemRegion_of c e)
                  = Some (counted e - counted c, evs)).

Lemma doHeapRegion_chunks_complete : ∀ fuel cur total cm evs,
  hr_bottom hr ≤ cur →
  rebuild_undisturbed region_idx tars bitmap cm →
  total = counted (Z.min cur tars) →
  (Z.to_nat (hr_end hr - cur) < fuel)%nat →
  ∃ res,
    doHeapRegion_chunks G1RebuildRemSetChunkSize do_yield_check fuel st region_idx hr
      cur total cm evs = Some res
    ∧ rr_outcome res = RebuildCompleted (counted tars)
    ∧ rr_return res = false
    ∧ rebuild_undisturbed region_idx tars bitmap (rr_cm res).
Proof.
  induction fuel as [|fuel IH]; intros cur total cm evs Hcur Hcm Htotal Hfuel; [lia|].
  pose proof Hcm as (Hab & Htars & Hbm).
  assert (Hfinish : tars ≤ cur →
            ∃ res,
              Some (mkRebuildResult (has_aborted cm) (RebuildCompleted total) cm evs)
              = Some res
              ∧ rr_outcome res = RebuildCompleted (counted tars)
              ∧ rr_return res = false
              ∧ rebuild_undisturbed region_idx tars bitmap (rr_cm res)).
  { intros Hle. eexists. split; [reflexivity|]. simpl.
    rewrite Htotal, Z.min_r by lia. auto. }
  simpl. destruct (Z.ltb_spec cur (hr_end hr)) as [Hlt|Hge]; [|apply Hfinish; lia].
  rewrite Htars.
  set (cw := G1RebuildRemSetChunkSize / HeapWordSize) in *.
  assert (Hchunk_mr : mr_intersection (MemRegion_of (hr_bottom hr) tars) (mkMemRegion cur cw)
                      = if cur <? tars then MemRegion_of cur (Z.min tars (cur + cw))
                        else mr_empty).
  { unfold mr_intersection. rewrite MAX2_max, MIN2_min. unfold MemRegion_of, mr_end. simpl.
    replace (hr_bottom hr + (tars - hr_bottom hr)) with tars by lia.
    rewrite Z.max_r by lia.
    destruct (Z.ltb_spec cur (Z.min tars (cur + cw)));
      destruct (Z.ltb_spec cur tars); try reflexivity; lia. }
  rewrite Hchunk_mr.
  destruct (Z.ltb_spec cur tars) as [Hct|Hct]; [|apply Hfinish; lia].
  assert (Hne : mr_is_empty (MemRegion_of cur (Z.min tars (cur + cw))) = false).
  { unfold mr_is_empty, MemRegion_of. simpl. apply Z.eqb_neq. lia. }
  rewrite Hne, Hbm.
  destruct (Hchunk_counts cur (Z.min tars (cur + cw))) as [e He]; [lia|lia|lia|].
  rewrite He.
  pose proof (Hcounted_mono cur (Z.min tars (cur + cw)) ltac:(lia) ltac:(lia)) as Hm1.
  pose proof (Hcounted_mono (Z.min tars (cur + cw)) tars ltac:(lia) ltac:(lia)) as Hm2.
  rewrite Z.min_l in Htotal by lia.
  assert (Htotal' : (if 0 <? counted (Z.min tars (cur + cw)) - counted cur
                     then size_t_add total (counted (Z.min tars (cur + cw)) - counted cur)
                     else total)
                    = counted (Z.min (cur + cw) tars)).
  { rewrite (Z.min_comm (cur + cw)).
    destruct (Z.ltb_spec 0 (counted (Z.min tars (cur + cw)) - counted cur)); [|lia].
    rewrite size_t_add_small by lia. lia. }
  rewrite Htotal'.
  pose proof (Hyield cm Hcm) as Hcm'. pose proof Hcm' as (Hab' & _).
  rewrite Hab'.
  apply IH; [lia|exact Hcm'|reflexivity|lia].
Qed.

End RebuildRegionChunks.

Lemma rebuild_rem_set_in_region_ordinary st bitmap tars hr c e :
  isHumongous hr = false → rebuild_ready bitmap hr tars = true →
  hr_bottom hr ≤ c → c < e → e ≤ tars →
  let tams := hr_next_top_at_mark_start hr in
  let counted x := counted_upto bitmap tams (hr_objects hr) (hr_bottom hr) x * HeapWordSize in
  ∃ evs,
    G1RebuildRemSetHeapRegionClosure.rebuild_rem_set_in_region st bitmap tams tars hr
      (MemRegion_of c e)
    = Some (counted e - counted c, evs).
Proof.
  intros Hh Hready Hc Hce He tams counted. subst counted.
  pose proof (rebuild_ready_laid_out _ _ _ Hready Hh) as Hlay. fold tams in Hlay.
  destruct (rebuild_ready_bounds _ _ _ Hready) as (H0 & Hmax & Hbt & Htt & Hte).
  fold tams in Hbt, Htt.
  assert (Hpos : Forall (fun o => 0 < oop_size o) (hr_objects hr)) by apply Hlay.
  unfold G1RebuildRemSetHeapRegionClosure.rebuild_rem_set_in_region. rewrite Hh.
  assert (Hmre : mr_end (MemRegion_of c e) = e) by (unfold mr_end, MemRegion_of; simpl; lia).
  unfold HeapWordSize in *.
  destruct (live_objects_in_chunk hr bitmap tams tars (MemRegion_of c e)) with
    (l := hr_objects hr) (base := hr_bottom hr) as [evs Hevs];
    [lia|unfold HeapWordSize; lia|rewrite Hmre; simpl; lia|rewrite Hmre; lia|exact Hlay
    |simpl; lia|].
  change (mr_start (MemRegion_of c e)) with c in *. rewrite Hevs, Hmre.
  exists evs. f_equal. f_equal.
  pose proof (counted_upto_mono bitmap tams (hr_objects hr) (hr_bottom hr) c e Hpos
                ltac:(lia)) as Hm1.
  pose proof (counted_upto_mono bitmap tams (hr_objects hr) (hr_bottom hr) e (Z.max e tams)
                Hpos ltac:(lia)) as Hm2.
  destruct (counted_upto_all hr bitmap tams tars (hr_objects hr) (hr_bottom hr)
              (Z.max e tams) Hlay ltac:(lia)) as [Heq Hle].
  rewrite size_t_mul_small by (unfold size_t_max in *; lia). lia.
Qed.

Lemma rebuild_rem_set_in_region_humongous st bitmap tars hr c e :
  isHumongous hr = true → rebuild_ready bitmap hr tars = true →
  hr_bottom hr ≤ c → c < e → e ≤ tars →
  let tams := hr_next_top_at_mark_start hr in
  let humongous_obj := hr_bottom (region st (hr_humongous_start_region hr)) in
  let counted x :=
    if G1RebuildRemSetHeapRegionClosure.is_humongous_live humongous_obj bitmap tams tars
       && bool_decide (tams ≠ hr_bottom hr)
    then (x - hr_bottom hr) * HeapWordSize else 0 in
  ∃ evs,
    G1RebuildRemSetHeapRegionClosure.rebuild_rem_set_in_region st bitmap tams tars hr
      (MemRegion_of c e)
    = Some (counted e - counted c, evs).
Proof.
  intros Hh Hready Hc Hce He tams humongous_obj counted. subst counted.
  destruct (rebuild_ready_bounds _ _ _ Hready) as (H0 & Hmax & Hbt & Htt & Hte).
  unfold G1RebuildRemSetHeapRegionClosure.rebuild_rem_set_in_region. rewrite Hh.
  fold humongous_obj. fold tams.
  destruct (G1RebuildRemSetHeapRegionClosure.is_humongous_live humongous_obj bitmap tams tars);
    simpl; [|exists []; reflexivity].
  destruct (bool_decide (tams ≠ hr_bottom hr)); [|eexists; reflexivity].
  eexists. f_equal. f_equal. unfold mr_byte_size, MemRegion_of. simpl.
  unfold HeapWordSize in *.
  rewrite size_t_mul_small by (unfold size_t_max in *; lia). lia.
Qed.

(** C7: a region that is ready for the rebuild and whose rebuild meets no
    abort and no reclaim at its yield points runs to the end of its loop,
    and the marked bytes the chunks add up to are the marked bytes the mark
    phase recorded for the region, so that the condition of the closing
    assertion holds. *)
Theorem rebuild_marked_bytes_match G1RebuildRemSetChunkSize do_yield_check st cm
    region_idx tars :
  let hr := region st region_idx in
  let bitmap := nextMarkBitMap cm in
  0 < G1RebuildRemSetChunkSize / HeapWordSize →
  rebuild_ready bitmap hr tars = true →
  hr_next_marked_bytes hr = marked_bytes_below_tams st bitmap hr →
  rebuild_undisturbed region_idx tars bitmap cm →
  (∀ cm', rebuild_undisturbed region_idx tars bitmap cm' →
          rebuild_undisturbed region_idx tars bitmap (do_yield_check cm')) →
  ∃ res,
    G1RebuildRemSetHeapRegionClosure.doHeapRegion G1RebuildRemSetChunkSize do_yield_check
      st cm region_idx = Some res
    ∧ G1RebuildRemSetHeapRegionClosure.rr_outcome res
      = G1RebuildRemSetHeapRegionClosure.RebuildCompleted (hr_next_marked_bytes hr)
    ∧ G1RebuildRemSetHeapRegionClosure.rr_return res = false
    ∧ top_at_rebuild_start (G1RebuildRemSetHeapRegionClosure.rr_cm res) region_idx
      = Some tars
    ∧ G1RebuildRemSetHeapRegionClosure.marked_bytes_match hr region_idx res = true.
Proof.
  intros hr bitmap Hchunk Hready Hrecorded Hcm Hyield.
  destruct (rebuild_ready_bounds _ _ _ Hready) as (H0 & Hmax & Hbt & Htt & Hte).
  pose proof Hcm as (Hab & _).
  unfold G1RebuildRemSetHeapRegionClosure.doHeapRegion. fold hr. rewrite Hab.
  assert (Hgoal : ∀ counted : Z → Z,
            counted (hr_bottom hr) = 0 →
            (∀ x y, hr_bottom hr ≤ x ≤ y → y ≤ tars → 0 ≤ counted x ≤ counted y) →
            counted tars < size_t_max →
            (∀ c e, hr_bottom hr ≤ c → c < e → e ≤ tars →
               ∃ evs, G1RebuildRemSetHeapRegionClosure.rebuild_rem_set_in_region st bitmap
                        (hr_next_top_at_mark_start hr) tars hr (MemRegion_of c e)
                      = Some (counted e - counted c, evs)) →
            counted tars = hr_next_marked_bytes hr →
            ∃ res,
              G1RebuildRemSetHeapRegionClosure.doHeapRegion_chunks G1RebuildRemSetChunkSize
                do_yield_check (S (Z.to_nat (hr_end hr - hr_bottom hr))) st region_idx hr
                (hr_bottom hr) 0 cm [] = Some res
              ∧ G1RebuildRemSetHeapRegionClosure.rr_outcome res
                = G1RebuildRemSetHeapRegionClosure.RebuildCompleted (hr_next_marked_bytes hr)
              ∧ G1RebuildRemSetHeapRegionClosure.rr_return res = false
              ∧ top_at_rebuild_start (G1RebuildRemSetHeapRegionClosure.rr_cm res) region_idx
                = Some tars
              ∧ G1RebuildRemSetHeapRegionClosure.marked_bytes_match hr region_idx res = true).
  { intros counted Hc0 Hmono Hcmax Hchunks Hfinal.
    destruct (doHeapRegion_chunks_complete G1RebuildRemSetChunkSize do_yield_check st
                region_idx hr bitmap tars Hchunk ltac:(lia) Hyield counted Hmono Hcmax
                Hchunks (S (Z.to_nat (hr_end hr - hr_bottom hr))) (hr_bottom hr) 0 cm [])
      as (res & Hres & Hout & Hret & Hcm'); [lia|exact Hcm| |lia|].
    { rewrite Z.min_l by lia. symmetry. exact Hc0. }
    exists res. rewrite Hfinal in Hout.
    destruct Hcm' as (_ & Htars' & _).
    repeat (split; [assumption|]).
    unfold G1RebuildRemSetHeapRegionClosure.marked_bytes_match.
    rewrite Hout, Htars'. apply Z.eqb_refl. }
  destruct (isHumongous hr) eqn:Hh.
  - (* a humongous region *)
    set (humongous_obj := hr_bottom (region st (hr_humongous_start_region hr))).
    set (tams := hr_next_top_at_mark_start hr) in *.
    assert (Htams : tams = hr_bottom hr ∨ tams = tars).
    { unfold rebuild_ready in Hready. rewrite Hh in Hready.
      apply andb_prop in Hready as [_ Hready]. fold tams in Hready.
      apply orb_true_iff in Hready as [H|H]; apply Z.eqb_eq in H; auto. }
    apply (Hgoal (fun x =>
             if G1RebuildRemSetHeapRegionClosure.is_humongous_live humongous_obj bitmap
                  tams tars && bool_decide (tams ≠ hr_bottom hr)
             then (x - hr_bottom hr) * HeapWordSize else 0)).
    + destruct (_ && _); lia.
    + intros x y Hxy Hy. unfold HeapWordSize. destruct (_ && _); lia.
    + unfold HeapWordSize, size_t_max in *. destruct (_ && _); lia.
    + intros c e Hc Hce He.
      apply (rebuild_rem_set_in_region_humongous st bitmap tars hr c e Hh Hready Hc Hce He).
    + rewrite Hrecorded. unfold marked_bytes_below_tams. rewrite Hh.
      fold humongous_obj. fold tams.
      unfold G1RebuildRemSetHeapRegionClosure.is_humongous_live.
      destruct (isMarked bitmap humongous_obj); simpl.
      * case_bool_decide; destruct Htams; unfold HeapWordSize; lia.
      * destruct (Z.ltb_spec tams tars); simpl; [|reflexivity].
        case_bool_decide; [|reflexivity]. lia.
  - (* an ordinary region *)
    pose proof (rebuild_ready_laid_out _ _ _ Hready Hh) as Hlay.
    assert (Hpos : Forall (fun o => 0 < oop_size o) (hr_objects hr)) by apply Hlay.
    set (tams := hr_next_top_at_mark_start hr) in *.
    destruct (counted_upto_all hr bitmap tams tars (hr_objects hr) (hr_bottom hr) tars Hlay
                ltac:(lia)) as [Hall Hle].
    apply (Hgoal (fun x =>
             counted_upto bitmap tams (hr_objects hr) (hr_bottom hr) x * HeapWordSize)).
    + rewrite counted_upto_start by (auto; lia). reflexivity.
    + intros x y Hxy Hy.
      pose proof (counted_upto_mono bitmap tams (hr_objects hr) (hr_bottom hr) x y Hpos
                    ltac:(lia)).
      unfold HeapWordSize. lia.
    + rewrite Hall. unfold HeapWordSize, size_t_max in *. lia.
    + intros c e Hc Hce He.
      apply (rebuild_rem_set_in_region_ordinary st bitmap tars hr c e Hh Hready Hc Hce He).
    + rewrite Hall, Hrecorded. unfold marked_bytes_below_tams. rewrite Hh. reflexivity.
Qed.

(** The old region of the example, rebuilt in chunks of 8 words: the chunks
    count 128 marked bytes, as marking did. *)
Lemma rebuild_marked_bytes_match_witness :
  ∃ res,
    G1RebuildRemSetHeapRegionClosure.doHeapRegion RebuildExample.chunk_bytes
      RebuildExample.quiet_yield RebuildExample.heap RebuildExample.cm 0 = Some res
    ∧ G1RebuildRemSetHeapRegionClosure.rr_outcome res
      = G1RebuildRemSetHeapRegionClosure.RebuildCompleted 128
    ∧ G1RebuildRemSetHeapRegionClosure.rr_return res = false
    ∧ top_at_rebuild_start (G1RebuildRemSetHeapRegionClosure.rr_cm res) 0 = Some 30
    ∧ G1RebuildRemSetHeapRegionClosure.marked_bytes_match RebuildExample.old_region 0 res
      = true.
Proof.
  apply (rebuild_marked_bytes_match RebuildExample.chunk_bytes RebuildExample.quiet_yield
           RebuildExample.heap RebuildExample.cm 0 30).
  - reflexivity.
  - reflexivity.
  - reflexivity.
  - repeat split.
  - intros cm' H. exact H.
Defined.

(** The humongous region of the example: 32 words, marked. *)
Example rebuild_of_humongous_region :
  option_map G1RebuildRemSetHeapRegionClosure.rr_outcome
    (G1RebuildRemSetHeapRegionClosure.doHeapRegion RebuildExample.chunk_bytes
       RebuildExample.quiet_yield RebuildExample.heap RebuildExample.cm 1)
  = Some (G1RebuildRemSetHeapRegionClosure.RebuildCompleted 256).
Proof. vm_compute. reflexivity. Qed.

(** * Further properties *)

(** ** Refinement iterates allocated memory of old regions only *)

Lemma refine_card_concurrently_filter_target env card_ptr st c start r st1 :
  refine_card_concurrently_filter env card_ptr st = (Some (c, start, r), st1) →
  start = addr_for env c
  ∧ r = heap_region_containing env start
  ∧ is_old_or_humongous (region st r) = true
  ∧ regions st1 = regions st
  ∧ (c = card_ptr ∨ use_cache (hot_card_cache st) = true).
Proof.
  unfold refine_card_concurrently_filter.
  destruct (card_differs (byte_map st) card_ptr dirty_card_val); [discriminate|].
  destruct (is_old_or_humongous (region st _)) eqn:Hold; [|discriminate]. simpl.
  destruct (use_cache (hot_card_cache st)) eqn:Huse.
  - destruct (hcc_insert env (hot_card_cache st) card_ptr) as [[c'|] hcc']; [|discriminate].
    case_bool_decide as Hne.
    + match goal with |- context [is_old_or_humongous ?x] =>
        destruct (is_old_or_humongous x) eqn:Hold' end; [|discriminate].
      simpl. intros [= <- <- <- <-]. auto 10.
    + subst c'. intros [= <- <- <- <-]. auto 10.
  - intros [= <- <- <- <-]. auto 10.
Qed.

Lemma trimmed_region_bounds start limit card_words :
  start < limit → 0 < card_words →
  let mr := MemRegion_of start (MIN2 limit (start + card_words)) in
  mr_start mr = start ∧ mr_is_empty mr = false
  ∧ 0 < mr_word_size mr ≤ card_words ∧ mr_end mr ≤ limit.
Proof.
  intros H1 H2. unfold MemRegion_of, mr_is_empty, mr_end. simpl. rewrite MIN2_min.
  split; [reflexivity|]. split; [apply Z.eqb_neq; lia|lia].
Qed.

(** X1: whatever [refine_card_concurrently] iterates is a non-empty part of
    one card, below [top()], of a region that is old or humongous; the card
    is the one the call was made for unless the hot card cache is in use. *)
Theorem refine_card_concurrently_iterates_allocated_part env card_ptr worker_i st :
  0 < card_size_in_words env →
  ∃ evs,
    trace (refine_card_concurrently env card_ptr worker_i st) = trace st ++ evs
    ∧ ∀ fy r mr cl,
        EvOopsOnCard fy r mr cl ∈ evs →
        fy = false ∧ cl = G1ConcurrentRefineOopClosure worker_i
        ∧ is_old_or_humongous (region st r) = true
        ∧ (∃ c, mr_start mr = addr_for env c
                ∧ r = heap_region_containing env (addr_for env c)
                ∧ (c = card_ptr ∨ use_cache (hot_card_cache st) = true))
        ∧ mr_is_empty mr = false
        ∧ 0 < mr_word_size mr ≤ card_size_in_words env
        ∧ mr_end mr ≤ hr_top (region st r).
Proof.
  intros Hcs.
  pose proof (refine_card_concurrently_filter_frame env card_ptr st) as Hfr.
  unfold refine_card_concurrently.
  destruct (refine_card_concurrently_filter env card_ptr st) as [[[[c start] r]|] st1]
    eqn:Hf; simpl in Hfr; destruct Hfr as (_ & Htr & _).
  - destruct (refine_card_concurrently_filter_target env _ _ _ _ _ _ Hf)
      as (Hstart & Hr & Hold & Hregs & Hc).
    assert (Hregion : region st1 r = region st r) by (unfold region; by rewrite Hregs).
    destruct (Z.lt_ge_cases start (hr_top (region st1 r))) as [Hlt|Hge].
    + destruct (refine_card_concurrently_trimmed_trace env c start r worker_i st1 Hlt)
        as (tail & Heq & Htail).
      eexists. split; [rewrite Heq, Htr; reflexivity|].
      intros fy r' mr cl Hin.
      assert (Hev : EvOopsOnCard fy r' mr cl
                    = EvOopsOnCard false r
                        (MemRegion_of start
                           (MIN2 (hr_top (region st1 r)) (start + card_size_in_words env)))
                        (G1ConcurrentRefineOopClosure worker_i)).
      { apply elem_of_app in Hin as [Hin|Hin].
        - repeat (apply elem_of_cons in Hin as [Hin|Hin]; [try discriminate; exact Hin|]).
          by apply elem_of_nil in Hin.
        - destruct Htail as [->| ->].
          + by apply elem_of_nil in Hin.
          + repeat (apply elem_of_cons in Hin as [Hin|Hin]; [discriminate|]).
            by apply elem_of_nil in Hin. }
      injection Hev as -> -> -> ->.
      destruct (trimmed_region_bounds start (hr_top (region st1 r))
                  (card_size_in_words env) Hlt Hcs) as (H1 & H2 & H3 & H4).
      rewrite Hregion in *.
      split; [reflexivity|]. split; [reflexivity|]. split; [exact Hold|].
      split; [exists c; subst start; auto|]. auto.
    + exists []. unfold refine_card_concurrently_trimmed.
      destruct (Z.leb_spec (hr_top (region st1 r)) start); [|lia].
      rewrite app_nil_r. split; [exact Htr|].
      intros ???? Hin. by apply elem_of_nil in Hin.
  - exists []. rewrite app_nil_r. split; [exact Htr|].
    intros ???? Hin. by apply elem_of_nil in Hin.
Qed.

Lemma refine_card_concurrently_iterates_allocated_part_witness :
  ∃ evs,
    trace (refine_card_concurrently (Example.collaborators Example.parsed) 1 0
             (Example.state Example.no_cache)) = [] ++ evs
    ∧ ∀ fy r mr cl,
        EvOopsOnCard fy r mr cl ∈ evs →
        fy = false ∧ cl = G1ConcurrentRefineOopClosure 0
        ∧ is_old_or_humongous (region (Example.state Example.no_cache) r) = true
        ∧ (∃ c, mr_start mr = Z.of_nat c * Example.card_words
                ∧ r = Z.to_nat (Z.of_nat c * Example.card_words / Example.grain_words)
                ∧ (c = 1%nat ∨ false = true))
        ∧ mr_is_empty mr = false
        ∧ 0 < mr_word_size mr ≤ Example.card_words
        ∧ mr_end mr ≤ hr_top (region (Example.state Example.no_cache) r).
Proof.
  apply (refine_card_concurrently_iterates_allocated_part
           (Example.collaborators Example.parsed) 1 0 (Example.state Example.no_cache)).
  reflexivity.
Defined.

(** X2: whatever [refine_card_during_gc] iterates is a non-empty part of
    the card it was called for, below [scan_top()], of a region that is old
    or humongous and not in the collection set; and a card that is iterated
    was DIRTY. *)
Theorem refine_card_during_gc_iterates_outside_cset env card_ptr worker_i st :
  0 < card_size_in_words env →
  ∃ evs,
    trace (refine_card_during_gc env card_ptr worker_i st).2 = trace st ++ evs
    ∧ ∀ fy r mr cl,
        EvOopsOnCard fy r mr cl ∈ evs →
        fy = true
        ∧ r = heap_region_containing env (addr_for env card_ptr)
        ∧ byte_map st !! card_ptr = Some dirty_card_val
        ∧ is_old_or_humongous (region st r) = true
        ∧ hr_in_collection_set (region st r) = false
        ∧ mr_start mr = addr_for env card_ptr
        ∧ mr_is_empty mr = false
        ∧ 0 < mr_word_size mr ≤ card_size_in_words env
        ∧ mr_end mr ≤ hr_scan_top (region st r).
Proof.
  intros Hcs. rewrite refine_card_during_gc_cases.
  set (start := addr_for env card_ptr).
  set (r := heap_region_containing env start).
  destruct (card_differs (byte_map st) card_ptr dirty_card_val) eqn:Hd; cbn [negb andb snd].
  { exists []. rewrite app_nil_r. split; [reflexivity|].
    intros ???? Hin. by apply elem_of_nil in Hin. }
  destruct (is_old_or_humongous (region st r)) eqn:Hold; cbn [negb andb snd]; cycle 1.
  { exists []. rewrite app_nil_r. split; [reflexivity|].
    intros ???? Hin. by apply elem_of_nil in Hin. }
  destruct (hr_in_collection_set (region st r)) eqn:Hcset; cbn [negb andb snd].
  { exists []. rewrite app_nil_r. split; [reflexivity|].
    intros ???? Hin. by apply elem_of_nil in Hin. }
  destruct (Z.ltb_spec start (hr_scan_top (region st r))) as [Hlt|Hge]; cbn [snd]; cycle 1.
  { exists []. rewrite app_nil_r. split; [reflexivity|].
    intros ???? Hin. by apply elem_of_nil in Hin. }
  unfold with_conc_refine_cards. cbn [trace]. rewrite iterate_card_trace.
  unfold store_card. cbn [trace emit with_byte_map]. rewrite <- app_assoc.
  eexists. split; [reflexivity|].
  intros fy r' mr cl Hin.
  apply elem_of_cons in Hin as [Hin|Hin]; [discriminate|].
  apply elem_of_cons in Hin as [Hin|Hin]; [|by apply elem_of_nil in Hin].
  injection Hin as -> -> -> ->.
  destruct (trimmed_region_bounds start (hr_scan_top (region st r))
              (card_size_in_words env) Hlt Hcs) as (H1 & H2 & H3 & H4).
  assert (Hdirty : byte_map st !! card_ptr = Some dirty_card_val).
  { unfold card_differs in Hd. destruct (byte_map st !! card_ptr) as [b|]; [|discriminate].
    apply negb_false_iff, bool_decide_eq_true in Hd. by subst. }
  auto 12.
Qed.

Lemma refine_card_during_gc_iterates_outside_cset_witness :
  ∃ evs,
    trace (refine_card_during_gc (Example.collaborators Example.parsed_into_cset) 6 0
             (Example.state Example.no_cache)).2 = [] ++ evs
    ∧ ∀ fy r mr cl,
        EvOopsOnCard fy r mr cl ∈ evs →
        fy = true
        ∧ r = 1%nat
        ∧ Example.cards !! 6%nat = Some dirty_card_val
        ∧ is_old_or_humongous (region (Example.state Example.no_cache) r) = true
        ∧ hr_in_collection_set (region (Example.state Example.no_cache) r) = false
        ∧ mr_start mr = 384
        ∧ mr_is_empty mr = false
        ∧ 0 < mr_word_size mr ≤ 64
        ∧ mr_end mr ≤ hr_scan_top (region (Example.state Example.no_cache) r).
Proof.
  apply (refine_card_during_gc_iterates_outside_cset
           (Example.collaborators Example.parsed_into_cset) 6 0
           (Example.state Example.no_cache)).
  reflexivity.
Defined.

(** ** The into-cset queue *)

Lemma queues_agree_refl st : queues_agree st st.
Proof. repeat split. Qed.

Lemma queues_agree_trans st1 st2 st3 :
  queues_agree st1 st2 → queues_agree st2 st3 → queues_agree st1 st3.
Proof.
  intros (H1 & H2 & H3 & H4 & H5 & H6 & H7) (H1' & H2' & H3' & H4' & H5' & H6' & H7').
  repeat split; congruence.
Qed.

Lemma queues_agree_update_rem_set f r st : queues_agree st (update_rem_set f r st).
Proof. unfold update_rem_set. destruct (regions st !! r); repeat split. Qed.

Lemma queues_agree_add_references ins : ∀ st, queues_agree st (add_references ins st).
Proof.
  unfold add_references.
  induction ins as [|[to card] ins IH]; intros st; simpl; [apply queues_agree_refl|].
  eapply queues_agree_trans; [|apply IH]. apply queues_agree_update_rem_set.
Qed.

Lemma queues_agree_iterate_card env fy r mr cl st :
  queues_agree st (iterate_card env fy r mr cl st).2.
Proof.
  unfold iterate_card, mutators_dirty. cbn [snd].
  eapply queues_agree_trans;
    [|eapply queues_agree_trans;
       [apply (queues_agree_add_references
                 (rs_insertions (oops_on_card_seq_iterate_careful env fy r mr cl st))
                 (emit (EvOopsOnCard fy r mr cl) st))|]];
    repeat split.
Qed.

Lemma queues_agree_refine_card_during_gc env card_ptr worker_i st :
  queues_agree st (refine_card_during_gc env card_ptr worker_i st).2.
Proof.
  rewrite refine_card_during_gc_cases.
  match goal with |- context [if ?b then _ else _] => destruct b end; cbn [snd];
    [|apply queues_agree_refl].
  match goal with |- context [iterate_card env true ?r ?mr ?cl ?s] =>
    destruct (queues_agree_iterate_card env true r mr cl s)
      as (H1 & H2 & H3 & H4 & H5 & H6 & H7) end.
  unfold queues_agree, with_conc_refine_cards.
  cbn [hot_card_cache mutator_logs completed_buffers into_cset_completed_buffers
       shared_dirty_card_queue evacuation_failed refine_cte_cl_concurrency].
  rewrite H1, H2, H3, H4, H5, H6, H7. repeat split.
Qed.

(** X3: [do_card_ptr] puts a card on the into-cset queue exactly when the
    card is refined (it is DIRTY and lies in an old or humongous region
    outside the collection set, below [scan_top()]) and the iteration over
    it reports references into the collection set.  Then the queue is
    trimmed before the card is enqueued; in every other case the queue comes
    back as it was and nothing is enqueued.  The dirty card queue sets and
    the hot card cache are left alone either way. *)
Theorem do_card_ptr_records_cards_into_cset env card_ptr worker_i q st :
  let start := addr_for env card_ptr in
  let r := heap_region_containing env start in
  let mr := MemRegion_of start
              (MIN2 (hr_scan_top (region st r)) (start + card_size_in_words env)) in
  let cl := G1UpdateRSOrPushRefOopClosure
              (default None (cset_rs_update_cl st !! worker_i)) true worker_i r in
  let reported :=
    refined_during_gc env card_ptr st
    && has_refs_into_cset
         (oops_on_card_seq_iterate_careful env true r mr cl
            (store_card card_ptr clean_card_val st)) in
  let res := do_card_ptr env card_ptr worker_i q st in
  queues_agree st res.2
  ∧ res.1 = (if reported then q ++ [card_ptr] else q)
  ∧ (∃ evs, trace res.2 = trace st ++ evs
            ∧ into_cset_enqueued evs = if reported then [card_ptr] else [])
  ∧ (reported = true →
     byte_map st !! card_ptr = Some dirty_card_val
     ∧ is_old_or_humongous (region st r) = true
     ∧ hr_in_collection_set (region st r) = false
     ∧ trace res.2
       = trace st ++ [EvCardStore card_ptr clean_card_val;
                      EvOopsOnCard true r mr cl;
                      EvTrimQueuePartially; EvIntoCSetEnqueue card_ptr]).
Proof.
  intros start r mr cl reported res. subst res reported.
  pose proof (queues_agree_refine_card_during_gc env card_ptr worker_i st) as Hq.
  unfold do_card_ptr. rewrite refined_during_gc_cases in Hq |- *. cbv zeta in Hq |- *.
  fold start in Hq |- *. fold r in Hq |- *. fold mr in Hq |- *. fold cl in Hq |- *.
  destruct (refined_during_gc env card_ptr st) eqn:Hpass; cbn [andb fst snd] in *.
  2:{ split; [exact Hq|]. split; [reflexivity|]. split; [|discriminate].
      exists []. by rewrite app_nil_r. }
  pose proof (iterate_card_trace env true r mr cl (store_card card_ptr clean_card_val st))
    as Htr.
  pose proof (iterate_card_result env true r mr cl (store_card card_ptr clean_card_val st))
    as Hres.
  destruct (iterate_card env true r mr cl (store_card card_ptr clean_card_val st))
    as [res st3]. cbn [fst snd] in *. subst res.
  unfold store_card in Htr. cbn [trace emit with_byte_map] in Htr.
  destruct (has_refs_into_cset _) eqn:Hrefs; cbn [fst snd].
  - split; [destruct Hq as (?&?&?&?&?&?&?); repeat split; assumption|].
    split; [reflexivity|].
    assert (Htrace : trace (emit (EvIntoCSetEnqueue card_ptr)
                              (emit EvTrimQueuePartially
                                 (with_conc_refine_cards
                                    (size_t_add (conc_refine_cards st3) 1) st3)))
                     = trace st ++ [EvCardStore card_ptr clean_card_val;
                                    EvOopsOnCard true r mr cl;
                                    EvTrimQueuePartially; EvIntoCSetEnqueue card_ptr]).
    { cbn [trace emit with_conc_refine_cards]. rewrite Htr, <- !app_assoc. reflexivity. }
    split; [eexists; split; [exact Htrace|reflexivity]|].
    intros _. unfold refined_during_gc in Hpass. fold start in Hpass. fold r in Hpass.
    apply andb_prop in Hpass as [Hpass _]. apply andb_prop in Hpass as [Hpass Hcs].
    apply andb_prop in Hpass as [Hd Ho].
    split.
    { unfold card_differs in Hd. destruct (byte_map st !! card_ptr) as [b|]; [|discriminate].
      apply negb_true_iff, negb_false_iff, bool_decide_eq_true in Hd. by subst. }
    split; [exact Ho|]. split; [by apply negb_true_iff|exact Htrace].
  - split; [exact Hq|]. split; [reflexivity|]. split; [|discriminate].
    eexists. cbn [trace with_conc_refine_cards]. rewrite Htr, <- app_assoc.
    split; reflexivity.
Qed.

(** Card 6 of the example heap is refined and has references into the
    collection set; card 9 lies in a region of the collection set. *)
Lemma do_card_ptr_records_cards_into_cset_witness :
  let env := Example.collaborators Example.parsed_into_cset in
  let st := Example.state Example.no_cache in
  ((do_card_ptr env 6 0 [4%nat] st).1 = [4%nat; 6%nat]
   ∧ byte_map st !! 6%nat = Some dirty_card_val
   ∧ trace (do_card_ptr env 6 0 [4%nat] st).2
     = [EvCardStore 6 clean_card_val;
        EvOopsOnCard true 1 (mkMemRegion 384 16)
          (G1UpdateRSOrPushRefOopClosure None true 0 1);
        EvTrimQueuePartially; EvIntoCSetEnqueue 6])
  ∧ (do_card_ptr env 9 0 [4%nat] st).1 = [4%nat].
Proof.
  intros env st. split.
  - destruct (do_card_ptr_records_cards_into_cset env 6 0 [4%nat] st)
      as (_ & Hq & _ & Hrep).
    destruct (Hrep eq_refl) as (Hd & _ & _ & Htr).
    split; [exact Hq|]. split; [exact Hd|exact Htr].
  - destruct (do_card_ptr_records_cards_into_cset env 9 0 [4%nat] st) as (_ & Hq & _).
    exact Hq.
Defined.

(** Card 6 of the example heap has references into the collection set. *)
Example do_card_ptr_example :
  let env := Example.collaborators Example.parsed_into_cset in
  let res := do_card_ptr env 6 0 [4%nat] (Example.state Example.no_cache) in
  res.1 = [4%nat; 6%nat]
  ∧ (do_card_ptr env 9 0 [4%nat] (Example.state Example.no_cache)).1 = [4%nat].
Proof. split; reflexivity. Qed.

(** ** What the scan of the remembered sets does to the state *)

Lemma same_attributes_refl hr : same_attributes hr hr.
Proof. repeat split. Qed.

Lemma regions_agree_refl st : regions_agree st st.
Proof. split; [reflexivity|]. intros r. apply same_attributes_refl. Qed.

Lemma regions_agree_trans st1 st2 st3 :
  regions_agree st1 st2 → regions_agree st2 st3 → regions_agree st1 st3.
Proof.
  intros [Hl1 H1] [Hl2 H2]. split; [congruence|]. intros r.
  destruct (H1 r) as (?&?&?&?&?&?). destruct (H2 r) as (?&?&?&?&?&?).
  repeat split; congruence.
Qed.

Lemma regions_agree_update_rem_set f r st : regions_agree st (update_rem_set f r st).
Proof.
  split; [apply length_regions_update_rem_set|]. intros r'.
  unfold update_rem_set, region.
  destruct (regions st !! r) as [hr|] eqn:Hr; [|apply same_attributes_refl]. simpl.
  destruct (decide (r = r')) as [<-|Hne].
  - rewrite list_lookup_insert_eq by (by eapply lookup_lt_Some).
    rewrite Hr. repeat split.
  - rewrite list_lookup_insert_ne by exact Hne. apply same_attributes_refl.
Qed.

Lemma regions_agree_push_dirty_cards_region r st :
  regions_agree st (push_dirty_cards_region r st).
Proof.
  split; [apply push_dirty_cards_region_frame|]. intros r'.
  unfold push_dirty_cards_region, region.
  destruct (regions st !! r) as [hr|] eqn:Hr; [|apply same_attributes_refl].
  destruct (hr_on_dirty_cards_region_list hr); [apply same_attributes_refl|]. simpl.
  destruct (decide (r = r')) as [<-|Hne].
  - rewrite list_lookup_insert_eq by (by eapply lookup_lt_Some).
    rewrite Hr. repeat split.
  - rewrite list_lookup_insert_ne by exact Hne. apply same_attributes_refl.
Qed.

Lemma queues_agree_push_dirty_cards_region r st :
  queues_agree st (push_dirty_cards_region r st).
Proof.
  unfold push_dirty_cards_region. destruct (regions st !! r) as [hr|];
    [destruct (hr_on_dirty_cards_region_list hr)|]; repeat split.
Qed.

Lemma cards_claimed_only_refl bm : cards_claimed_only bm bm.
Proof. split; auto. Qed.

Lemma is_card_dirty_lookup (bm bm' : ByteMap) (i : nat) :
  bm' !! i = bm !! i →
  is_card_dirty bm' i = is_card_dirty bm i ∧ is_card_claimed bm' i = is_card_claimed bm i.
Proof. intros H. unfold is_card_dirty, is_card_claimed, card_differs. by rewrite H. Qed.

Lemma cards_claimed_only_trans bm1 bm2 bm3 :
  cards_claimed_only bm1 bm2 → cards_claimed_only bm2 bm3 → cards_claimed_only bm1 bm3.
Proof.
  intros [Hl1 H1] [Hl2 H2]. split; [congruence|]. intros i.
  destruct (H2 i) as [Heq2|(Hc2 & Hd2 & Hcl2)].
  - rewrite Heq2. apply H1.
  - destruct (H1 i) as [Heq1|(Hc1 & _)].
    + right. destruct (is_card_dirty_lookup bm1 bm2 i Heq1) as [<- <-]. auto.
    + unfold is_card_claimed, card_differs in Hcl2. rewrite Hc1 in Hcl2. discriminate.
Qed.

Lemma cards_claimed_only_set_card_claimed (bm : ByteMap) (i : nat) :
  is_card_dirty bm i = false → is_card_claimed bm i = false →
  cards_claimed_only bm (set_card_claimed bm i).
Proof.
  intros Hd Hc. unfold set_card_claimed. split; [apply length_insert|]. intros j.
  destruct (decide (i = j)) as [<-|Hne].
  - destruct (decide (i < length bm)%nat).
    + right. rewrite list_lookup_insert_eq by assumption. auto.
    + left. rewrite list_insert_ge by lia. reflexivity.
  - left. apply list_lookup_insert_ne, Hne.
Qed.

Lemma scan_event_ok_regions st st1 oc e :
  regions_agree st st1 → scan_event_ok st1 oc e → scan_event_ok st oc e.
Proof.
  intros [_ H] He. destruct e; try exact He. simpl in *.
  destruct (H r) as (_ & _ & _ & _ & _ & <-). exact He.
Qed.

Lemma count_scans_app evs1 evs2 :
  count_scans (evs1 ++ evs2) = (count_scans evs1 + count_scans evs2)%nat.
Proof.
  induction evs1 as [|e evs1 IH]; simpl; [reflexivity|].
  destruct e; simpl; rewrite IH; reflexivity.
Qed.

Lemma scan_steps_refl cl st : scan_steps cl st cl st.
Proof.
  split; [apply queues_agree_refl|]. split; [apply regions_agree_refl|].
  split; [apply cards_claimed_only_refl|]. repeat (split; [reflexivity|]).
  exists []. rewrite app_nil_r. repeat split. constructor.
Qed.

Lemma scan_steps_trans cl1 st1 cl2 st2 cl3 st3 :
  scan_steps cl1 st1 cl2 st2 → scan_steps cl2 st2 cl3 st3 → scan_steps cl1 st1 cl3 st3.
Proof.
  intros (Hq1 & Hr1 & Hc1 & Ho1 & Hb1 & evs1 & Htr1 & Hev1 & Hd1)
         (Hq2 & Hr2 & Hc2 & Ho2 & Hb2 & evs2 & Htr2 & Hev2 & Hd2).
  split; [eapply queues_agree_trans; eassumption|].
  split; [eapply regions_agree_trans; eassumption|].
  split; [eapply cards_claimed_only_trans; eassumption|].
  repeat (split; [congruence|]).
  exists (evs1 ++ evs2). rewrite Htr2, Htr1, <- app_assoc. split; [reflexivity|]. split.
  - apply Forall_app. split; [exact Hev1|].
    eapply Forall_impl; [exact Hev2|]. intros e He. rewrite Ho1 in He.
    eapply scan_event_ok_regions; eassumption.
  - rewrite Hd2, Hd1, count_scans_app, Nat.add_comm. symmetry. apply Nat.iter_add.
Qed.

(** A step that changes only the regions' remembered sets and list flags. *)
Lemma scan_steps_regions cl st st' :
  queues_agree st st' → regions_agree st st' →
  byte_map st' = byte_map st → trace st' = trace st →
  scan_steps cl st cl st'.
Proof.
  intros Hq Hr Hb Ht. split; [exact Hq|]. split; [exact Hr|].
  split; [rewrite Hb; apply cards_claimed_only_refl|]. repeat (split; [reflexivity|]).
  exists []. rewrite app_nil_r. repeat split; [exact Ht|constructor].
Qed.

Lemma scan_steps_update_rem_set f r cl st : scan_steps cl st cl (update_rem_set f r st).
Proof.
  apply scan_steps_regions;
    [apply queues_agree_update_rem_set|apply regions_agree_update_rem_set
    |apply update_rem_set_frame|apply update_rem_set_trace].
Qed.

Lemma scan_steps_push_dirty_cards_region r cl st :
  scan_steps cl st cl (push_dirty_cards_region r st).
Proof.
  apply scan_steps_regions;
    [apply queues_agree_push_dirty_cards_region|apply regions_agree_push_dirty_cards_region
    |apply push_dirty_cards_region_frame|apply push_dirty_cards_region_frame].
Qed.

Lemma scan_steps_emit e cl st :
  scan_event_ok st (_oc cl) e → count_scans [e] = 0%nat → scan_steps cl st cl (emit e st).
Proof.
  intros He Hn. split; [repeat split|].
  split; [split; [reflexivity|intros r'; apply same_attributes_refl]|].
  split; [apply cards_claimed_only_refl|]. repeat (split; [reflexivity|]).
  exists [e]. split; [reflexivity|]. split; [by constructor|]. by rewrite Hn.
Qed.

Lemma scan_steps_doHeapRegion_card env card_index cl st :
  scan_steps cl st (doHeapRegion_card env card_index cl st).1
    (doHeapRegion_card env card_index cl st).2.
Proof.
  unfold doHeapRegion_card.
  set (card_region := heap_region_containing env (addr_for env card_index)).
  set (st1 := if negb (hr_on_dirty_cards_region_list (region st card_region))
              then push_dirty_cards_region card_region st else st).
  assert (Hst1 : scan_steps (inc_cards cl) st (inc_cards cl) st1).
  { subst st1. destruct (negb _);
      [apply scan_steps_push_dirty_cards_region|apply scan_steps_refl]. }
  assert (H0 : scan_steps cl st (inc_cards cl) st1).
  { destruct Hst1 as (?&?&?&?&?&?). repeat (split; [assumption|]). assumption. }
  clear Hst1. clearbody st1.
  destruct (hr_in_collection_set (region st1 card_region)) eqn:Hcs; cbn [negb andb fst snd];
    [exact H0|].
  destruct (is_card_dirty (byte_map st1) card_index) eqn:Hd; cbn [negb andb fst snd];
    [exact H0|].
  unfold scanCard.
  set (mr := mr_intersection _ _).
  destruct (mr_is_empty mr) eqn:He; cbn [negb andb fst snd]; [exact H0|].
  destruct (is_card_claimed (byte_map st1) card_index) eqn:Hc; cbn [negb andb fst snd];
    [exact H0|].
  eapply scan_steps_trans; [exact H0|].
  split; [repeat split|].
  split; [split; [reflexivity|intros r'; apply same_attributes_refl]|].
  split; [by apply cards_claimed_only_set_card_claimed|].
  repeat (split; [reflexivity|]).
  exists [EvSetCardClaimed card_index; EvScanMemRegion card_region mr (_oc cl)].
  cbn [trace emit with_byte_map]. rewrite <- app_assoc. split; [reflexivity|].
  split; [|reflexivity]. repeat constructor; assumption.
Qed.

Lemma scan_steps_doHeapRegion_loop env r cards : ∀ current_card jump_to_card cl st,
  scan_steps cl st (doHeapRegion_loop env r cards current_card jump_to_card cl st).1
    (doHeapRegion_loop env r cards current_card jump_to_card cl st).2.
Proof.
  induction cards as [|card_index rest IH]; intros current_card jump_to_card cl st; simpl;
    [apply scan_steps_refl|].
  assert (Hstep : ∀ j s, scan_steps cl st cl s →
            let res := (if (current_card <? j)%nat
                        then doHeapRegion_loop env r rest (S current_card) j cl s
                        else let '(cl0, st0) := doHeapRegion_card env card_index cl s in
                             doHeapRegion_loop env r rest (S current_card) j cl0 st0) in
            scan_steps cl st res.1 res.2).
  { intros j s Hs. destruct (current_card <? j)%nat.
    - eapply scan_steps_trans; [exact Hs|apply IH].
    - pose proof (scan_steps_doHeapRegion_card env card_index cl s) as H1.
      destruct (doHeapRegion_card env card_index cl s) as [cl0 st0]. cbn [fst snd] in H1.
      eapply scan_steps_trans; [exact Hs|].
      eapply scan_steps_trans; [exact H1|apply IH]. }
  destruct (jump_to_card + _block_size cl <=? current_card)%nat.
  - unfold iter_claimed_next. apply Hstep, scan_steps_update_rem_set.
  - apply Hstep, scan_steps_refl.
Qed.

Lemma scan_steps_doHeapRegion env r cl st :
  scan_steps cl st (doHeapRegion env r cl st).1.2 (doHeapRegion env r cl st).2.
Proof.
  rewrite doHeapRegion_unfold.
  destruct (iter_is_complete (rem_set st r)); [apply scan_steps_refl|].
  destruct (negb (_try_claimed cl) && negb (claim_iter (rem_set st r)).1);
    [apply scan_steps_refl|].
  cbv zeta. cbn [fst snd].
  set (st1 := update_rem_set _ r st).
  set (st2 := push_dirty_cards_region r st1).
  set (st3 := update_rem_set _ r st2).
  pose proof (scan_steps_doHeapRegion_loop env r (rs_cards (rem_set st2 r)) 0
                (iter_claimed_next (_block_size cl) (rem_set st2 r)).1 cl st3) as H4.
  set (res := doHeapRegion_loop env r _ 0 _ cl st3) in *.
  assert (H3 : scan_steps cl st cl st3).
  { eapply scan_steps_trans; [apply scan_steps_update_rem_set|].
    eapply scan_steps_trans; [apply scan_steps_push_dirty_cards_region|].
    apply scan_steps_update_rem_set. }
  pose proof (scan_steps_trans _ _ _ _ _ _ H3 H4) as H.
  destruct (negb (_try_claimed res.1)); [|exact H].
  eapply scan_steps_trans; [exact H|]. unfold iter_set_complete.
  eapply scan_steps_trans; [|apply scan_steps_emit; [exact I|reflexivity]].
  eapply scan_steps_trans; [|apply scan_steps_update_rem_set].
  unfold scan_strong_code_roots.
  eapply scan_steps_trans; apply scan_steps_emit; try reflexivity; exact I.
Qed.

Lemma scan_steps_heap_region_iterate env order : ∀ cl st,
  scan_steps cl st (heap_region_iterate env order cl st).1
    (heap_region_iterate env order cl st).2.
Proof.
  induction order as [|r order IH]; intros cl st; simpl; [apply scan_steps_refl|].
  pose proof (scan_steps_doHeapRegion env r cl st) as H1.
  destruct (doHeapRegion env r cl st) as [[stop cl1] st1]. cbn [fst snd] in H1.
  destruct stop; [exact H1|].
  eapply scan_steps_trans; [exact H1|apply IH].
Qed.

Lemma size_t_increments n : Nat.iter n (fun k => size_t_add k 1) 0 = size_t_wrap (Z.of_nat n).
Proof.
  induction n as [|n IH]; [reflexivity|].
  rewrite Nat.iter_succ, IH. unfold size_t_add, size_t_wrap.
  rewrite Z.add_mod_idemp_l by (unfold size_t_max; lia). f_equal. lia.
Qed.

(** The two walks of [scanRS], then the store into [_cards_scanned]. *)
Lemma scanRS_scan_steps env oc worker_i st :
  ∃ cl' st0,
    scan_steps (new_ScanRSClosure env oc worker_i) st cl' st0
    ∧ cards_scanned st0 = cards_scanned st
    ∧ scanRS env oc worker_i st
      = with_cards_scanned
          (option_map (fun l => <[worker_i := _cards_done cl']> l) (cards_scanned st0))
          (total_cards_scanned st0) st0.
Proof.
  unfold scanRS, collection_set_iterate_from.
  pose proof (scan_steps_heap_region_iterate env (collection_set_from env st worker_i)
                (new_ScanRSClosure env oc worker_i) st) as H1.
  destruct (heap_region_iterate_bookkeeping env (collection_set_from env st worker_i)
              (new_ScanRSClosure env oc worker_i) st) as ([_ Hc1] & _).
  destruct (heap_region_iterate env (collection_set_from env st worker_i)
              (new_ScanRSClosure env oc worker_i) st) as [cl1 st1]. cbn [fst snd] in H1, Hc1.
  pose proof (scan_steps_heap_region_iterate env (collection_set_from env st1 worker_i)
                (set_try_claimed cl1) st1) as H2.
  destruct (heap_region_iterate_bookkeeping env (collection_set_from env st1 worker_i)
              (set_try_claimed cl1) st1) as ([_ Hc2] & _).
  destruct (heap_region_iterate env (collection_set_from env st1 worker_i)
              (set_try_claimed cl1) st1) as [cl2 st2]. cbn [fst snd] in H2, Hc2.
  exists cl2, st2. split; [|split; [congruence|reflexivity]].
  eapply scan_steps_trans; [exact H1|].
  eapply scan_steps_trans; [|exact H2].
  split; [apply queues_agree_refl|]. split; [apply regions_agree_refl|].
  split; [apply cards_claimed_only_refl|]. repeat (split; [reflexivity|]).
  exists []. rewrite app_nil_r. repeat split. constructor.
Qed.

(** ** The closure slot during a worker's call *)

Lemma mutators_dirty_keeps_dirty (cards : list nat) : ∀ (bm : ByteMap) (c : nat),
  bm !! c = Some dirty_card_val →
  foldl (fun bm c => <[c := dirty_card_val]> bm) bm cards !! c = Some dirty_card_val.
Proof.
  induction cards as [|c' cards IH]; intros bm c Hc; cbn [foldl]; [exact Hc|].
  apply IH. destruct (decide (c' = c)) as [->|Hne].
  - apply list_lookup_insert_eq. by eapply lookup_lt_Some.
  - by rewrite list_lookup_insert_ne.
Qed.

Lemma regions_agree_add_references ins : ∀ st, regions_agree st (add_references ins st).
Proof.
  unfold add_references.
  induction ins as [|[to card] ins IH]; intros st; cbn [foldl]; [apply regions_agree_refl|].
  eapply regions_agree_trans; [|apply IH]. apply regions_agree_update_rem_set.
Qed.

Lemma regions_agree_iterate_card env fy r mr cl st :
  regions_agree st (iterate_card env fy r mr cl st).2.
Proof.
  unfold iterate_card, mutators_dirty. cbn [snd].
  destruct (regions_agree_add_references
              (rs_insertions (oops_on_card_seq_iterate_careful env fy r mr cl st))
              (emit (EvOopsOnCard fy r mr cl) st)) as [Hl Ha].
  split; [exact Hl|]. intros r'. apply (Ha r').
Qed.

(** Refining another card leaves a card that is to be refined as it is. *)
Lemma refined_during_gc_do_card_ptr env c c' worker_i q st :
  c ≠ c' → refined_during_gc env c st = true →
  let st' := (do_card_ptr env c' worker_i q st).2 in
  refined_during_gc env c st' = true
  ∧ hr_scan_top (region st' (heap_region_containing env (addr_for env c)))
    = hr_scan_top (region st (heap_region_containing env (addr_for env c))).
Proof.
  intros Hne Hc. cbv zeta.
  assert (Hstep : ∀ s, byte_map s !! c = byte_map st !! c ∨ byte_map s !! c = Some dirty_card_val →
                       regions_agree st s →
            refined_during_gc env c s = true
            ∧ hr_scan_top (region s (heap_region_containing env (addr_for env c)))
              = hr_scan_top (region st (heap_region_containing env (addr_for env c)))).
  { intros s Hbm [_ Hattr].
    destruct (Hattr (heap_region_containing env (addr_for env c)))
      as (_ & _ & _ & Hs & Hty & Hcs).
    unfold refined_during_gc, is_old_or_humongous in *.
    rewrite Hs, Hty, Hcs. split; [|reflexivity].
    apply andb_prop in Hc as [Hc H4]. apply andb_prop in Hc as [Hc H3].
    apply andb_prop in Hc as [H1 H2]. rewrite H2, H3, H4, !andb_true_r.
    unfold card_differs in *.
    destruct Hbm as [->| ->]; [exact H1|].
    by rewrite bool_decide_eq_true_2. }
  unfold do_card_ptr. rewrite refined_during_gc_cases.
  destruct (refined_during_gc env c' st); cycle 1.
  { cbn [snd]. apply Hstep; [by left|apply regions_agree_refl]. }
  cbv zeta.
  set (r' := heap_region_containing env (addr_for env c')).
  set (mr := MemRegion_of _ _). set (cl := G1UpdateRSOrPushRefOopClosure _ _ _ _).
  assert (Hbm : byte_map (iterate_card env true r' mr cl
                            (store_card c' clean_card_val st)).2 !! c
                = byte_map st !! c
                ∨ byte_map (iterate_card env true r' mr cl
                              (store_card c' clean_card_val st)).2 !! c
                  = Some dirty_card_val).
  { unfold iterate_card, mutators_dirty. cbn [snd byte_map with_byte_map].
    destruct (add_references_frame
                (rs_insertions (oops_on_card_seq_iterate_careful env true r' mr cl
                                  (store_card c' clean_card_val st)))
                (emit (EvOopsOnCard true r' mr cl) (store_card c' clean_card_val st)))
      as (-> & _).
    right. apply mutators_dirty_keeps_dirty.
    unfold store_card. cbn [byte_map emit with_byte_map].
    rewrite list_lookup_insert_ne by congruence.
    apply andb_prop in Hc as [Hc _]. apply andb_prop in Hc as [Hc _].
    apply andb_prop in Hc as [Hc _]. unfold card_differs in Hc.
    destruct (byte_map st !! c) as [b|]; [|discriminate].
    apply negb_true_iff, negb_false_iff, bool_decide_eq_true in Hc. by subst. }
  assert (Hra : regions_agree st (iterate_card env true r' mr cl
                                    (store_card c' clean_card_val st)).2).
  { eapply regions_agree_trans; [|apply regions_agree_iterate_card].
    split; [reflexivity|]. intros r0. apply same_attributes_refl. }
  destruct (iterate_card env true r' mr cl (store_card c' clean_card_val st)) as [res s].
  cbn [fst snd] in *.
  destruct (has_refs_into_cset res); cbn [snd]; apply Hstep; assumption.
Qed.

(** Every buffered card that is to be refined when [updateRS] starts is
    iterated, with the closure that the worker's slot holds. *)
Lemma foldl_do_card_ptr_refines env worker_i cards : ∀ q st c,
  c ∈ cards → refined_during_gc env c st = true →
  let start := addr_for env c in
  let r := heap_region_containing env start in
  let mr := MemRegion_of start
              (MIN2 (hr_scan_top (region st r)) (start + card_size_in_words env)) in
  let cl := G1UpdateRSOrPushRefOopClosure
              (default None (cset_rs_update_cl st !! worker_i)) true worker_i r in
  ∃ evs,
    trace (foldl (fun '(q, s) c => do_card_ptr env c worker_i q s) (q, st) cards).2
    = trace st ++ evs
    ∧ EvOopsOnCard true r mr cl ∈ evs.
Proof.
  induction cards as [|c0 cards IH]; intros q st c Hin Hc; [by apply elem_of_nil in Hin|].
  cbv zeta. cbn [foldl].
  destruct (foldl_do_card_ptr_bookkeeping env worker_i cards
              (do_card_ptr env c0 worker_i q st).1 (do_card_ptr env c0 worker_i q st).2)
    as (_ & evs2 & Htr2 & _).
  destruct (decide (c0 = c)) as [->|Hne].
  - (* the card itself *)
    assert (H1 : ∃ evs1, trace (do_card_ptr env c worker_i q st).2
                         = trace st
                           ++ EvCardStore c clean_card_val
                              :: EvOopsOnCard true (heap_region_containing env (addr_for env c))
                                   (MemRegion_of (addr_for env c)
                                      (MIN2 (hr_scan_top
                                               (region st (heap_region_containing env
                                                             (addr_for env c))))
                                         (addr_for env c + card_size_in_words env)))
                                   (G1UpdateRSOrPushRefOopClosure
                                      (default None (cset_rs_update_cl st !! worker_i))
                                      true worker_i
                                      (heap_region_containing env (addr_for env c)))
                              :: evs1).
    { unfold do_card_ptr. rewrite refined_during_gc_cases, Hc. cbv zeta.
      match goal with |- context [iterate_card env true ?r ?mr ?cl ?s] =>
        pose proof (iterate_card_trace env true r mr cl s) as Htr;
        destruct (iterate_card env true r mr cl s) as [res s1] end.
      cbn [fst snd] in *. unfold store_card in Htr. cbn [trace emit with_byte_map] in Htr.
      destruct (has_refs_into_cset res); cbn [snd trace emit with_conc_refine_cards];
        rewrite Htr, <- ?app_assoc; eexists; reflexivity. }
    destruct H1 as (evs1 & Htr1).
    destruct (do_card_ptr env c worker_i q st) as [q1 st1]. cbn [fst snd] in *.
    eexists. rewrite Htr2, Htr1, <- app_assoc. split; [reflexivity|].
    cbn [app]. rewrite !elem_of_cons. auto.
  - apply elem_of_cons in Hin as [->|Hin]; [congruence|].
    destruct (refined_during_gc_do_card_ptr env c c0 worker_i q st) as [Hc1 Hs1];
      [congruence|exact Hc|].
    destruct (do_card_ptr_bookkeeping env c0 worker_i q st) as ([Hsl _] & evs1 & Htr1 & _).
    destruct (do_card_ptr env c0 worker_i q st) as [q1 st1]. cbn [fst snd] in *.
    destruct (IH q1 st1 c Hin Hc1) as (evs & Htr & Hev).
    cbv zeta in Hev. rewrite Hs1, Hsl in Hev.
    exists (evs1 ++ evs). rewrite Htr, Htr1, <- app_assoc. split; [reflexivity|].
    apply elem_of_app. by right.
Qed.

(** C6: [cleanup_after_oops_into_collection_set_do] leaves every byte of the
    card table CLEAN and does not touch the closure slots, which the
    constructor, when its guarantee holds, set to NULL.  A call of
    [oops_into_collection_set_do] puts its closure into the worker's slot on
    entry: every card of the completed buffers that is to be refined is
    iterated with a closure that holds it, no card is iterated with another
    one, and the slot is NULL again when the call returns.  Hence after
    [prepare], the workers' calls and [cleanup], all cards are CLEAN and all
    slots are NULL. *)
Theorem pause_leaves_cards_clean_and_slots_empty env :
  (∀ st, G1RemSet_new env st = None ↔ n_workers env = 0%nat)
  ∧ (∀ st st0, G1RemSet_new env st = Some st0 →
       cset_rs_update_cl st0 = replicate (n_workers env) None)
  ∧ (∀ oc worker_i st,
       (worker_i < length (cset_rs_update_cl st))%nat →
       let st' := oops_into_collection_set_do env oc worker_i st in
       cset_rs_update_cl st' = <[worker_i := None]> (cset_rs_update_cl st)
       ∧ ∃ evs,
           trace st' = trace st ++ evs
           ∧ Forall (uses_push_closure oc) evs
           ∧ ∀ c, c ∈ concat (completed_buffers st) →
                  refined_during_gc env c st = true →
                  let start := addr_for env c in
                  let r := heap_region_containing env start in
                  EvOopsOnCard true r
                    (MemRegion_of start
                       (MIN2 (hr_scan_top (region st r)) (start + card_size_in_words env)))
                    (G1UpdateRSOrPushRefOopClosure oc true worker_i r)
                  ∈ evs)
  ∧ (∀ st st',
       cleanup_after_oops_into_collection_set_do env st = Some st' →
       Forall (eq clean_card_val) (byte_map st')
       ∧ length (byte_map st') = length (byte_map st)
       ∧ cset_rs_update_cl st' = cset_rs_update_cl st)
  ∧ (∀ st st1 calls,
       Forall (eq None) (cset_rs_update_cl st) →
       Forall (fun call => (call.2 < length (cset_rs_update_cl st))%nat) calls →
       prepare_for_oops_into_collection_set_do env st = Some st1 →
       ∃ st',
         cleanup_after_oops_into_collection_set_do env (pause_workers env calls st1)
         = Some st'
         ∧ Forall (eq clean_card_val) (byte_map st')
         ∧ Forall (eq None) (cset_rs_update_cl st')).
Proof.
  assert (Hclean : ∀ st st',
            cleanup_after_oops_into_collection_set_do env st = Some st' →
            Forall (eq clean_card_val) (byte_map st')
            ∧ length (byte_map st') = length (byte_map st)
            ∧ cset_rs_update_cl st' = cset_rs_update_cl st).
  { intros st st' H. unfold cleanup_after_oops_into_collection_set_do in H.
    destruct (cards_scanned st) as [scanned|]; [|discriminate].
    injection H as <-. unfold cleanUpCardTable.
    destruct (evacuation_failed _); simpl;
      (split; [apply Forall_replicate; reflexivity|]);
      (split; [apply length_replicate|reflexivity]). }
  split; [|split; [|split; [|split; [exact Hclean|]]]].
  - intros st. unfold G1RemSet_new.
    destruct (Nat.ltb_spec 0 (n_workers env)); split; intros;
      try discriminate; try reflexivity; lia.
  - intros st st0. unfold G1RemSet_new.
    destruct (0 <? n_workers env)%nat; [|discriminate]. by intros [= <-].
  - intros oc worker_i st Hlt.
    destruct (oops_into_collection_set_do_slot env oc worker_i st Hlt)
      as (H1 & _ & evs & Htr & Hall).
    split; [exact H1|]. exists evs. split; [exact Htr|]. split; [exact Hall|].
    intros c Hin Hc. cbv zeta.
    set (st0 := with_dirty_card_queues (mutator_logs st) []
                  (with_cset_rs_update_cl (<[worker_i := oc]> (cset_rs_update_cl st)) st)).
    destruct (foldl_do_card_ptr_refines env worker_i (concat (completed_buffers st)) [] st0
                c Hin Hc) as (evs1 & Htr1 & Hev).
    cbv zeta in Hev.
    assert (Hslot : default None (cset_rs_update_cl st0 !! worker_i) = oc).
    { subst st0. cbn [cset_rs_update_cl with_dirty_card_queues with_cset_rs_update_cl].
      by rewrite list_lookup_insert_eq. }
    rewrite Hslot in Hev.
    change (region st0) with (region st) in Hev.
    assert (Hsplit : ∃ evs2, evs = evs1 ++ evs2).
    { destruct (scanRS_bookkeeping env oc worker_i
                  (foldl (fun '(q, s) c => do_card_ptr env c worker_i q s) ([], st0)
                     (concat (completed_buffers st))).2) as (_ & _ & evs2 & Htr2 & _).
      exists evs2. apply (app_inv_head (trace st)). rewrite <- Htr, app_assoc.
      change (trace st0) with (trace st) in Htr1. rewrite <- Htr1, <- Htr2.
      unfold oops_into_collection_set_do, updateRS, iterate_dirty_card_closure.
      change (completed_buffers
                (with_cset_rs_update_cl (<[worker_i:=oc]> (cset_rs_update_cl st)) st))
        with (completed_buffers st).
      change (mutator_logs
                (with_cset_rs_update_cl (<[worker_i:=oc]> (cset_rs_update_cl st)) st))
        with (mutator_logs st).
      fold st0.
      destruct (foldl _ ([], st0) (concat (completed_buffers st))) as [q1 s1].
      cbn [snd]. by destruct q1. }
    destruct Hsplit as (evs2 & ->). apply elem_of_app. by left.
  - intros st st1 calls Hnone Hw Hprep.
    unfold prepare_for_oops_into_collection_set_do in Hprep. simpl in Hprep.
    destruct (cards_scanned st); [discriminate|]. injection Hprep as <-.
    match goal with |- context [pause_workers env calls ?s] => set (st1 := s) end.
    destruct (pause_workers_slots env calls st1) as [Hn Hs]; [exact Hnone|exact Hw|by eexists|].
    destruct Hs as [scanned Hs].
    destruct (cleanup_after_oops_into_collection_set_do env (pause_workers env calls st1))
      as [st'|] eqn:Hc.
    + exists st'. split; [reflexivity|].
      destruct (Hclean _ _ Hc) as (H1 & _ & H3). split; [exact H1|]. by rewrite H3.
    + unfold cleanup_after_oops_into_collection_set_do in Hc. rewrite Hs in Hc.
      discriminate.
Qed.

(** The example heap in a pause of two workers, with card 6 in the
    completed buffers: worker 0 refines it with its closure 7. *)
Lemma pause_leaves_cards_clean_and_slots_empty_witness :
  let env := Example.collaborators Example.parsed_into_cset in
  let st := with_dirty_card_queues [] [[6%nat]] (Example.state Example.no_cache) in
  (let st' := oops_into_collection_set_do env (Some 7%nat) 0 st in
   cset_rs_update_cl st' = [None; None]
   ∧ ∃ evs,
       trace st' = trace st ++ evs
       ∧ Forall (uses_push_closure (Some 7%nat)) evs
       ∧ EvOopsOnCard true 1 (mkMemRegion 384 16)
           (G1UpdateRSOrPushRefOopClosure (Some 7%nat) true 0 1) ∈ evs)
  ∧ ∃ st',
      cleanup_after_oops_into_collection_set_do env
        (pause_workers env [(Some 7%nat, 0%nat); (Some 8%nat, 1%nat)]
           (with_cards_scanned (Some [0; 0]) 0
              (with_dirty_card_queues [] [[6%nat]]
                 (with_refine_cte_cl_concurrency false st))))
      = Some st'
      ∧ Forall (eq clean_card_val) (byte_map st')
      ∧ Forall (eq None) (cset_rs_update_cl st').
Proof.
  intros env st.
  destruct (pause_leaves_cards_clean_and_slots_empty env) as (_ & _ & Hcall & _ & Hpause).
  split.
  - destruct (Hcall (Some 7%nat) 0%nat st) as (Hslots & evs & Htr & Hall & Hev);
      [simpl; lia|].
    split; [exact Hslots|]. exists evs. split; [exact Htr|]. split; [exact Hall|].
    apply (Hev 6%nat); [simpl; constructor|reflexivity].
  - apply (Hpause st).
    + repeat constructor.
    + repeat constructor.
    + reflexivity.
Defined.

(** X4: [scanRS] changes no DIRTY card.  The card table keeps its length,
    and a card either keeps its value or was neither DIRTY nor CLAIMED and
    is CLAIMED afterwards.  The dirty card queues, the hot card cache and
    the regions' bounds, types and collection-set membership stay as they
    were. *)
Theorem scanRS_spares_dirty_cards env oc worker_i st :
  let st' := scanRS env oc worker_i st in
  cards_claimed_only (byte_map st) (byte_map st')
  ∧ (∀ i, byte_map st !! i = Some dirty_card_val → byte_map st' !! i = Some dirty_card_val)
  ∧ queues_agree st st'
  ∧ regions_agree st st'.
Proof.
  cbv zeta.
  destruct (scanRS_scan_steps env oc worker_i st)
    as (cl' & st0 & (Hq & Hr & Hc & _) & _ & ->).
  cbn [byte_map with_cards_scanned].
  split; [exact Hc|]. split; [|split; [exact Hq|exact Hr]].
  intros i Hi. destruct Hc as [_ Hc].
  destruct (Hc i) as [Heq|(_ & Hnd & _)]; [by rewrite Heq|].
  unfold is_card_dirty, card_differs in Hnd. rewrite Hi in Hnd.
  by rewrite bool_decide_eq_true_2 in Hnd.
Qed.

Lemma scanRS_spares_dirty_cards_witness :
  byte_map (scanRS (Example.collaborators Example.parsed) None 0
              (with_cards_scanned (Some [0; 0]) 0 (Example.state Example.no_cache)))
    !! 1%nat
  = Some dirty_card_val.
Proof.
  apply (scanRS_spares_dirty_cards (Example.collaborators Example.parsed) None 0
           (with_cards_scanned (Some [0; 0]) 0 (Example.state Example.no_cache))).
  reflexivity.
Defined.

(** X5: every [MemRegion] that [scanRS] hands to the closure is non-empty,
    lies in a region outside the collection set and goes to the closure
    [oc] the call was given; apart from such scans the call only claims
    cards, scans strong code roots and trims the queue.  The worker's entry
    of [_cards_scanned] ends up as the number of scans, modulo the width of
    [size_t]. *)
Theorem scanRS_counts_its_scans env oc worker_i st :
  let st' := scanRS env oc worker_i st in
  ∃ evs,
    trace st' = trace st ++ evs
    ∧ Forall (scan_event_ok st oc) evs
    ∧ cards_scanned st'
      = option_map (fun l => <[worker_i := size_t_wrap (Z.of_nat (count_scans evs))]> l)
          (cards_scanned st).
Proof.
  cbv zeta.
  destruct (scanRS_scan_steps env oc worker_i st)
    as (cl' & st0 & (_ & _ & _ & _ & _ & evs & Htr & Hev & Hd) & Hcs & Heq).
  rewrite Heq. cbn [trace cards_scanned with_cards_scanned].
  exists evs. split; [exact Htr|]. split; [exact Hev|].
  rewrite Hcs, Hd. cbn [_cards_done new_ScanRSClosure]. by rewrite size_t_increments.
Qed.

Example scanRS_counts_example :
  let st := with_cards_scanned (Some [0; 0]) 0 (Example.state Example.no_cache) in
  let st' := scanRS (Example.collaborators Example.parsed) None 0 st in
  cards_scanned st' = Some [3; 0]
  ∧ count_scans (drop (length (trace st)) (trace st')) = 3%nat.
Proof. repeat split. Qed.

(** ** Claiming blocks of a remembered set *)

Lemma doHeapRegion_loop_cons env r card_index rest current_card jump_to_card cl st :
  doHeapRegion_loop env r (card_index :: rest) current_card jump_to_card cl st
  = let js := if (jump_to_card + _block_size cl <=? current_card)%nat
              then (iter_claimed (rem_set st r),
                    update_rem_set
                      (fun _ => (iter_claimed_next (_block_size cl) (rem_set st r)).2) r st)
              else (jump_to_card, st) in
    if (current_card <? js.1)%nat
    then doHeapRegion_loop env r rest (S current_card) js.1 cl js.2
    else doHeapRegion_loop env r rest (S current_card) js.1
           (doHeapRegion_card env card_index cl js.2).1
           (doHeapRegion_card env card_index cl js.2).2.
Proof.
  cbn [doHeapRegion_loop]. unfold iter_claimed_next.
  destruct (jump_to_card + _block_size cl <=? current_card)%nat; cbn [fst snd].
  - destruct (current_card <? _)%nat; [reflexivity|].
    by destruct (doHeapRegion_card _ _ _ _).
  - destruct (current_card <? _)%nat; [reflexivity|].
    by destruct (doHeapRegion_card _ _ _ _).
Qed.

(** A worker that finds every block claimed looks at no card. *)
Lemma doHeapRegion_loop_exhausted env r cards : ∀ current_card jump_to_card cl st,
  (current_card + length cards ≤ jump_to_card)%nat →
  doHeapRegion_loop env r cards current_card jump_to_card cl st = (cl, st).
Proof.
  induction cards as [|c rest IH]; intros current_card jump_to_card cl st Hle;
    [reflexivity|].
  rewrite doHeapRegion_loop_cons. cbn [length] in Hle.
  rewrite (proj2 (Nat.leb_gt _ _)) by lia. cbv zeta. cbn [fst snd].
  rewrite (proj2 (Nat.ltb_lt _ _)) by lia. apply IH. lia.
Qed.

Lemma no_scan_owed_scan_steps env c cl st cl' st' :
  scan_steps cl st cl' st' → no_scan_owed env c st = true → no_scan_owed env c st' = true.
Proof.
  intros (_ & [_ Hr] & [_ Hc] & _). unfold no_scan_owed.
  set (r := heap_region_containing env (addr_for env c)).
  destruct (Hr r) as (Hb & _ & _ & Hs & _ & Hcs). rewrite Hb, Hs, Hcs.
  destruct (hr_in_collection_set (region st r)); [done|]. cbn [orb].
  destruct (Hc c) as [Heq|(Hcl & _ & _)].
  - destruct (is_card_dirty_lookup _ _ _ Heq) as [-> ->]. done.
  - intros _. unfold is_card_claimed at 1, card_differs. rewrite Hcl.
    rewrite bool_decide_eq_true_2 by reflexivity. cbn [negb]. by rewrite !orb_true_r.
Qed.

Lemma doHeapRegion_card_settles env card_index cl st :
  (card_index < length (byte_map st))%nat →
  no_scan_owed env card_index (doHeapRegion_card env card_index cl st).2 = true.
Proof.
  intros Hlt. unfold doHeapRegion_card, no_scan_owed.
  set (card_region := heap_region_containing env (addr_for env card_index)).
  set (st1 := if negb (hr_on_dirty_cards_region_list (region st card_region))
              then push_dirty_cards_region card_region st else st).
  assert (Hlen : (card_index < length (byte_map st1))%nat).
  { subst st1. destruct (negb _); [|exact Hlt].
    destruct (push_dirty_cards_region_frame card_region st) as (-> & _). exact Hlt. }
  clearbody st1.
  destruct (hr_in_collection_set (region st1 card_region)) eqn:Hcs; cbn [negb andb fst snd];
    [by rewrite Hcs|].
  destruct (is_card_dirty (byte_map st1) card_index) eqn:Hd; cbn [negb andb fst snd];
    [by rewrite Hcs, Hd|].
  unfold scanCard.
  set (mr := mr_intersection
               (MemRegion_of (hr_bottom (region st1 card_region))
                  (hr_scan_top (region st1 card_region)))
               (mkMemRegion (addr_for env card_index) (card_size_in_words env))).
  destruct (mr_is_empty mr) eqn:He; cbn [negb andb fst snd]; unfold mr in He;
    [by rewrite Hcs, Hd, He|].
  destruct (is_card_claimed (byte_map st1) card_index) eqn:Hc; cbn [negb andb fst snd];
    [by rewrite Hcs, Hd, He, Hc|].
  cbn [byte_map emit with_byte_map].
  unfold is_card_claimed at 1, card_differs, set_card_claimed.
  rewrite list_lookup_insert_eq by exact Hlen.
  rewrite bool_decide_eq_true_2 by reflexivity. cbn [negb]. by rewrite !orb_true_r.
Qed.

Lemma doHeapRegion_card_rem_set env card_index cl st :
  let res := doHeapRegion_card env card_index cl st in
  length (regions res.2) = length (regions st)
  ∧ (∀ r, rem_set res.2 r = rem_set st r)
  ∧ _block_size res.1 = _block_size cl.
Proof.
  unfold doHeapRegion_card.
  set (card_region := heap_region_containing env (addr_for env card_index)).
  set (st1 := if negb (hr_on_dirty_cards_region_list (region st card_region))
              then push_dirty_cards_region card_region st else st).
  assert (Hst1 : length (regions st1) = length (regions st)
                 ∧ ∀ r, rem_set st1 r = rem_set st r).
  { subst st1. destruct (negb _); [|auto].
    split; [apply push_dirty_cards_region_frame|]. intros r. unfold rem_set.
    by destruct (region_push_dirty_cards_region card_region st r) as (_ & _ & _ & ->). }
  clearbody st1. cbv zeta.
  destruct (negb (hr_in_collection_set (region st1 card_region))
            && negb (is_card_dirty (byte_map st1) card_index)); [|by destruct Hst1].
  unfold scanCard.
  destruct (negb (mr_is_empty _) && negb (is_card_claimed (byte_map st1) card_index));
    by destruct Hst1.
Qed.

(** A worker that claims every block itself looks at every card. *)
Lemma doHeapRegion_loop_lone env r cards : ∀ current_card jump_to_card cl st,
  (0 < _block_size cl)%nat → (r < length (regions st))%nat →
  (jump_to_card ≤ current_card ≤ jump_to_card + _block_size cl)%nat →
  iter_claimed (rem_set st r) = (jump_to_card + _block_size cl)%nat →
  ∀ c, c ∈ cards → (c < length (byte_map st))%nat →
    no_scan_owed env c
      (doHeapRegion_loop env r cards current_card jump_to_card cl st).2 = true.
Proof.
  induction cards as [|c0 rest IH];
    intros current_card jump_to_card cl st Hblock Hr Hcur Hit c Hin Hc;
    [by apply elem_of_nil in Hin|].
  rewrite doHeapRegion_loop_cons.
  set (js := if (jump_to_card + _block_size cl <=? current_card)%nat then _ else _).
  assert (Hjs : (js.1 ≤ current_card < js.1 + _block_size cl)%nat
                ∧ iter_claimed (rem_set js.2 r) = (js.1 + _block_size cl)%nat
                ∧ length (regions js.2) = length (regions st)
                ∧ byte_map js.2 = byte_map st).
  { subst js. destruct (Nat.leb_spec (jump_to_card + _block_size cl) current_card).
    - cbn [fst snd]. rewrite rem_set_update_rem_set_eq by exact Hr.
      unfold iter_claimed_next. cbn [snd iter_claimed].
      rewrite length_regions_update_rem_set.
      split; [lia|]. split; [lia|]. split; [reflexivity|apply update_rem_set_frame].
    - cbn [fst snd]. split; [lia|]. auto. }
  clearbody js. destruct js as [j s]. cbn [fst snd] in *.
  destruct Hjs as (Hj & Hit' & Hlen & Hbm).
  rewrite (proj2 (Nat.ltb_ge _ _)) by lia.
  destruct (doHeapRegion_card_rem_set env c0 cl s) as (Hlen1 & Hrs1 & Hb1).
  pose proof (scan_steps_doHeapRegion_card env c0 cl s) as Hsteps.
  pose proof (doHeapRegion_card_settles env c0 cl s) as Hset.
  destruct (doHeapRegion_card env c0 cl s) as [cl1 s1]. cbn [fst snd] in *.
  apply elem_of_cons in Hin as [->|Hin].
  - eapply no_scan_owed_scan_steps; [apply scan_steps_doHeapRegion_loop|].
    apply Hset. by rewrite Hbm.
  - apply IH; [lia|lia|lia|rewrite Hrs1, Hb1; exact Hit'|exact Hin|].
    destruct Hsteps as (_ & _ & [-> _] & _). by rewrite Hbm.
Qed.

(** X6: a worker that claims the iterator of a region in the first walk and
    is not joined by another worker claims every block itself, so that no
    card of the region's remembered set is left behind: afterwards each card
    of the remembered set is CLAIMED, unless it is DIRTY, lies in a region
    of the collection set or has no part in [[bottom(), scan_top())].  The
    iterator is complete afterwards. *)
Theorem doHeapRegion_lone_worker_scans_every_card env r cl st :
  (r < length (regions st))%nat →
  (0 < _block_size cl)%nat →
  _try_claimed cl = false →
  iter_state (rem_set st r) = Unclaimed →
  iter_claimed (rem_set st r) = 0%nat →
  let st' := (doHeapRegion env r cl st).2 in
  iter_state (rem_set st' r) = Complete
  ∧ ∀ c, c ∈ rs_cards (rem_set st r) → (c < length (byte_map st))%nat →
      no_scan_owed env c st' = true.
Proof.
  intros Hr Hblock Htry Hun Hcl. cbv zeta. rewrite doHeapRegion_unfold.
  unfold iter_is_complete, claim_iter. rewrite Htry, Hun.
  rewrite bool_decide_eq_false_2 by discriminate.
  rewrite bool_decide_eq_true_2 by reflexivity. cbn [negb andb fst snd]. cbv zeta.
  set (st1 := update_rem_set _ r st).
  set (st2 := push_dirty_cards_region r st1).
  assert (Hrs1 : rem_set st1 r
                 = mkHRRS (rs_cards (rem_set st r)) Claimed (iter_claimed (rem_set st r))).
  { subst st1. by rewrite rem_set_update_rem_set_eq. }
  assert (Hrs2 : rem_set st2 r = rem_set st1 r).
  { subst st2. unfold rem_set.
    by destruct (region_push_dirty_cards_region r st1 r) as (_ & _ & _ & ->). }
  assert (Hlen2 : length (regions st2) = length (regions st)).
  { subst st2 st1. destruct (push_dirty_cards_region_frame r
      (update_rem_set (λ _, mkHRRS (rs_cards (rem_set st r)) Claimed
                              (iter_claimed (rem_set st r))) r st)) as (_ & _ & ->).
    apply length_regions_update_rem_set. }
  assert (Hbm2 : byte_map st2 = byte_map st).
  { subst st2 st1. destruct (push_dirty_cards_region_frame r
      (update_rem_set (λ _, mkHRRS (rs_cards (rem_set st r)) Claimed
                              (iter_claimed (rem_set st r))) r st)) as (-> & _).
    apply update_rem_set_frame. }
  rewrite Hrs1 in Hrs2. clearbody st2. clear st1 Hrs1. rewrite Hrs2.
  unfold iter_claimed_next. cbn [fst snd rs_cards iter_claimed iter_state]. rewrite Hcl.
  set (st3 := update_rem_set _ r st2).
  pose proof (doHeapRegion_loop_lone env r (rs_cards (rem_set st r)) 0 0 cl st3) as Hloop.
  destruct (doHeapRegion_loop_trace env r (rs_cards (rem_set st r)) 0 0 cl st3)
    as ([Hlen4 _] & Htc & _).
  pose proof (scan_steps_doHeapRegion_loop env r (rs_cards (rem_set st r)) 0 0 cl st3)
    as Hsteps.
  assert (Hlen3 : length (regions st3) = length (regions st)).
  { subst st3. by rewrite length_regions_update_rem_set. }
  assert (Hbm3 : byte_map st3 = byte_map st).
  { subst st3. rewrite <- Hbm2. apply update_rem_set_frame. }
  assert (Hrs3 : iter_claimed (rem_set st3 r) = (0 + _block_size cl)%nat).
  { subst st3. rewrite rem_set_update_rem_set_eq by lia. reflexivity. }
  set (res := doHeapRegion_loop env r _ 0 0 cl st3) in *. clearbody res.
  cbn [fst snd]. rewrite Htc, Htry. cbn [negb]. split.
  - rewrite rem_set_iter_set_complete, rem_set_update_rem_set_eq; [reflexivity|].
    rewrite scan_strong_code_roots_regions. lia.
  - intros c Hin Hc.
    eapply (no_scan_owed_scan_steps env c res.1 res.2 res.1).
    + unfold iter_set_complete.
      eapply scan_steps_trans; [|apply scan_steps_emit; [exact I|reflexivity]].
      eapply scan_steps_trans; [|apply scan_steps_update_rem_set].
      unfold scan_strong_code_roots.
      eapply scan_steps_trans; apply scan_steps_emit; try reflexivity; exact I.
    + apply Hloop; [exact Hblock|lia|lia|exact Hrs3|exact Hin|by rewrite Hbm3].
Qed.

Lemma doHeapRegion_lone_worker_scans_every_card_witness :
  let env := Example.collaborators Example.parsed in
  let st := Example.state Example.no_cache in
  let st' := (doHeapRegion env 2 (new_ScanRSClosure env None 0) st).2 in
  iter_state (rem_set st' 2) = Complete
  ∧ ∀ c, c ∈ [0; 1; 3; 4; 9]%nat → (c < 16)%nat → no_scan_owed env c st' = true.
Proof.
  apply (doHeapRegion_lone_worker_scans_every_card
           (Example.collaborators Example.parsed) 2
           (new_ScanRSClosure (Example.collaborators Example.parsed) None 0)
           (Example.state Example.no_cache)).
  - simpl. lia.
  - vm_compute. lia.
  - reflexivity.
  - reflexivity.
  - reflexivity.
Defined.

(** X7: in the second walk, a worker that comes to a region whose blocks
    have all been claimed already looks at no card: the closure, the card
    table and the trace stay as they were, and the iterator is not marked
    complete by this worker. *)
Theorem doHeapRegion_all_blocks_claimed env r cl st :
  _try_claimed cl = true →
  iter_state (rem_set st r) ≠ Complete →
  (length (rs_cards (rem_set st r)) ≤ iter_claimed (rem_set st r))%nat →
  let res := doHeapRegion env r cl st in
  res.1 = (false, cl)
  ∧ byte_map res.2 = byte_map st
  ∧ trace res.2 = trace st
  ∧ iter_state (rem_set res.2 r) = iter_state (rem_set st r).
Proof.
  intros Htry Hnc Hle. cbv zeta. rewrite doHeapRegion_unfold.
  unfold iter_is_complete. rewrite bool_decide_eq_false_2 by exact Hnc.
  rewrite Htry. cbn [negb andb]. cbv zeta.
  set (st1 := update_rem_set _ r st).
  set (st2 := push_dirty_cards_region r st1).
  assert (Hrs2 : rem_set st2 r = rem_set st r).
  { subst st2. unfold rem_set at 1.
    destruct (region_push_dirty_cards_region r st1 r) as (_ & _ & _ & ->).
    fold (rem_set st1 r). subst st1. rewrite rem_set_update_rem_set.
    by case_bool_decide. }
  assert (Hfr2 : byte_map st2 = byte_map st ∧ trace st2 = trace st).
  { subst st2. destruct (push_dirty_cards_region_frame r st1) as (-> & -> & _).
    subst st1. split; apply update_rem_set_frame. }
  clearbody st2. clear st1. rewrite Hrs2.
  unfold iter_claimed_next. cbn [fst snd].
  rewrite doHeapRegion_loop_exhausted by (cbn [Nat.add]; exact Hle).
  cbn [fst snd]. rewrite Htry. cbn [negb].
  split; [reflexivity|].
  destruct (update_rem_set_frame
              (λ _, mkHRRS (rs_cards (rem_set st r)) (iter_state (rem_set st r))
                      (iter_claimed (rem_set st r) + _block_size cl)) r st2) as (Hb & Ht & _).
  rewrite Hb, Ht. destruct Hfr2 as [-> ->]. split; [reflexivity|]. split; [reflexivity|].
  rewrite rem_set_update_rem_set. case_bool_decide; [reflexivity|].
  by rewrite Hrs2.
Qed.

Lemma doHeapRegion_all_blocks_claimed_witness :
  let env := Example.collaborators Example.parsed in
  let cl := set_try_claimed (new_ScanRSClosure env None 0) in
  let st := update_rem_set (fun _ => mkHRRS [0; 1; 3; 4; 9]%nat Claimed 6) 2
              (Example.state Example.no_cache) in
  let res := doHeapRegion env 2 cl st in
  res.1 = (false, cl)
  ∧ byte_map res.2 = byte_map st
  ∧ trace res.2 = trace st
  ∧ iter_state (rem_set res.2 2) = iter_state (rem_set st 2).
Proof.
  apply (doHeapRegion_all_blocks_claimed
           (Example.collaborators Example.parsed) 2
           (set_try_claimed (new_ScanRSClosure (Example.collaborators Example.parsed) None 0))
           (update_rem_set (fun _ => mkHRRS [0; 1; 3; 4; 9]%nat Claimed 6) 2
              (Example.state Example.no_cache))).
  - reflexivity.
  - simpl. discriminate.
  - simpl. lia.
Defined.

(** ** The two walks of scanRS and the blocks of a claimed region *)

Lemma doHeapRegion_loop_rem_set env r0 cards : ∀ current_card jump_to_card cl st,
  let res := doHeapRegion_loop env r0 cards current_card jump_to_card cl st in
  length (regions res.2) = length (regions st)
  ∧ (∀ r, r ≠ r0 → rem_set res.2 r = rem_set st r)
  ∧ (iter_claimed (rem_set st r0) ≤ iter_claimed (rem_set res.2 r0))%nat.
Proof.
  induction cards as [|c rest IH]; intros current_card jump_to_card cl st;
    [cbn [doHeapRegion_loop snd]; auto|].
  cbv zeta. rewrite doHeapRegion_loop_cons.
  set (js := if (jump_to_card + _block_size cl <=? current_card)%nat then _ else _).
  assert (Hjs : length (regions js.2) = length (regions st)
                ∧ (∀ r, r ≠ r0 → rem_set js.2 r = rem_set st r)
                ∧ (iter_claimed (rem_set st r0) ≤ iter_claimed (rem_set js.2 r0))%nat).
  { subst js. destruct (jump_to_card + _block_size cl <=? current_card)%nat; cbn [snd];
      [|auto].
    split; [apply length_regions_update_rem_set|]. split.
    - intros r Hne. by apply rem_set_update_rem_set_ne.
    - rewrite rem_set_update_rem_set. case_bool_decide; [|lia].
      unfold iter_claimed_next. cbn [snd iter_claimed]. lia. }
  clearbody js. destruct js as [j s]. cbn [fst snd] in *.
  destruct Hjs as (Hl & Ho & Hc).
  destruct (current_card <? j)%nat.
  - destruct (IH (S current_card) j cl s) as (Hl2 & Ho2 & Hc2).
    split; [congruence|]. split; [|lia].
    intros r Hne. rewrite Ho2 by exact Hne. by apply Ho.
  - destruct (doHeapRegion_card_rem_set env c cl s) as (Hl1 & Hr1 & _).
    destruct (IH (S current_card) j (doHeapRegion_card env c cl s).1
                (doHeapRegion_card env c cl s).2) as (Hl2 & Ho2 & Hc2).
    rewrite Hr1 in Hc2.
    split; [congruence|]. split; [|lia].
    intros r Hne. rewrite Ho2, Hr1 by exact Hne. by apply Ho.
Qed.

(** One call of [doHeapRegion] on [r0]: the remembered sets of the other
    regions stay as they are, the claim offset of [r0] does not go back, and
    with [_try_claimed] set a block is claimed from an iterator that is not
    complete. *)
Lemma doHeapRegion_rem_set env r0 cl st :
  let st' := (doHeapRegion env r0 cl st).2 in
  (∀ r, r ≠ r0 → rem_set st' r = rem_set st r)
  ∧ (iter_claimed (rem_set st r0) ≤ iter_claimed (rem_set st' r0))%nat
  ∧ (_try_claimed cl = true → iter_state (rem_set st r0) ≠ Complete →
     (r0 < length (regions st))%nat →
     (iter_claimed (rem_set st r0) + _block_size cl ≤ iter_claimed (rem_set st' r0))%nat).
Proof.
  cbv zeta. rewrite doHeapRegion_unfold. unfold iter_is_complete.
  case_bool_decide as Hcomplete; [cbn [snd]; split; [auto|split; [lia|tauto]]|].
  destruct (negb (_try_claimed cl) && negb (claim_iter (rem_set st r0)).1) eqn:Hskip.
  { cbn [snd]. split; [auto|]. split; [lia|]. intros Htc. rewrite Htc in Hskip.
    discriminate. }
  cbv zeta. cbn [snd].
  set (hrrs' := if negb (_try_claimed cl) then (claim_iter (rem_set st r0)).2
                else rem_set st r0).
  assert (Hh : iter_claimed hrrs' = iter_claimed (rem_set st r0)).
  { subst hrrs'. unfold claim_iter.
    destruct (negb (_try_claimed cl)); [|reflexivity]. by case_bool_decide. }
  set (st1 := update_rem_set (fun _ => hrrs') r0 st).
  set (st2 := push_dirty_cards_region r0 st1).
  assert (H2 : length (regions st2) = length (regions st)
               ∧ (∀ r, r ≠ r0 → rem_set st2 r = rem_set st r)
               ∧ iter_claimed (rem_set st2 r0) = iter_claimed (rem_set st r0)).
  { assert (Hrs : ∀ r, rem_set st2 r = rem_set st1 r).
    { intros r. subst st2. unfold rem_set.
      by destruct (region_push_dirty_cards_region r0 st1 r) as (_ & _ & _ & ->). }
    split.
    { subst st2. destruct (push_dirty_cards_region_frame r0 st1) as (_ & _ & ->).
      subst st1. apply length_regions_update_rem_set. }
    split.
    - intros r Hne. rewrite Hrs. subst st1. by apply rem_set_update_rem_set_ne.
    - rewrite Hrs. subst st1. rewrite rem_set_update_rem_set.
      case_bool_decide; [exact Hh|reflexivity]. }
  clearbody st2. clear st1. destruct H2 as (Hl2 & Ho2 & Hc2).
  set (st3 := update_rem_set _ r0 st2).
  assert (H3 : length (regions st3) = length (regions st)
               ∧ (∀ r, r ≠ r0 → rem_set st3 r = rem_set st r)
               ∧ (iter_claimed (rem_set st r0) ≤ iter_claimed (rem_set st3 r0))%nat
               ∧ ((r0 < length (regions st))%nat →
                  iter_claimed (rem_set st3 r0)
                  = (iter_claimed (rem_set st r0) + _block_size cl)%nat)).
  { subst st3. split; [by rewrite length_regions_update_rem_set|]. split.
    - intros r Hne. rewrite rem_set_update_rem_set_ne by congruence. by apply Ho2.
    - rewrite rem_set_update_rem_set. unfold iter_claimed_next. cbn [snd].
      case_bool_decide as Hin; cbn [iter_claimed]; [split; lia|].
      split; [lia|]. intros Hlt. exfalso. apply Hin. split; [reflexivity|lia]. }
  destruct (doHeapRegion_loop_rem_set env r0 (rs_cards (rem_set st2 r0)) 0
              (iter_claimed_next (_block_size cl) (rem_set st2 r0)).1 cl st3)
    as (Hl4 & Ho4 & Hc4).
  set (res := doHeapRegion_loop env r0 _ 0 _ cl st3) in *. clearbody res st3.
  destruct H3 as (Hl3 & Ho3 & Hc3 & Hs3).
  assert (Hfinal : ∀ s, (∀ r, rem_set s r = rem_set res.2 r)
                        ∨ ((∀ r, r ≠ r0 → rem_set s r = rem_set res.2 r)
                           ∧ iter_claimed (rem_set s r0) = iter_claimed (rem_set res.2 r0)) →
            (∀ r, r ≠ r0 → rem_set s r = rem_set st r)
            ∧ (iter_claimed (rem_set st r0) ≤ iter_claimed (rem_set s r0))%nat
            ∧ (_try_claimed cl = true → iter_state (rem_set st r0) ≠ Complete →
               (r0 < length (regions st))%nat →
               (iter_claimed (rem_set st r0) + _block_size cl
                ≤ iter_claimed (rem_set s r0))%nat)).
  { intros s Hs.
    assert (Hs' : (∀ r, r ≠ r0 → rem_set s r = rem_set res.2 r)
                  ∧ iter_claimed (rem_set s r0) = iter_claimed (rem_set res.2 r0)).
    { destruct Hs as [Hall|Hs]; [|exact Hs]. split; [auto|by rewrite Hall]. }
    destruct Hs' as [Hso Hsc]. split.
    - intros r Hne. rewrite Hso, Ho4 by exact Hne. by apply Ho3.
    - rewrite Hsc. split; [lia|]. intros _ _ Hlt. specialize (Hs3 Hlt). lia. }
  destruct (negb (_try_claimed res.1)); apply Hfinal; [right|by left].
  split.
  - intros r Hne. rewrite rem_set_iter_set_complete.
    rewrite rem_set_update_rem_set_ne by congruence.
    apply rem_set_scan_strong_code_roots.
  - rewrite rem_set_iter_set_complete, rem_set_update_rem_set.
    case_bool_decide; rewrite rem_set_scan_strong_code_roots; reflexivity.
Qed.

(** The first walk leaves a region alone whose iterator is not unclaimed. *)
Lemma heap_region_iterate_first_walk_leaves env order r : ∀ cl st,
  _try_claimed cl = false → iter_state (rem_set st r) ≠ Unclaimed →
  rem_set (heap_region_iterate env order cl st).2 r = rem_set st r.
Proof.
  induction order as [|r0 order IH]; intros cl st Htc Hu; cbn [heap_region_iterate];
    [reflexivity|].
  destruct (decide (r0 = r)) as [->|Hne].
  - rewrite doHeapRegion_not_unclaimed by assumption. by apply IH.
  - destruct (doHeapRegion_result env r0 cl st) as [Hstop Htc1].
    destruct (doHeapRegion_rem_set env r0 cl st) as (Ho & _).
    destruct (doHeapRegion env r0 cl st) as [[stop cl1] st1]. cbn [fst snd] in *.
    subst stop. rewrite IH; [apply Ho; congruence|congruence|].
    rewrite Ho by congruence. exact Hu.
Qed.

(** The second walk claims a block from every region of the walk whose
    iterator is not complete. *)
Lemma heap_region_iterate_second_walk_claims env order r : ∀ cl st,
  _try_claimed cl = true →
  let st' := (heap_region_iterate env order cl st).2 in
  (iter_claimed (rem_set st r) ≤ iter_claimed (rem_set st' r))%nat
  ∧ (r ∈ order → iter_state (rem_set st r) ≠ Complete → (r < length (regions st))%nat →
     (iter_claimed (rem_set st r) + _block_size cl ≤ iter_claimed (rem_set st' r))%nat).
Proof.
  induction order as [|r0 order IH]; intros cl st Htc; cbn [heap_region_iterate].
  { cbn [snd]. split; [lia|]. intros H. by apply elem_of_nil in H. }
  destruct (doHeapRegion_result env r0 cl st) as [Hstop Htc1].
  destruct (doHeapRegion_rem_set env r0 cl st) as (Ho & Hmono & Hstrict).
  destruct (doHeapRegion_iter_state env r0 cl st r) as [Hlen Hit].
  destruct (scan_steps_doHeapRegion env r0 cl st) as (_ & _ & _ & _ & Hblock & _).
  destruct (doHeapRegion env r0 cl st) as [[stop cl1] st1]. cbn [fst snd] in *.
  subst stop.
  rewrite bool_decide_eq_false_2 in Hit by (intros (_ & _ & H & _); congruence).
  destruct (IH cl1 st1) as [Hmono2 Hstrict2]; [congruence|]. cbv zeta in *.
  destruct (decide (r0 = r)) as [->|Hne].
  - split; [lia|]. intros _ Hnc Hlt. specialize (Hstrict Htc Hnc Hlt). lia.
  - rewrite (Ho r) in Hmono2, Hstrict2 by congruence. split; [exact Hmono2|].
    intros Hin Hnc Hlt. apply elem_of_cons in Hin as [->|Hin]; [congruence|].
    rewrite <- Hblock. apply Hstrict2; [exact Hin|exact Hnc|by rewrite Hlen].
Qed.

Lemma scanRS_second_walk_claims_a_block env oc worker_i st r :
  iter_state (rem_set st r) = Claimed →
  (r < length (regions st))%nat →
  r ∈ collection_set_from env
        (collection_set_iterate_from env (new_ScanRSClosure env oc worker_i) worker_i st).2
        worker_i →
  rem_set (collection_set_iterate_from env (new_ScanRSClosure env oc worker_i)
             worker_i st).2 r
  = rem_set st r
  ∧ (iter_claimed (rem_set st r) + _block_size (new_ScanRSClosure env oc worker_i)
     ≤ iter_claimed (rem_set (scanRS env oc worker_i st) r))%nat.
Proof.
  intros Hcl Hlt. unfold scanRS, collection_set_iterate_from.
  pose proof (heap_region_iterate_first_walk_leaves env
                (collection_set_from env st worker_i) r
                (new_ScanRSClosure env oc worker_i) st eq_refl) as Hfirst.
  destruct (heap_region_iterate_iter_state env (collection_set_from env st worker_i)
              (new_ScanRSClosure env oc worker_i) st) as (Hlen1 & _).
  destruct (scan_steps_heap_region_iterate env (collection_set_from env st worker_i)
              (new_ScanRSClosure env oc worker_i) st) as (_ & _ & _ & _ & Hblock & _).
  destruct (heap_region_iterate env (collection_set_from env st worker_i)
              (new_ScanRSClosure env oc worker_i) st) as [cl1 st1].
  cbn [fst snd] in *. intros Hin.
  rewrite Hfirst by congruence. split; [reflexivity|].
  destruct (heap_region_iterate_second_walk_claims env
              (collection_set_from env st1 worker_i) r (set_try_claimed cl1) st1 eq_refl)
    as [_ Hstrict].
  cbv zeta in Hstrict.
  destruct (heap_region_iterate env (collection_set_from env st1 worker_i)
              (set_try_claimed cl1) st1) as [cl2 st2]. cbn [fst snd] in *.
  unfold rem_set, region. cbn [regions with_cards_scanned].
  fold (region st2 r). fold (rem_set st2 r). fold (region st r). fold (rem_set st r).
  rewrite Hfirst in Hstrict by congruence.
  change (_block_size (set_try_claimed cl1)) with (_block_size cl1) in Hstrict.
  rewrite Hblock in Hstrict. apply Hstrict; [exact Hin|congruence|lia].
Qed.

(** C4: [scanRS] walks the collection set twice, the second time with
    [_try_claimed] set.  A region of the worker's walk whose iterator is
    unclaimed is claimed by this worker in the first walk: the worker scans
    cards, then the region's strong code roots, and then marks the iterator
    complete, once each and in this order.  A region whose iterator is not
    unclaimed any more is not claimed: this worker neither scans its code
    roots nor completes its iterator.  Hence, over the workers of a pause,
    exactly one claims the region, namely the first that has it in its
    walk.  A region that another worker has claimed and not yet completed
    is left alone in the first walk and entered in the second, where this
    worker claims a block of its cards.  A complete iterator makes
    [doHeapRegion] return at once in either walk, and it stays complete
    through every later walk. *)
Theorem scanRS_claim_once_then_complete env :
  (∀ oc worker_i st r,
     r ∈ collection_set_from env st worker_i →
     (r < length (regions st))%nat →
     iter_state (rem_set st r) = Unclaimed →
     let st' := scanRS env oc worker_i st in
     iter_state (rem_set st' r) = Complete
     ∧ ∃ evs, trace st' = trace st ++ evs
              ∧ List.filter (iterator_event r) evs
                = [EvStrongCodeRoots r; EvSetIterComplete r])
  ∧ (∀ oc worker_i st r,
       iter_state (rem_set st r) ≠ Unclaimed →
       let st' := scanRS env oc worker_i st in
       iter_state (rem_set st' r) = iter_state (rem_set st r)
       ∧ ∃ evs, trace st' = trace st ++ evs ∧ List.filter (iterator_event r) evs = [])
  ∧ (∀ oc worker_i calls st r,
       r ∈ collection_set_from env st worker_i →
       (r < length (regions st))%nat →
       iter_state (rem_set st r) = Unclaimed →
       let st1 := scanRS env oc worker_i st in
       let st' := scanRS_workers env calls st1 in
       iter_state (rem_set st' r) = Complete
       ∧ ∃ evs1 evs,
           trace st1 = trace st ++ evs1 ∧ trace st' = trace st1 ++ evs
           ∧ List.filter (iterator_event r) evs1
             = [EvStrongCodeRoots r; EvSetIterComplete r]
           ∧ List.filter (iterator_event r) evs = [])
  ∧ (∀ oc worker_i st r,
       iter_state (rem_set st r) = Claimed →
       (r < length (regions st))%nat →
       let first := collection_set_iterate_from env
                      (new_ScanRSClosure env oc worker_i) worker_i st in
       r ∈ collection_set_from env first.2 worker_i →
       let st' := scanRS env oc worker_i st in
       rem_set first.2 r = rem_set st r
       ∧ (iter_claimed (rem_set st r) + _block_size (new_ScanRSClosure env oc worker_i)
          ≤ iter_claimed (rem_set st' r))%nat)
  ∧ (∀ r cl st,
       _try_claimed cl = false → iter_state (rem_set st r) = Unclaimed →
       (r < length (regions st))%nat →
       let st' := (doHeapRegion env r cl st).2 in
       (∃ evs, trace st' = trace st ++ (evs ++ [EvStrongCodeRoots r; EvTrimQueuePartially;
                                                EvSetIterComplete r])
               ∧ forallb is_card_event evs = true)
       ∧ iter_state (rem_set st' r) = Complete)
  ∧ (∀ r cl st,
       iter_state (rem_set st r) = Complete →
       doHeapRegion env r cl st = (false, cl, st))
  ∧ (∀ r cl st,
       _try_claimed cl = false → iter_state (rem_set st r) ≠ Unclaimed →
       doHeapRegion env r cl st = (false, cl, st))
  ∧ (∀ order cl st cl2,
       _try_claimed cl = false → _try_claimed cl2 = false →
       (∀ r, r ∈ order → (r < length (regions st))%nat) →
       let st' := (heap_region_iterate env order cl st).2 in
       heap_region_iterate env order cl2 st' = (cl2, st'))
  ∧ (∀ order cl st r,
       iter_state (rem_set st r) = Complete →
       iter_state (rem_set (heap_region_iterate env order cl st).2 r) = Complete)
  ∧ (∀ oc worker_i st,
       scanRS env oc worker_i st
       = let first := collection_set_iterate_from env
                        (new_ScanRSClosure env oc worker_i) worker_i st in
         let second := collection_set_iterate_from env
                         (set_try_claimed first.1) worker_i first.2 in
         with_cards_scanned
           (option_map (fun l => <[worker_i := _cards_done second.1]> l)
              (cards_scanned second.2))
           (total_cards_scanned second.2) second.2).
Proof.
  assert (Hclaim : ∀ oc worker_i st r,
            r ∈ collection_set_from env st worker_i →
            (r < length (regions st))%nat →
            iter_state (rem_set st r) = Unclaimed →
            iter_state (rem_set (scanRS env oc worker_i st) r) = Complete
            ∧ ∃ evs, trace (scanRS env oc worker_i st) = trace st ++ evs
                     ∧ List.filter (iterator_event r) evs
                       = [EvStrongCodeRoots r; EvSetIterComplete r]).
  { intros oc worker_i st r Hin Hlt Hu.
    destruct (scanRS_iterator_events env oc worker_i st r Hlt) as (_ & Hit & evs & Htr & Hf).
    rewrite bool_decide_eq_true_2 in Hit, Hf by auto. eauto. }
  split; [exact Hclaim|].
  split; [|split; [|split; [|split; [|split; [|split; [|split; [|split]]]]]]].
  - intros oc worker_i st r Hu.
    assert (Hlt : (r < length (regions st))%nat).
    { apply Nat.nlt_ge. intros Hge. assert (Hge' : (length (regions st) ≤ r)%nat) by lia.
      apply Hu. unfold rem_set, region. by rewrite (lookup_ge_None_2 _ _ Hge'). }
    destruct (scanRS_iterator_events env oc worker_i st r Hlt) as (_ & Hit & evs & Htr & Hf).
    rewrite bool_decide_eq_false_2 in Hit, Hf by tauto. eauto.
  - intros oc worker_i calls st r Hin Hlt Hu.
    destruct (Hclaim oc worker_i st r Hin Hlt Hu) as (Hc & evs1 & Htr1 & Hf1).
    destruct (scanRS_workers_after_completion env r calls (scanRS env oc worker_i st) Hc)
      as (Hc2 & evs & Htr & Hf).
    split; [exact Hc2|]. exists evs1, evs. auto.
  - intros oc worker_i st r Hcl Hlt first Hin st'. subst first st'.
    by apply scanRS_second_walk_claims_a_block.
  - intros r cl st Htc Hu Hlt st'. split.
    + by apply doHeapRegion_claimant_trace.
    + subst st'. destruct (doHeapRegion_iter_state env r cl st r) as [_ ->].
      by rewrite bool_decide_eq_true_2.
  - intros r cl st. apply doHeapRegion_complete.
  - intros r cl st. apply doHeapRegion_not_unclaimed.
  - intros order cl st cl2 Htc Htc2 Hin st'.
    apply heap_region_iterate_nothing_to_claim; [exact Htc2|].
    intros r Hr. subst st'.
    destruct (heap_region_iterate_iter_state env order cl st) as (_ & _ & _ & H).
    apply H; auto.
  - intros order cl st r Hc.
    destruct (heap_region_iterate_iter_state env order cl st) as (_ & H & _).
    by apply H.
  - intros oc worker_i st. unfold scanRS.
    destruct (collection_set_iterate_from env _ worker_i st) as [cl1 st1]. simpl.
    destruct (collection_set_iterate_from env _ worker_i st1) as [cl2 st2]. reflexivity.
Qed.

(** Region 2 of the example heap is in the collection set and unclaimed.
    Worker 0 claims it; worker 1, which has it in its walk as well, comes
    second and leaves it alone.  When the region is claimed and its first
    block taken on entry, worker 1 takes a further block in its second
    walk. *)
Lemma scanRS_claim_once_then_complete_witness :
  let env := Example.collaborators Example.parsed in
  let st := with_cards_scanned (Some [0; 0]) 0 (Example.state Example.no_cache) in
  let st1 := scanRS env (Some 7%nat) 0 st in
  let st' := scanRS_workers env [(Some 8%nat, 1%nat)] st1 in
  let claimed := update_rem_set (fun _ => mkHRRS [0; 1; 3; 4; 9]%nat Claimed 2) 2 st in
  (iter_state (rem_set st' 2) = Complete
   ∧ ∃ evs1 evs,
       trace st1 = trace st ++ evs1 ∧ trace st' = trace st1 ++ evs
       ∧ List.filter (iterator_event 2) evs1 = [EvStrongCodeRoots 2; EvSetIterComplete 2]
       ∧ List.filter (iterator_event 2) evs = [])
  ∧ (2 + 2 ≤ iter_claimed (rem_set (scanRS env (Some 8%nat) 1 claimed) 2))%nat.
Proof.
  intros env st.
  destruct (scanRS_claim_once_then_complete env) as (_ & _ & H & Hsecond & _).
  split.
  - apply (H (Some 7%nat) 0%nat [(Some 8%nat, 1%nat)] st 2%nat).
    + vm_compute. constructor.
    + simpl. lia.
    + reflexivity.
  - apply (Hsecond (Some 8%nat) 1%nat
             (update_rem_set (fun _ => mkHRRS [0; 1; 3; 4; 9]%nat Claimed 2) 2 st) 2%nat).
    + reflexivity.
    + simpl. lia.
    + vm_compute. constructor.
Defined.

Example scanRS_example :
  let env := Example.collaborators Example.parsed in
  let st' := scanRS env (Some 7%nat) 0
               (with_cards_scanned (Some [0; 0]) 0 (Example.state Example.no_cache)) in
  trace st'
  = [EvSetCardClaimed 0; EvScanMemRegion 0 (mkMemRegion 0 64) (Some 7%nat);
     EvSetCardClaimed 3; EvScanMemRegion 0 (mkMemRegion 192 8) (Some 7%nat);
     EvSetCardClaimed 4; EvScanMemRegion 1 (mkMemRegion 256 64) (Some 7%nat);
     EvStrongCodeRoots 2; EvTrimQueuePartially; EvSetIterComplete 2]
  ∧ cards_scanned st' = Some [3; 0]
  ∧ iter_state (rem_set st' 2) = Complete.
Proof. repeat split. Qed.

(** ** Where the cards with references into the collection set go *)

Lemma into_cset_enqueued_app evs1 evs2 :
  into_cset_enqueued (evs1 ++ evs2) = into_cset_enqueued evs1 ++ into_cset_enqueued evs2.
Proof.
  induction evs1 as [|e evs1 IH]; [reflexivity|].
  destruct e; cbn [app into_cset_enqueued]; rewrite IH; reflexivity.
Qed.

Lemma scan_events_enqueue_nothing st oc evs :
  Forall (scan_event_ok st oc) evs → into_cset_enqueued evs = [].
Proof.
  induction 1 as [|e evs He _ IH]; [reflexivity|].
  destruct e; cbn [into_cset_enqueued]; try exact IH. destruct He.
Qed.

Lemma refine_card_during_gc_enqueues_nothing env card_ptr worker_i st :
  ∃ evs, trace (refine_card_during_gc env card_ptr worker_i st).2 = trace st ++ evs
         ∧ into_cset_enqueued evs = [].
Proof.
  rewrite refine_card_during_gc_cases. cbv zeta.
  match goal with |- context [if ?b then _ else _] => destruct b end; cbn [snd];
    [|exists []; by rewrite app_nil_r].
  unfold with_conc_refine_cards. cbn [trace]. rewrite iterate_card_trace.
  unfold store_card. cbn [trace emit with_byte_map]. rewrite <- app_assoc.
  eexists. split; reflexivity.
Qed.

Lemma do_card_ptr_queue env card_ptr worker_i q st :
  let res := do_card_ptr env card_ptr worker_i q st in
  queues_agree st res.2
  ∧ ∃ evs, trace res.2 = trace st ++ evs
           ∧ res.1 = q ++ into_cset_enqueued evs
           ∧ into_cset_enqueued evs `sublist_of` [card_ptr].
Proof.
  cbv zeta. unfold do_card_ptr.
  pose proof (queues_agree_refine_card_during_gc env card_ptr worker_i st) as Hq.
  destruct (refine_card_during_gc_enqueues_nothing env card_ptr worker_i st)
    as (evs & Htr & Hnone).
  destruct (refine_card_during_gc env card_ptr worker_i st) as [into_cset st1].
  cbn [fst snd] in *. destruct into_cset; cbn [fst snd].
  - split; [destruct Hq as (?&?&?&?&?&?&?); repeat split; assumption|].
    exists (evs ++ [EvTrimQueuePartially; EvIntoCSetEnqueue card_ptr]).
    cbn [trace emit]. rewrite Htr, <- !app_assoc, into_cset_enqueued_app, Hnone.
    split; [reflexivity|]. split; reflexivity.
  - split; [exact Hq|]. exists evs. rewrite Hnone, app_nil_r.
    split; [exact Htr|]. split; [reflexivity|]. apply sublist_nil_l.
Qed.

Lemma foldl_do_card_ptr_queue env worker_i cards : ∀ q st,
  let res := foldl (fun '(q, s) c => do_card_ptr env c worker_i q s) (q, st) cards in
  queues_agree st res.2
  ∧ ∃ evs, trace res.2 = trace st ++ evs
           ∧ res.1 = q ++ into_cset_enqueued evs
           ∧ into_cset_enqueued evs `sublist_of` cards.
Proof.
  induction cards as [|c cards IH]; intros q st; cbn [foldl].
  { split; [apply queues_agree_refl|]. exists []. rewrite !app_nil_r. auto. }
  destruct (do_card_ptr_queue env c worker_i q st) as (Hq1 & evs1 & Htr1 & Hres1 & Hsub1).
  destruct (do_card_ptr env c worker_i q st) as [q1 st1]. cbn [fst snd] in *.
  destruct (IH q1 st1) as (Hq2 & evs2 & Htr2 & Hres2 & Hsub2).
  split; [eapply queues_agree_trans; eassumption|].
  exists (evs1 ++ evs2).
  rewrite Htr2, Htr1, Hres2, Hres1, into_cset_enqueued_app, <- !app_assoc.
  split; [reflexivity|]. split; [reflexivity|].
  by apply (sublist_app _ [c]).
Qed.

(** One worker's call and the dirty card queues. *)
Lemma oops_into_collection_set_do_queues env oc worker_i st :
  let st' := oops_into_collection_set_do env oc worker_i st in
  ∃ evs,
    trace st' = trace st ++ evs
    ∧ into_cset_enqueued evs `sublist_of` concat (completed_buffers st)
    ∧ completed_buffers st' = []
    ∧ mutator_logs st' = mutator_logs st
    ∧ evacuation_failed st' = evacuation_failed st
    ∧ (is_Some (cards_scanned st) → is_Some (cards_scanned st'))
    ∧ into_cset_completed_buffers st'
      = into_cset_completed_buffers st
        ++ match into_cset_enqueued evs with [] => [] | q => [q] end.
Proof.
  cbv zeta. unfold oops_into_collection_set_do, updateRS, iterate_dirty_card_closure.
  set (st0 := with_dirty_card_queues _ [] _).
  destruct (foldl_do_card_ptr_queue env worker_i (concat (completed_buffers st)) [] st0)
    as (Hq1 & evs1 & Htr1 & Hres1 & Hsub1).
  destruct (foldl_do_card_ptr_bookkeeping env worker_i (concat (completed_buffers st)) [] st0)
    as ([_ Hcs1] & _).
  change (completed_buffers
            (with_cset_rs_update_cl (<[worker_i:=oc]> (cset_rs_update_cl st)) st))
    with (completed_buffers st).
  destruct (foldl _ ([], st0) (concat (completed_buffers st))) as [q st1].
  cbn [fst snd app] in *.
  destruct (scanRS_scan_steps env oc worker_i st1)
    as (cl' & st2' & (Hq2 & _ & _ & _ & _ & evs2 & Htr2 & Hev2 & _) & _ & Heq).
  destruct (scanRS_bookkeeping env oc worker_i st1) as (_ & Hcs2 & _).
  assert (Hq2' : queues_agree st1 (scanRS env oc worker_i st1)
                 ∧ trace (scanRS env oc worker_i st1) = trace st1 ++ evs2).
  { rewrite Heq. split; [exact Hq2|exact Htr2]. }
  clear Heq Hq2 Htr2 st2' cl'. destruct Hq2' as [Hq2 Htr2].
  set (st2 := scanRS env oc worker_i st1) in *. clearbody st2.
  pose proof (queues_agree_trans _ _ _ Hq1 Hq2) as (_ & Hml & Hcb & Hic & _ & Hef & _).
  assert (Henq : into_cset_enqueued (evs1 ++ evs2) = q).
  { rewrite into_cset_enqueued_app, (scan_events_enqueue_nothing _ _ _ Hev2), app_nil_r.
    by rewrite Hres1. }
  assert (Hsome : is_Some (cards_scanned st) → is_Some (cards_scanned st2)).
  { intros H. apply Hcs2. rewrite Hcs1. exact H. }
  exists (evs1 ++ evs2). rewrite Henq.
  assert (Htr : trace st2 = trace st ++ evs1 ++ evs2).
  { rewrite Htr2, Htr1, <- app_assoc. reflexivity. }
  rewrite <- Henq, into_cset_enqueued_app, (scan_events_enqueue_nothing _ _ _ Hev2),
    app_nil_r. rewrite <- Hres1.
  destruct q;
    cbn [trace completed_buffers mutator_logs evacuation_failed cards_scanned
         into_cset_completed_buffers with_into_cset_completed_buffers
         with_cset_rs_update_cl];
    rewrite ?app_nil_r; repeat split; try assumption; try (by rewrite Hic).
  all: by rewrite Hres1.
Qed.

(** X8: a worker's call of [oops_into_collection_set_do] drains the
    completed buffers of the dirty card queue set and leaves the mutators'
    logs alone.  The cards it records as having references into the
    collection set are cards of those buffers, in their order, and they are
    handed to the into-cset queue set as one more buffer when the call
    ends; a call that recorded no card hands over nothing. *)
Theorem oops_into_collection_set_do_hands_over_its_queue env oc worker_i st :
  let st' := oops_into_collection_set_do env oc worker_i st in
  ∃ evs,
    trace st' = trace st ++ evs
    ∧ into_cset_enqueued evs `sublist_of` concat (completed_buffers st)
    ∧ completed_buffers st' = []
    ∧ mutator_logs st' = mutator_logs st
    ∧ into_cset_completed_buffers st'
      = into_cset_completed_buffers st
        ++ match into_cset_enqueued evs with [] => [] | q => [q] end.
Proof.
  cbv zeta.
  destruct (oops_into_collection_set_do_queues env oc worker_i st)
    as (evs & H1 & H2 & H3 & H4 & _ & _ & H5).
  exists evs. auto.
Qed.

Example oops_into_collection_set_do_example :
  let env := Example.collaborators Example.parsed_into_cset in
  let st := with_dirty_card_queues [] [[9; 6]; [1]]%nat (Example.state Example.no_cache) in
  let st' := oops_into_collection_set_do env None 0 st in
  into_cset_completed_buffers st' = [[6; 1]%nat] ∧ completed_buffers st' = [].
Proof. split; reflexivity. Qed.




Example pause_records_cards_into_cset :
  let env := Example.collaborators Example.parsed_into_cset in
  let st := with_dirty_card_queues [[9; 6]; []; [1]]%nat [] (Example.state Example.no_cache) in
  option_map
    (fun st1 => into_cset_completed_buffers
                  (pause_workers env [(None, 0%nat); (None, 1%nat)] st1))
    (prepare_for_oops_into_collection_set_do env st)
  = Some [[6; 1]%nat].
Proof. reflexivity. Qed.

(** ** The rebuild hands live objects only to the closure *)

Section RebuildLive.

Import G1RebuildRemSetHeapRegionClosure.

Context (hr : HeapRegion) (bitmap : CMBitMap) (tams : Z) (mr : MemRegion).

Lemma getNextMarkedWordAddress_limit_or_marked addr limit :
  getNextMarkedWordAddress bitmap addr limit = limit
  ∨ isMarked bitmap (getNextMarkedWordAddress bitmap addr limit) = true.
Proof.
  destruct (Z.le_gt_cases addr limit) as [Hle|Hgt].
  - destruct (getNextMarkedWordAddress_spec bitmap addr limit Hle) as (Hr & _ & Hm).
    destruct (Z.eq_dec (getNextMarkedWordAddress bitmap addr limit) limit); [by left|].
    right. apply Hm. lia.
  - left. unfold getNextMarkedWordAddress.
    replace (Z.to_nat (limit - addr)) with 0%nat by lia. reflexivity.
Qed.

Lemma settled_search a :
  settled bitmap tams mr
    (mkLiveObjIterator bitmap tams mr
       (getNextMarkedWordAddress bitmap a (MIN2 tams (mr_end mr)))).
Proof.
  split; [reflexivity|]. split; [reflexivity|]. split; [reflexivity|].
  cbn [_current].
  destruct (getNextMarkedWordAddress_limit_or_marked a (MIN2 tams (mr_end mr)))
    as [->|Hm]; [|auto].
  rewrite MIN2_min. lia.
Qed.

Lemma settled_move_if_below_tams a :
  settled bitmap tams mr (move_if_below_tams (mkLiveObjIterator bitmap tams mr a)).
Proof.
  unfold move_if_below_tams, is_below_tams, has_next, bitmap_limit, set_current.
  cbn [_current _tams _mr _bitmap].
  destruct (Z.ltb_spec a tams); destruct (Z.ltb_spec a (mr_end mr)); cbn [andb];
    [apply settled_search| | |];
    (split; [reflexivity|]; split; [reflexivity|]; split; [reflexivity|];
     cbn [_current]; lia).
Qed.

Lemma settled_new_LiveObjIterator first_oop_into_mr :
  settled bitmap tams mr (new_LiveObjIterator hr bitmap tams mr first_oop_into_mr).
Proof.
  unfold new_LiveObjIterator, is_live, is_below_tams, set_current, bitmap_limit.
  cbn [_current _tams _mr _bitmap].
  destruct (Z.ltb_spec first_oop_into_mr tams) as [Hlt|Hge]; cbn [negb orb].
  - destruct (isMarked bitmap first_oop_into_mr) eqn:Hm; [|apply settled_search].
    destruct ((first_oop_into_mr <? mr_start mr)
              && negb (oop_is_objArray (oop hr first_oop_into_mr)));
      [apply settled_move_if_below_tams|].
    split; [reflexivity|]. split; [reflexivity|]. split; [reflexivity|]. auto.
  - destruct ((first_oop_into_mr <? mr_start mr)
              && negb (oop_is_objArray (oop hr first_oop_into_mr)));
      [apply settled_move_if_below_tams|].
    split; [reflexivity|]. split; [reflexivity|]. split; [reflexivity|].
    cbn [_current]. lia.
Qed.

Lemma live_objects_do_live top_at_mark_start fuel : ∀ it marked_words evs res,
  settled bitmap tams mr it →
  Forall (iterates_live bitmap tams mr) evs →
  live_objects_do fuel hr top_at_mark_start mr it marked_words evs = Some res →
  Forall (iterates_live bitmap tams mr) res.2.
Proof.
  induction fuel as [|fuel IH]; intros it marked_words evs res Hset Hevs Hres;
    [discriminate|].
  cbn [live_objects_do] in Hres.
  destruct it as [b t m a]. destruct Hset as (Hb & Ht & Hm & Hcur).
  cbn [_bitmap _tams _mr _current] in *. subst b t m.
  unfold has_next, next in Hres. cbn [_current _mr] in Hres.
  destruct (Z.ltb_spec a (mr_end mr)) as [Hlt|Hge];
    [|injection Hres as <-; exact Hevs].
  assert (Hlive : iterates_live bitmap tams mr (EvOopIterate a None)
                  ∧ iterates_live bitmap tams mr (EvOopIterate a (Some mr))).
  { unfold iterates_live. destruct Hcur as [?|[?|?]]; [lia|auto|auto]. }
  unfold scan_for_references in Hres.
  destruct (negb (oop_is_objArray (oop hr a))
            || mr_contains mr (mkMemRegion a (oop_size (oop hr a))));
    (eapply IH; [|  |exact Hres];
     [unfold move_to_next, next, set_current; cbn [_bitmap _tams _mr _current];
      apply settled_move_if_below_tams
     |apply Forall_app; split; [exact Hevs|]; constructor; [apply Hlive|constructor]]).
Qed.

End RebuildLive.

(** X10: in a region that is not humongous, every object that
    [rebuild_rem_set_in_region] hands to the closure is live for the
    rebuild (marked on the bitmap, or at or above TAMS) and starts below
    the end of the chunk: an unmarked object below TAMS is never
    iterated. *)
Theorem rebuild_iterates_live_objects_only st bitmap tams tars hr mr marked_bytes evs :
  isHumongous hr = false →
  G1RebuildRemSetHeapRegionClosure.rebuild_rem_set_in_region st bitmap tams tars hr mr
  = Some (marked_bytes, evs) →
  Forall (iterates_live bitmap tams mr) evs.
Proof.
  intros Hh Hres. unfold G1RebuildRemSetHeapRegionClosure.rebuild_rem_set_in_region in Hres.
  rewrite Hh in Hres.
  destruct (G1RebuildRemSetHeapRegionClosure.live_objects_do _ hr tams mr _ 0 [])
    as [[mw evs']|] eqn:Hloop; [|discriminate].
  injection Hres as _ <-.
  apply (live_objects_do_live hr bitmap tams mr tams _ _ _ _ _
           (settled_new_LiveObjIterator hr bitmap tams mr _) (Forall_nil_2 _) Hloop).
Qed.

Lemma rebuild_iterates_live_objects_only_witness :
  Forall (iterates_live RebuildExample.bitmap 26 (mkMemRegion 0 8))
    [EvOopIterate 0 None; EvOopIterate 6 (Some (mkMemRegion 0 8))].
Proof.
  apply (rebuild_iterates_live_objects_only RebuildExample.heap RebuildExample.bitmap
           26 30 RebuildExample.old_region (mkMemRegion 0 8) 48).
  - reflexivity.
  - vm_compute. reflexivity.
Defined.

(** ** Scrubbing the remembered sets *)

Section ScrubProperties.

Context (hrrs_scrub : ByteMap -> list bool -> list bool
                      -> HeapRegionRemSet -> HeapRegionRemSet).
Context (region_bm card_bm : list bool).

Lemma scrub_heap_region_iterate order : ∀ st,
  let st' := ScrubRSClosure.heap_region_iterate hrrs_scrub region_bm card_bm order st in
  byte_map st' = byte_map st ∧ trace st' = trace st
  ∧ queues_agree st st' ∧ regions_agree st st'
  ∧ (∀ r, r ∉ order → rem_set st' r = rem_set st r)
  ∧ (NoDup order →
     ∀ r, r ∈ order → (r < length (regions st))%nat →
       rem_set st' r
       = if continuesHumongous (region st r) then rem_set st r
         else hrrs_scrub (byte_map st) region_bm card_bm (rem_set st r)).
Proof.
  induction order as [|r0 rest IH]; intros st; cbn [ScrubRSClosure.heap_region_iterate].
  { split; [reflexivity|]. split; [reflexivity|]. split; [apply queues_agree_refl|].
    split; [apply regions_agree_refl|]. split; [reflexivity|].
    intros _ r Hr. by apply elem_of_nil in Hr. }
  unfold ScrubRSClosure.doHeapRegion.
  set (st1 := if negb (continuesHumongous (region st r0))
              then update_rem_set (hrrs_scrub (byte_map st) region_bm card_bm) r0 st
              else st).
  assert (Hst1 : byte_map st1 = byte_map st ∧ trace st1 = trace st
                 ∧ queues_agree st st1 ∧ regions_agree st st1
                 ∧ (∀ r, r ≠ r0 → rem_set st1 r = rem_set st r)
                 ∧ ((r0 < length (regions st))%nat →
                    rem_set st1 r0
                    = if continuesHumongous (region st r0) then rem_set st r0
                      else hrrs_scrub (byte_map st) region_bm card_bm (rem_set st r0))).
  { subst st1. destruct (continuesHumongous (region st r0)); cbn [negb].
    - split; [reflexivity|]. split; [reflexivity|]. split; [apply queues_agree_refl|].
      split; [apply regions_agree_refl|]. auto.
    - split; [apply update_rem_set_frame|]. split; [apply update_rem_set_frame|].
      split; [apply queues_agree_update_rem_set|].
      split; [apply regions_agree_update_rem_set|]. split.
      + intros r Hne. by apply rem_set_update_rem_set_ne.
      + intros Hlt. by apply rem_set_update_rem_set_eq. }
  assert (Heq : (let '(stop, st0) :=
                   if negb (continuesHumongous (region st r0))
                   then (false,
                         update_rem_set (hrrs_scrub (byte_map st) region_bm card_bm) r0 st)
                   else (false, st) in
                 if stop then st0
                 else ScrubRSClosure.heap_region_iterate hrrs_scrub region_bm card_bm rest st0)
                = ScrubRSClosure.heap_region_iterate hrrs_scrub region_bm card_bm rest st1).
  { subst st1. by destruct (negb (continuesHumongous (region st r0))). }
  rewrite Heq. clear Heq. clearbody st1.
  destruct Hst1 as (Hb1 & Ht1 & Hq1 & Hr1 & Hother1 & Hsame1).
  destruct (IH st1) as (Hb2 & Ht2 & Hq2 & Hr2 & Hother2 & Hsame2).
  split; [congruence|]. split; [congruence|].
  split; [eapply queues_agree_trans; eassumption|].
  split; [eapply regions_agree_trans; eassumption|]. split.
  - intros r Hr. apply not_elem_of_cons in Hr as [Hne Hr].
    rewrite Hother2 by exact Hr. by apply Hother1.
  - intros Hnd r Hr Hlt. apply NoDup_cons in Hnd as [Hr0 Hnd].
    destruct Hr1 as [Hlen1 Hattr1].
    apply elem_of_cons in Hr as [->|Hr].
    + rewrite Hother2 by exact Hr0. by apply Hsame1.
    + assert (Hne : r ≠ r0) by (intros ->; contradiction).
      rewrite (Hsame2 Hnd r Hr) by (by rewrite Hlen1).
      destruct (Hattr1 r) as (_ & _ & _ & _ & Hty & _).
      unfold continuesHumongous. rewrite Hty, Hb1, (Hother1 r Hne). reflexivity.
Qed.

End ScrubProperties.

(** X11: [scrub] applies [HeapRegionRemSet::scrub] once, with the card table
    and the two bitmaps, to the remembered set of every region that does not
    continue a humongous object, and leaves the remembered sets of the
    regions that continue one as they are.  [scrub_par] leaves the
    remembered sets of the regions the worker did not claim as they are.
    Neither touches the card table, the trace, the dirty card queues or the
    regions' bounds and types. *)
Theorem scrub_rewrites_each_remembered_set_once hrrs_scrub region_bm card_bm st :
  let st' := ScrubRSClosure.scrub hrrs_scrub region_bm card_bm st in
  (∀ r, (r < length (regions st))%nat →
     rem_set st' r
     = if continuesHumongous (region st r) then rem_set st r
       else hrrs_scrub (byte_map st) region_bm card_bm (rem_set st r))
  ∧ byte_map st' = byte_map st ∧ trace st' = trace st
  ∧ queues_agree st st' ∧ regions_agree st st'
  ∧ ∀ claimed,
      let st_par := ScrubRSClosure.scrub_par hrrs_scrub region_bm card_bm claimed st in
      (∀ r, r ∉ claimed → rem_set st_par r = rem_set st r)
      ∧ byte_map st_par = byte_map st ∧ trace st_par = trace st
      ∧ queues_agree st st_par ∧ regions_agree st st_par.
Proof.
  cbv zeta. unfold ScrubRSClosure.scrub, ScrubRSClosure.scrub_par.
  destruct (scrub_heap_region_iterate hrrs_scrub region_bm card_bm
              (seq 0 (length (regions st))) st) as (Hb & Ht & Hq & Hr & _ & Hsame).
  split.
  { intros r Hlt. apply Hsame; [apply NoDup_seq| |exact Hlt].
    apply elem_of_seq. lia. }
  split; [exact Hb|]. split; [exact Ht|]. split; [exact Hq|]. split; [exact Hr|].
  intros claimed.
  destruct (scrub_heap_region_iterate hrrs_scrub region_bm card_bm claimed st)
    as (Hb' & Ht' & Hq' & Hr' & Hother & _).
  auto.
Qed.

Lemma scrub_rewrites_each_remembered_set_once_witness :
  let keep_marked (_ : ByteMap) (_ card_bm : list bool) rs :=
    mkHRRS (filter (fun c => default false (card_bm !! c) = true) (rs_cards rs))
      (iter_state rs) (iter_claimed rs) in
  let card_bm := [true; false; false; true; true] in
  let st := Example.state Example.no_cache in
  rs_cards (rem_set (ScrubRSClosure.scrub keep_marked [] card_bm st) 2) = [0; 3; 4]%nat
  ∧ rem_set (ScrubRSClosure.scrub_par keep_marked [] card_bm [0; 1]%nat st) 2
    = rem_set st 2.
Proof.
  cbv zeta.
  destruct (scrub_rewrites_each_remembered_set_once
              (fun (_ : ByteMap) (_ card_bm : list bool) rs =>
                 mkHRRS (filter (fun c => default false (card_bm !! c) = true) (rs_cards rs))
                   (iter_state rs) (iter_claimed rs))
              [] [true; false; false; true; true] (Example.state Example.no_cache))
    as (Hscrub & _ & _ & _ & _ & Hpar).
  split.
  - rewrite (Hscrub 2%nat); [reflexivity|simpl; lia].
  - apply (Hpar [0; 1]%nat). vm_compute. intros H.
    apply elem_of_cons in H as [H|H]; [discriminate|].
    apply elem_of_cons in H as [H|H]; [discriminate|]. by apply elem_of_nil in H.
Defined.

(** ** Flushing the logs before verification *)

(** X12: [prepare_for_verify] does nothing unless the flags ask for the
    logs to be flushed.  When they do, every completed buffer has been
    consumed when it returns, as its closing assertion says; the hot card
    cache is as it was, with [use_cache] restored; the mutators' logs are
    taken over when the call is made at a safepoint and left alone
    otherwise; and the refinement closure is left non-concurrent. *)
Theorem prepare_for_verify_consumes_all_buffers env flags st :
  let st' := prepare_for_verify env flags st in
  let enabled :=
    G1HRRSFlushLogBuffersOnVerify flags
    && (VerifyBeforeGC flags || VerifyAfterGC flags)
    && (negb (full_collection flags) || G1VerifyRSetsDuringFullGC flags) in
  (enabled = false → st' = st)
  ∧ (enabled = true →
     completed_buffers st' = []
     ∧ hot_card_cache st' = hot_card_cache st
     ∧ mutator_logs st' = (if is_at_safepoint flags then [] else mutator_logs st)
     ∧ refine_cte_cl_concurrency st' = false
     ∧ cset_rs_update_cl st' = cset_rs_update_cl st
     ∧ cards_scanned st' = cards_scanned st).
Proof.
  cbv zeta. unfold prepare_for_verify. split; intros ->; [reflexivity|].
  unfold cleanupHRRS, updateRS, iterate_dirty_card_closure.
  set (st1 := if is_at_safepoint flags then _ else _).
  set (st2 := with_dirty_card_queues _ [] _).
  destruct (foldl_do_card_ptr_queue env 0 (concat (completed_buffers
              (with_hot_card_cache (set_use_cache false (hot_card_cache st1)) st1))) [] st2)
    as ((Hh & Hml & Hcb & _ & _ & _ & Hcc) & _).
  destruct (foldl_do_card_ptr_bookkeeping env 0 (concat (completed_buffers
              (with_hot_card_cache (set_use_cache false (hot_card_cache st1)) st1))) [] st2)
    as ([Hsl Hcs] & _).
  destruct (foldl _ ([], st2) _) as [q st3]. cbn [fst snd] in *.
  assert (Hst1 : hot_card_cache st1 = hot_card_cache st
                 ∧ mutator_logs st1 = (if is_at_safepoint flags then [] else mutator_logs st)
                 ∧ refine_cte_cl_concurrency st1 = false
                 ∧ cset_rs_update_cl st1 = cset_rs_update_cl st
                 ∧ cards_scanned st1 = cards_scanned st).
  { subst st1. destruct (is_at_safepoint flags); repeat split. }
  destruct Hst1 as (Hh1 & Hml1 & Hcc1 & Hsl1 & Hcs1).
  subst st2.
  cbn [hot_card_cache mutator_logs completed_buffers refine_cte_cl_concurrency
       cset_rs_update_cl cards_scanned with_dirty_card_queues with_hot_card_cache] in *.
  assert (Hcache : set_use_cache (use_cache (hot_card_cache st1)) (hot_card_cache st3)
                   = hot_card_cache st).
  { rewrite Hh, <- Hh1. unfold set_use_cache. cbn [hcc_capacity hcc_cards].
    by destruct (hot_card_cache st1). }
  destruct q;
    cbn [hot_card_cache mutator_logs completed_buffers refine_cte_cl_concurrency
         cset_rs_update_cl cards_scanned with_into_cset_completed_buffers
         with_hot_card_cache];
    (split; [exact Hcb|]; split; [exact Hcache|]; split; [congruence|];
     split; [congruence|]; split; congruence).
Qed.

Lemma prepare_for_verify_consumes_all_buffers_witness :
  let env := Example.collaborators Example.parsed in
  let st := with_dirty_card_queues [[9]]%nat [[1; 5]]%nat
              (Example.state Example.cache_of_two) in
  let st' := prepare_for_verify env (mkVerifyFlags true true false false false true) st in
  completed_buffers st' = []
  ∧ hot_card_cache st' = hot_card_cache st
  ∧ mutator_logs st' = []
  ∧ refine_cte_cl_concurrency st' = false
  ∧ cset_rs_update_cl st' = cset_rs_update_cl st
  ∧ cards_scanned st' = cards_scanned st.
Proof.
  apply (prepare_for_verify_consumes_all_buffers
           (Example.collaborators Example.parsed)
           (mkVerifyFlags true true false false false true)
           (with_dirty_card_queues [[9]]%nat [[1; 5]]%nat
              (Example.state Example.cache_of_two))).
  reflexivity.
Defined.

(** ** Counting the cards of non-clean regions *)

Lemma int_wrap_add_l a b : int_wrap (int_wrap a + b) = int_wrap (a + b).
Proof.
  unfold int_wrap. f_equal.
  replace ((a + 2 ^ 31) mod 2 ^ 32 - 2 ^ 31 + b + 2 ^ 31)
    with ((a + 2 ^ 31) mod 2 ^ 32 + b) by ring.
  rewrite Z.add_mod_idemp_l by done. f_equal. ring.
Qed.

Lemma int_wrap_idemp a : int_wrap (int_wrap a) = int_wrap a.
Proof. pose proof (int_wrap_add_l a 0) as H. by rewrite !Z.add_0_r in H. Qed.

Lemma do_MemRegion_foldl is_in_g1_reserved card_size mrs : ∀ cl,
  let res := foldl (fun cl mr => do_MemRegion is_in_g1_reserved card_size mr cl) cl mrs in
  let counted := filter (fun mr => is_in_g1_reserved (mr_start mr) = true) mrs in
  (int_wrap (_n cl) = _n cl →
   _n res = int_wrap (_n cl + foldr (fun mr acc => mr_byte_size mr / card_size + acc) 0
                                counted))
  ∧ (Forall (fun mr => mr_start mr ≠ 0) counted →
     _start_first res
     = if _start_first cl =? 0 then default 0 (mr_start <$> head counted)
       else _start_first cl).
Proof.
  induction mrs as [|mr mrs IH]; intros cl; cbn [foldl].
  { cbn [filter list_filter foldr head fmap option_fmap option_map default].
    split; [intros H; by rewrite Z.add_0_r|].
    intros _. by destruct (_start_first cl =? 0) eqn:H; [apply Z.eqb_eq in H|]. }
  destruct (IH (do_MemRegion is_in_g1_reserved card_size mr cl)) as [IHn IHs].
  rewrite filter_cons. unfold do_MemRegion in *.
  destruct (is_in_g1_reserved (mr_start mr)) eqn:Hin.
  - rewrite decide_True by reflexivity. cbn [_n _start_first foldr head fmap option_fmap
                                          option_map default] in *.
    split.
    + intros _. rewrite IHn by apply int_wrap_idemp.
      rewrite int_wrap_add_l.
      match goal with |- int_wrap (?n + int_wrap ?x + ?s) = _ =>
        replace (n + int_wrap x + s) with (int_wrap x + (n + s)) by ring end.
      rewrite int_wrap_add_l. f_equal. ring.
    + intros Hnz. apply Forall_cons in Hnz as [Hmr Hnz]. rewrite (IHs Hnz).
      destruct (_start_first cl =? 0) eqn:H0.
      * by rewrite (proj2 (Z.eqb_neq _ _) Hmr).
      * by rewrite H0.
  - rewrite decide_False by discriminate. split; [exact IHn|exact IHs].
Qed.

(** X13: applied to a sequence of [MemRegion]s, the closure counts the
    cards of the regions that start inside the reserved heap and skips the
    others; the count is the sum of [byte_size / card_size] over the counted
    regions, reduced to an [int].  [_start_first] ends up as the start of
    the first counted region, and as NULL when no region was counted. *)
Theorem do_MemRegion_counts_reserved_regions is_in_g1_reserved card_size mrs :
  let cl := foldl (fun cl mr => do_MemRegion is_in_g1_reserved card_size mr cl)
              new_CountNonCleanMemRegionClosure mrs in
  let counted := filter (fun mr => is_in_g1_reserved (mr_start mr) = true) mrs in
  Forall (fun mr => mr_start mr ≠ 0) counted →
  _n cl = int_wrap (foldr (fun mr acc => mr_byte_size mr / card_size + acc) 0 counted)
  ∧ _start_first cl = default 0 (mr_start <$> head counted).
Proof.
  cbv zeta. intros Hnz.
  destruct (do_MemRegion_foldl is_in_g1_reserved card_size mrs
              new_CountNonCleanMemRegionClosure) as [Hn Hs].
  split; [apply Hn; reflexivity|]. by rewrite (Hs Hnz).
Qed.

Lemma do_MemRegion_counts_reserved_regions_witness :
  let is_in_g1_reserved a := (1024 <=? a) && (a <? 4096) in
  let cl := foldl (fun cl mr => do_MemRegion is_in_g1_reserved 512 mr cl)
              new_CountNonCleanMemRegionClosure
              [mkMemRegion 512 64; mkMemRegion 1024 128; mkMemRegion 2048 64] in
  _n cl = 3 ∧ _start_first cl = 1024.
Proof.
  apply (do_MemRegion_counts_reserved_regions
           (fun a => (1024 <=? a) && (a <? 4096)) 512
           [mkMemRegion 512 64; mkMemRegion 1024 128; mkMemRegion 2048 64]).
  vm_compute. repeat constructor; discriminate.
Defined.
